(** * Lloyd's k-means over torch tensors: a shallow embedding of [utee/kmeans.py]

    The Python module is a thin layer over [torch].  Its behaviour is decided
    almost entirely by the shapes the tensor operations produce, so a tensor
    is modelled the way torch stores it: a list of sizes and a contiguous
    row-major buffer.  Floating-point numbers are idealised as rationals kept
    in lowest terms (no rounding, no inf, no NaN); a Python exception is a
    value of an error monad.  Where a property depends on what the numbers
    are, [lloyd] is modelled once more over an arbitrary arithmetic, of which
    the rationals and IEEE binary32 are instances. *)

From Stdlib Require Import List Arith ZArith QArith Qabs Lia Bool Permutation
  SpecFloat.
Import ListNotations.
Local Open Scope nat_scope.

(** ** Python exceptions *)

Inductive error : Type :=
| AssertionError      (* a failed [assert] *)
| IndexError          (* dimension or index out of range *)
| TypeError           (* [len()] of a 0-d tensor *)
| UnboundLocalError   (* a local variable read before assignment *)
| BroadcastError      (* RuntimeError: operand sizes do not broadcast *)
| ScatterError        (* RuntimeError: [scatter_] index rank, extent or bound *)
| CatError            (* RuntimeError: [torch.cat] operand shapes *)
| SizeError.          (* RuntimeError: negative dimension in a factory call *)

Inductive result (A : Type) : Type :=
| Ok (a : A)
| Raise (e : error).
Arguments Ok {A} a.
Arguments Raise {A} e.

Definition bind {A B : Type} (m : result A) (k : A -> result B) : result B :=
  match m with
  | Ok a => k a
  | Raise e => Raise e
  end.

Notation "x <- m ;; k" := (bind m (fun x => k))
  (at level 61, m at next level, right associativity).
Notation "' pat <- m ;; k" := (bind m (fun x => match x with pat => k end))
  (at level 61, pat pattern, m at next level, right associativity).

Definition py_assert (b : bool) : result unit :=
  if b then Ok tt else Raise AssertionError.

Definition raises {A : Type} (m : result A) : Prop :=
  exists e, m = Raise e.

(** ** Scalars: rationals in lowest terms *)

Definition qadd (a b : Q) : Q := Qred (a + b).
Definition qsub (a b : Q) : Q := Qred (a - b).
Definition qmul (a b : Q) : Q := Qred (a * b).
Definition qrecip (a : Q) : Q := Qred (/ a).
Definition qltb (a b : Q) : bool := negb (Qle_bool b a).
Definition qnonzero (a : Q) : bool := negb (Qeq_bool a 0).
Definition qsum (l : list Q) : Q := fold_right qadd 0%Q l.

(** The rounded square root standing for [torch.sqrt] in concrete runs: exact
    on squares of rationals, rounded towards zero elsewhere.  The loops are
    defined for an arbitrary [sqrt], and the theorems hold for all of them. *)
Definition Qsqrt (a : Q) : Q :=
  let r := Qred a in
  Qred (Z.sqrt (Qnum r * Zpos (Qden r)) # Qden r).

(** ** Tensors *)

Record tensor (A : Type) : Type := mkT { shape : list nat; data : list A }.
Arguments mkT {A} shape data.
Arguments shape {A} t.
Arguments data {A} t.

Class Zero (A : Type) : Type := zero : A.
#[export] Instance Zero_Q : Zero Q := 0%Q.
#[export] Instance Zero_nat : Zero nat := 0%nat.

Definition numel (s : list nat) : nat := fold_right Nat.mul 1 s.
Definition ndim {A} (t : tensor A) : nat := length (shape t).

(** Element at a flat (row-major) offset. *)
Definition elt {A} `{Zero A} (t : tensor A) (p : nat) : A := nth p (data t) zero.

(** The tensor of shape [s] whose element at offset [p] is [f p]. *)
Definition tabulate {A} (s : list nat) (f : nat -> A) : tensor A :=
  mkT s (map f (seq 0 (numel s))).

Definition tmap {A B} (f : A -> B) (t : tensor A) : tensor B :=
  mkT (shape t) (map f (data t)).

(** The buffer of a tensor holds one element per position. *)
Definition wf {A} (t : tensor A) : Prop := length (data t) = numel (shape t).

(** Multi-index of a flat offset, and back. *)
Fixpoint unravel (s : list nat) (p : nat) : list nat :=
  match s with
  | [] => []
  | _ :: s' => p / numel s' :: unravel s' (p mod numel s')
  end.

Fixpoint ravel (s idx : list nat) : nat :=
  match s, idx with
  | _ :: s', i :: idx' => i * numel s' + ravel s' idx'
  | _, _ => 0
  end.

(** *** Broadcasting *)

Fixpoint bshape_rev (a b : list nat) : option (list nat) :=
  match a, b with
  | [], _ => Some b
  | _, [] => Some a
  | x :: a', y :: b' =>
      match bshape_rev a' b' with
      | None => None
      | Some s =>
          if x =? y then Some (x :: s)
          else if x =? 1 then Some (y :: s)
          else if y =? 1 then Some (x :: s)
          else None
      end
  end.

(** Sizes are aligned from the last dimension; a size 1 stretches. *)
Definition broadcast_shapes (a b : list nat) : option (list nat) :=
  option_map (@rev nat) (bshape_rev (rev a) (rev b)).

Fixpoint clamp (s idx : list nat) : list nat :=
  match s, idx with
  | n :: s', i :: idx' => (if n =? 1 then 0 else i) :: clamp s' idx'
  | _, _ => []
  end.

(** Offset, in an operand of shape [sa], of the element that the multi-index
    [idx] of the broadcast shape [so] reads. *)
Definition bidx (sa so idx : list nat) : nat :=
  ravel sa (clamp sa (skipn (length so - length sa) idx)).

Definition expand {A} `{Zero A} (t : tensor A) (s : list nat) : tensor A :=
  tabulate s (fun p => elt t (bidx (shape t) s (unravel s p))).

Definition bop (f : Q -> Q -> Q) (a b : tensor Q) : result (tensor Q) :=
  match broadcast_shapes (shape a) (shape b) with
  | None => Raise BroadcastError
  | Some s =>
      Ok (tabulate s (fun p =>
            let idx := unravel s p in
            f (elt a (bidx (shape a) s idx)) (elt b (bidx (shape b) s idx))))
  end.

Definition tsub : tensor Q -> tensor Q -> result (tensor Q) := bop qsub.
Definition tmul : tensor Q -> tensor Q -> result (tensor Q) := bop qmul.

(** [t ** 2.0] *)
Definition pow2 (t : tensor Q) : tensor Q := tmap (fun x => qmul x x) t.

(** *** Views *)

(** [t.unsqueeze(dim)] *)
Definition unsqueeze {A} (dim : Z) (t : tensor A) : result (tensor A) :=
  let r := Z.of_nat (ndim t) in
  let d := if (dim <? 0)%Z then (dim + r + 1)%Z else dim in
  if ((0 <=? d) && (d <=? r))%Z
  then Ok (mkT (firstn (Z.to_nat d) (shape t) ++ 1 :: skipn (Z.to_nat d) (shape t))
               (data t))
  else Raise IndexError.

(** [t.squeeze()]: every dimension of size 1 is dropped. *)
Definition squeeze {A} (t : tensor A) : tensor A :=
  mkT (filter (fun n => negb (n =? 1)) (shape t)) (data t).

(** [t.squeeze(-1)]: the last dimension is dropped when its size is 1. *)
Definition squeeze_last {A} (t : tensor A) : tensor A :=
  match rev (shape t) with
  | 1 :: s' => mkT (rev s') (data t)
  | _ => t
  end.

(** [t.view(-1)] *)
Definition view_flat {A} (t : tensor A) : tensor A :=
  mkT [numel (shape t)] (data t).

(** [t.transpose(1, 0)] *)
Definition transpose10 {A} `{Zero A} (t : tensor A) : result (tensor A) :=
  match shape t with
  | a :: b :: rest =>
      let r := numel rest in
      Ok (tabulate (b :: a :: rest) (fun p =>
            let j := p / (a * r) in
            let i := (p / r) mod a in
            let q := p mod r in
            elt t ((i * b + j) * r + q)))
  | _ => Raise IndexError
  end.

(** [t.shape[0]] and [len(t)] *)
Definition size0 {A} (t : tensor A) : result nat :=
  match shape t with
  | n :: _ => Ok n
  | [] => Raise IndexError
  end.

Definition len {A} (t : tensor A) : result nat :=
  match shape t with
  | n :: _ => Ok n
  | [] => Raise TypeError
  end.

(** *** Reductions *)

(** Index of the first least value of [f] on [0, n). *)
Definition argmin_step (f : nat -> Q) (best j : nat) : nat :=
  if qltb (f j) (f best) then j else best.

Definition argmin_fn (f : nat -> Q) (n : nat) : nat :=
  fold_left (argmin_step f) (seq 1 (n - 1)) 0.

(** [torch.argmin(t, dim=1)] *)
Definition argmin_dim1 (t : tensor Q) : result (tensor nat) :=
  match shape t with
  | n0 :: n1 :: rest =>
      if n1 =? 0 then Raise IndexError
      else
        let r := numel rest in
        Ok (tabulate (n0 :: rest) (fun p =>
              argmin_fn (fun j => elt t (((p / r) * n1 + j) * r + p mod r)) n1))
  | _ => Raise IndexError
  end.

(** [t.sum(dim=0)] *)
Definition sum_dim0 (t : tensor Q) : result (tensor Q) :=
  match shape t with
  | n0 :: rest =>
      let r := numel rest in
      Ok (tabulate rest (fun q =>
            qsum (map (fun i => elt t (i * r + q)) (seq 0 n0))))
  | [] => Raise IndexError
  end.

(** [torch.sum(t, dim=1)] *)
Definition sum_dim1 (t : tensor Q) : result (tensor Q) :=
  match shape t with
  | n0 :: n1 :: rest =>
      let r := numel rest in
      Ok (tabulate (n0 :: rest) (fun p =>
            qsum (map (fun j => elt t (((p / r) * n1 + j) * r + p mod r))
                      (seq 0 n1))))
  | _ => Raise IndexError
  end.

(** [torch.sum(t)]: a 0-d tensor. *)
Definition sum_all (t : tensor Q) : tensor Q := mkT [] [qsum (data t)].

(** The value of a 0-d tensor. *)
Definition item {A} `{Zero A} (t : tensor A) : A := elt t 0.

(** *** Factory functions *)

(** [torch.zeros(sizes)] and [torch.ones(sizes)] *)
Definition zeros (sizes : list Z) : result (tensor Q) :=
  if forallb (fun z => (0 <=? z)%Z) sizes
  then Ok (tabulate (map Z.to_nat sizes) (fun _ => 0%Q))
  else Raise SizeError.

Definition ones (sizes : list Z) : result (tensor Q) :=
  if forallb (fun z => (0 <=? z)%Z) sizes
  then Ok (tabulate (map Z.to_nat sizes) (fun _ => 1%Q))
  else Raise SizeError.

(** [t.zero_()] *)
Definition zero_ (t : tensor Q) : tensor Q := tabulate (shape t) (fun _ => 0%Q).

(** *** Indexing *)

(** [t[idx]] for an integer tensor [idx]: the rows of [t] named by [idx],
    arranged in the shape of [idx] (a 0-d [idx] selects one row). *)
Definition index_get {A} `{Zero A} (t : tensor A) (idx : tensor nat)
  : result (tensor A) :=
  match shape t with
  | n0 :: rest =>
      if forallb (fun i => i <? n0) (data idx)
      then
        let r := numel rest in
        Ok (tabulate (shape idx ++ rest) (fun p =>
              elt t (elt idx (p / r) * r + p mod r)))
      else Raise IndexError
  | [] => Raise IndexError
  end.

(** [t[idx] = v].  The indices written here come from [torch.nonzero] and
    are pairwise distinct, so the order of the writes does not matter. *)
Definition index_put (t : tensor Q) (idx : tensor nat) (v : tensor Q)
  : result (tensor Q) :=
  match shape t with
  | n0 :: rest =>
      if forallb (fun i => i <? n0) (data idx)
      then
        let target := shape idx ++ rest in
        match broadcast_shapes (shape v) target with
        | Some s =>
            if list_eq_dec Nat.eq_dec s target
            then
              let r := numel rest in
              let v' := expand v target in
              Ok (tabulate (shape t) (fun p =>
                    match find (fun q => elt idx q =? p / r)
                               (seq 0 (numel (shape idx))) with
                    | Some q => elt v' (q * r + p mod r)
                    | None => elt t p
                    end))
            else Raise BroadcastError
        | None => Raise BroadcastError
        end
      else Raise IndexError
  | [] => Raise IndexError
  end.

(** Python's slice bound [:stop] on a sequence of length [n]. *)
Definition slice_stop (n : nat) (stop : Z) : nat :=
  if (stop <? 0)%Z then Z.to_nat (Z.of_nat n + stop)
  else Nat.min n (Z.to_nat stop).

(** [t[0:stop]] *)
Definition slice0 {A} `{Zero A} (t : tensor A) (stop : Z) : result (tensor A) :=
  match shape t with
  | n0 :: rest => Ok (tabulate (slice_stop n0 stop :: rest) (elt t))
  | [] => Raise IndexError
  end.

(** [t[:stop] = v] *)
Definition slice0_assign (t : tensor Q) (stop : Z) (v : tensor Q)
  : result (tensor Q) :=
  match shape t with
  | n0 :: rest =>
      let target := slice_stop n0 stop :: rest in
      match broadcast_shapes (shape v) target with
      | Some s =>
          if list_eq_dec Nat.eq_dec s target
          then
            let v' := expand v target in
            Ok (tabulate (shape t) (fun p =>
                  if p <? numel target then elt v' p else elt t p))
          else Raise BroadcastError
      | None => Raise BroadcastError
      end
  | [] => Raise IndexError
  end.

(** [self.scatter_(1, index, v)] on a 2-d [self]: [self[i][index[i][j]] = v].
    Every [self] of this module comes from [torch.zeros(a, b)]. *)
Definition scatter1 (self : tensor Q) (index : tensor nat) (v : Q)
  : result (tensor Q) :=
  if numel (shape index) =? 0 then Ok self
  else
    match shape self, shape index with
    | [n0; n1], [i0; i1] =>
        if (i0 <=? n0) && forallb (fun k => k <? n1) (data index)
        then
          Ok (tabulate [n0; n1] (fun p =>
                let i := p / n1 in
                let k := p mod n1 in
                if (i <? i0)
                   && existsb (fun j => elt index (i * i1 + j) =? k) (seq 0 i1)
                then v else elt self p))
        else Raise ScatterError
    | _, _ => Raise ScatterError
    end.

(** [torch.nonzero(t)]: one row per non-zero element, holding its multi-index. *)
Definition nonzero (t : tensor Q) : tensor nat :=
  let ps := filter (fun p => qnonzero (elt t p)) (seq 0 (numel (shape t))) in
  mkT [length ps; ndim t] (flat_map (unravel (shape t)) ps).

(** [torch.cat([a, b])] along dimension 0; a 1-d empty operand is skipped. *)
Definition cat (a b : tensor Q) : result (tensor Q) :=
  match shape a, shape b with
  | [], _ => Raise CatError
  | _, [] => Raise CatError
  | [0], _ => Ok b
  | _, [0] => Ok a
  | a0 :: ra, b0 :: rb =>
      if list_eq_dec Nat.eq_dec ra rb
      then
        let na := a0 * numel ra in
        Ok (tabulate ((a0 + b0) :: ra) (fun p =>
              if p <? na then elt a p else elt b (p - na)))
      else Raise CatError
  end.

(** ** The module [utee/kmeans.py]

    [sqrt] stands for [torch.sqrt] and [randperm n] for the permutation of
    [0 .. n-1] that [torch.randperm(n)] draws.  [.cuda()],
    [torch.cuda.empty_cache()] and the [verbose] printing do not change any
    value and are left out. *)

Section KMeans.

Variable sqrt : Q -> Q.
Variable randperm : nat -> list nat.

Definition torch_randperm (n : nat) : tensor nat := mkT [n] (randperm n).

Definition choose_centers (X centers : tensor Q) : result (tensor nat) :=
  _ <- py_assert ((ndim X =? 2) && (ndim centers =? 2)) ;;
  let d1 := nth 1 (shape X) 0 in
  let d2 := nth 1 (shape centers) 0 in
  _ <- py_assert (d1 =? d2) ;;
  ct <- transpose10 centers ;;
  centers <- unsqueeze 0 ct ;;
  X <- unsqueeze (-1) X ;;
  diff <- tsub X centers ;;
  let distance := squeeze (pow2 diff) in
  argmin_dim1 distance.

Definition forgy_initialization (X : tensor Q) (K : Z) : result (tensor Q) :=
  N <- size0 X ;;
  indices <- slice0 (torch_randperm N) K ;;
  index_get X indices.

(** The body shared by the four loops up to the new center matrix (the lines
    from [choice_cluster = choose_centers(...)] to [(Xp * Xsum).unsqueeze(1)]),
    for the data matrix [X] and the buffer [one_hot] of the enclosing
    function. *)
Definition m_step (X one_hot centers : tensor Q)
  : result (tensor nat * tensor Q) :=
  choice_cluster <- choose_centers X centers ;;
  let one_hot := zero_ one_hot in
  index <- unsqueeze 1 choice_cluster ;;
  one_hot <- scatter1 one_hot index 1 ;;
  XO <- tmul X one_hot ;;
  Xp <- sum_dim0 XO ;;
  Xsum <- sum_dim0 one_hot ;;
  let idx := nonzero Xsum in
  sel <- index_get Xsum idx ;;
  Xsum <- index_put Xsum idx (tmap qrecip sel) ;;
  prod <- tmul Xp Xsum ;;
  new <- unsqueeze 1 prod ;;
  Ok (choice_cluster, new).

(** [torch.sum(torch.sqrt(torch.sum((centers - centers_old) ** 2, dim=1)))] *)
Definition center_shift (centers centers_old : tensor Q) : result Q :=
  diff <- tsub centers centers_old ;;
  sq <- sum_dim1 (pow2 diff) ;;
  Ok (item (sum_all (tmap sqrt sq))).

(** The local variables a loop leaves behind; [None] is an unbound name. *)
Record locals : Type := mkLocals {
  choice_cluster : option (tensor nat);
  centers : tensor Q;
  centers_old : option (tensor Q)
}.

(** One pass of [for i in range(max_iter)]: [step] maps the current centers
    to the assignment and the centers after the update. *)
Definition iteration (step : tensor Q -> result (tensor nat * tensor Q))
  (st : locals) : result (locals * Q) :=
  let old := centers st in
  '(choice, new) <- step old ;;
  shift <- center_shift new old ;;
  Ok (mkLocals (Some choice) new (Some old), shift).

Fixpoint iterate (step : tensor Q -> result (tensor nat * tensor Q))
  (tol : Q) (max_iter : nat) (st : locals) : result locals :=
  match max_iter with
  | O => Ok st
  | S n =>
      '(st', shift) <- iteration step st ;;
      if qltb (qmul shift shift) tol then Ok st'
      else iterate step tol n st'
  end.

(** [return choice_cluster, centers] *)
Definition return_locals (st : locals) : result (tensor nat * tensor Q) :=
  match choice_cluster st with
  | Some c => Ok (c, centers st)
  | None => Raise UnboundLocalError
  end.

Definition lloyd_locals (X : tensor Q) (K : Z) (tol : Q) (max_iter : nat)
  : result locals :=
  centers <- forgy_initialization X K ;;
  N <- size0 X ;;
  one_hot <- zeros [Z.of_nat N; K] ;;
  _ <- ones [K] ;;
  iterate (m_step X one_hot) tol max_iter (mkLocals None centers None).

Definition lloyd (X : tensor Q) (K : Z) (tol : Q) (max_iter : nat)
  : result (tensor nat * tensor Q) :=
  st <- lloyd_locals X K tol max_iter ;;
  return_locals st.

Definition forgy_initialization_nnz (X Xp : tensor Q) (K : Z)
  : result (tensor Q) :=
  let nnz_dix := nonzero (view_flat Xp) in
  n <- len nnz_dix ;;
  indices <- slice0 (torch_randperm n) (K - 1) ;;
  zero_el <- zeros [1%Z; 1%Z] ;;
  sel <- index_get nnz_dix indices ;;
  let idx0 := squeeze sel in
  rows <- index_get X idx0 ;;
  cat rows zero_el.

Definition lloyd_nnz_locals (X Xp : tensor Q) (K : Z) (tol : Q) (max_iter : nat)
  : result locals :=
  centers <- forgy_initialization_nnz X Xp K ;;
  N <- size0 X ;;
  one_hot <- zeros [Z.of_nat N; K] ;;
  _ <- ones [K] ;;
  iterate (m_step X one_hot) tol max_iter (mkLocals None centers None).

Definition lloyd_nnz (X Xp : tensor Q) (K : Z) (tol : Q) (max_iter : nat)
  : result (tensor nat * tensor Q) :=
  st <- lloyd_nnz_locals X Xp K tol max_iter ;;
  return_locals st.

(** The loop body of [lloyd_nnz_fixed_0_center]: the update is written into
    the first [K] rows of [centers] in place,
    [centers[:K] = (Xp * Xsum).unsqueeze(1)[:K]]. *)
Definition fixed_0_step (X one_hot : tensor Q) (K : Z) (centers : tensor Q)
  : result (tensor nat * tensor Q) :=
  '(choice, new) <- m_step X one_hot centers ;;
  rhs <- slice0 new K ;;
  centers <- slice0_assign centers K rhs ;;
  Ok (choice, centers).

Definition lloyd_nnz_fixed_0_center_locals (X Xp : tensor Q) (K : Z) (tol : Q)
  (max_iter : nat) : result locals :=
  centers <- forgy_initialization_nnz X Xp (K + 1) ;;
  N <- size0 X ;;
  one_hot <- zeros [Z.of_nat N; (K + 1)%Z] ;;
  _ <- ones [K] ;;
  iterate (fixed_0_step X one_hot K) tol max_iter (mkLocals None centers None).

Definition lloyd_nnz_fixed_0_center (X Xp : tensor Q) (K : Z) (tol : Q)
  (max_iter : nat) : result (tensor nat * tensor Q) :=
  st <- lloyd_nnz_fixed_0_center_locals X Xp K tol max_iter ;;
  return_locals st.

Definition forgy_initialization_fixed_nnz (X Xp : tensor Q) (K : Z)
  : result (tensor Q) :=
  let nnz_dix := nonzero (view_flat Xp) in
  n <- len nnz_dix ;;
  indices <- slice0 (torch_randperm n) (K - 1) ;;
  sel <- index_get nnz_dix indices ;;
  let idx0 := squeeze sel in
  index_get X idx0.

Definition lloyd_fixed_nnz_locals (X Xp : tensor Q) (K : Z) (tol : Q)
  (max_iter : nat) : result locals :=
  centers <- forgy_initialization_fixed_nnz X Xp K ;;
  let nnz_idx := nonzero (squeeze Xp) in
  n <- len nnz_idx ;;
  one_hot <- zeros [Z.of_nat n; (K - 1)%Z] ;;
  _ <- ones [(K - 1)%Z] ;;
  sel <- index_get X nnz_idx ;;
  let Xnnz := squeeze_last sel in
  iterate (m_step Xnnz one_hot) tol max_iter (mkLocals None centers None).

Definition lloyd_fixed_nnz (X Xp : tensor Q) (K : Z) (tol : Q) (max_iter : nat)
  : result (tensor nat * tensor Q) :=
  st <- lloyd_fixed_nnz_locals X Xp K tol max_iter ;;
  return_locals st.

End KMeans.

(** ** Vocabulary of the properties *)

(** Squared Euclidean distance between two one-feature points. *)
Definition sqdist (x c : Q) : Q := qmul (qsub x c) (qsub x c).


Definition nearest (X C : tensor Q) (K i : nat) : nat :=
  argmin_fn (fun k => sqdist (elt X i) (elt C k)) K.

(** What [choose_centers] computes on [d >= 2] features: for the point [i]
    and the center [k], the feature [j] on which they differ least. *)
Definition feature_argmin (X C : tensor Q) (N d K' : nat) : tensor nat :=
  tabulate [N; K'] (fun p =>
    argmin_fn (fun j => sqdist (elt X ((p / K') * d + j))
                               (elt C ((p mod K') * d + j))) d).

(** The one-hot indicator of an assignment vector. *)
Definition one_hot_of (a : tensor nat) (N K : nat) : tensor Q :=
  tabulate [N; K] (fun p => if elt a (p / K) =? p mod K then 1%Q else 0%Q).

(** [Xsum] and [Xp] of the update, per cluster, and the guarded reciprocal. *)
Definition count_in (a : tensor nat) (N k : nat) : Q :=
  qsum (map (fun i => if elt a i =? k then 1%Q else 0%Q) (seq 0 N)).

Definition sum_in (X : tensor Q) (a : tensor nat) (N k : nat) : Q :=
  qsum (map (fun i => qmul (elt X i) (if elt a i =? k then 1%Q else 0%Q))
            (seq 0 N)).

Definition recip_guard (c : Q) : Q := if qnonzero c then qrecip c else c.

Definition new_center (X : tensor Q) (a : tensor nat) (N k : nat) : Q :=
  qmul (sum_in X a N k) (recip_guard (count_in a N k)).

(** The points assigned to cluster [k]. *)
Definition members (a : tensor nat) (N k : nat) : list nat :=
  filter (fun i => elt a i =? k) (seq 0 N).

Definition Qsum (l : list Q) : Q := fold_right Qplus 0%Q l.

(** Row [k] of a tensor, as a vector. *)
Definition row_size {A} (t : tensor A) : nat := numel (tl (shape t)).

Definition row {A} (t : tensor A) (k : nat) : list A :=
  firstn (row_size t) (skipn (k * row_size t) (data t)).

(** Arithmetic mean of the rows of [X] listed in [l]. *)
Definition mean_row (X : tensor Q) (l : list nat) : list Q :=
  map (fun j => (Qsum (map (fun i => elt X (i * row_size X + j)) l)
                 / inject_Z (Z.of_nat (length l)))%Q)
      (seq 0 (row_size X)).

(** What a loop leaves in its locals: either no pass was run, or the
    assignment and the centers come from one step taken at [centers_old]. *)
Definition last_step (step : tensor Q -> result (tensor nat * tensor Q))
  (st : locals) : Prop :=
  match choice_cluster st, centers_old st with
  | Some a, Some old => step old = Ok (a, centers st)
  | None, None => True
  | _, _ => False
  end.

(** [c] agrees with [c0] from row [m] on. *)
Definition frozen_from (m : nat) (c0 c : tensor Q) : Prop :=
  wf c /\ shape c = shape c0
  /\ forall p, m * row_size c0 <= p -> elt c p = elt c0 p.

(** [torch.randperm(n)] draws a permutation of [0 .. n-1]. *)
Definition valid_randperm (randperm : nat -> list nat) : Prop :=
  forall n, Permutation (randperm n) (seq 0 n).

(** The eligible rows: the positions at which [Xp] is non-zero. *)
Definition nonzero_positions (Xp : tensor Q) : list nat :=
  filter (fun p => qnonzero (elt Xp p)) (seq 0 (numel (shape Xp))).

Definition count_nonzero (Xp : tensor Q) : nat := length (nonzero_positions Xp).

(** ** Vocabulary of the further properties *)

(** The two [assert]s of [choose_centers]: both arguments are 2-d and their
    feature counts agree. *)
Definition shapes_accepted (X centers : tensor Q) : bool :=
  (ndim X =? 2) && (ndim centers =? 2)
  && (nth 1 (shape X) 0 =? nth 1 (shape centers) 0).

(** The [i]-th row that the non-zero initializations draw: the position in
    [Xp.view(-1)] of the non-zero entry number [randperm(M)[i]]. *)
Definition drawn_position (randperm : nat -> list nat) (Xp : tensor Q) (i : nat)
  : nat :=
  nth (nth i (randperm (count_nonzero Xp)) 0) (nonzero_positions Xp) 0.

(** The breaking condition of the loops, read off the locals: the last pass
    moved the centers by a [center_shift] whose square is below [tol]. *)
Definition converged (sqrt : Q -> Q) (tol : Q) (st : locals) : bool :=
  match centers_old st with
  | Some old =>
      match center_shift sqrt (centers st) old with
      | Ok s => qltb (qmul s s) tol
      | Raise _ => false
      end
  | None => false
  end.

(** A run whose result does not change when [max_iter] is raised. *)
Definition stable_run (sqrt : Q -> Q) (tol : Q) (run : nat -> result locals)
  : Prop :=
  forall n st, run n = Ok st -> converged sqrt tol st = true ->
  forall n', n <= n' -> run n' = Ok st.

(** ** Inputs of the worked runs *)

(** An [N x 1] data matrix. *)
Definition col (l : list Q) : tensor Q := mkT [length l; 1] l.

(** The draw in which [torch.randperm] returns the identity permutation. *)
Definition idperm (n : nat) : list nat := seq 0 n.

(** The default [tol=1e-4]. *)
Definition tol_default : Q := 1 # 10000.

Definition points8 : tensor Q := col [30; 120; 40; 34; 79; 81; 82; 83]%Q.
Definition points3 : tensor Q := col [0; 1; 10]%Q.
Definition weights3 : tensor Q := col [1; 2; 3]%Q.
Definition weights5 : tensor Q := col [1; 2; 9; 0; 0]%Q.
Definition mask5 : tensor Q := col [1; 2; 3; 0; 0]%Q.
Definition pairs2 : tensor Q := mkT [2; 2] [0; 5; 0; 7]%Q.
Definition pair_centers : tensor Q := mkT [2; 2] [0; 5; 1; 7]%Q.
Definition pairs3 : tensor Q := mkT [3; 2] [0; 5; 0; 7; 1; 1]%Q.
Definition points_near_zero : tensor Q := col [5; 9; 1]%Q.
Definition points5 : tensor Q := col [4; 8; 16; 0; 1]%Q.
Definition mask3of5 : tensor Q := col [1; 1; 1; 0; 0]%Q.

(** The locals after the second pass of [lloyd] on [points8] with three
    clusters. *)
Definition points8_pass2 : locals :=
  mkLocals (Some (mkT [8] [0; 1; 0; 0; 1; 1; 1; 1]))
           (mkT [3; 1] [104 # 3; 89; 0]%Q)
           (Some (mkT [3; 1] [32; 183 # 2; 119 # 2]%Q)).

(** ** The module over an arbitrary arithmetic

    The rationals above idealise float32.  What [lloyd] and [choose_centers]
    do with their numbers is modelled a second time with the arithmetic left
    open: a carrier [F] and the operations the code applies to its elements.
    The definitions assume nothing of them, and the theorems only that the
    order [argmin] follows is a strict weak order, so what is proved of this
    model holds however the operations round, overflow or produce NaN. *)

Record arith (F : Type) : Type := mkArith {
  f_zero : F;                 (* 0.0 *)
  f_one : F;                  (* 1.0 *)
  f_sub : F -> F -> F;        (* a - b *)
  f_mul : F -> F -> F;        (* a * b *)
  f_sq : F -> F;              (* a ** 2 *)
  f_recip : F -> F;           (* 1. / a *)
  f_sqrt : F -> F;            (* torch.sqrt *)
  f_sum : list F -> F;        (* a reduction by +, in the order torch adds *)
  f_nonzero : F -> bool;      (* a != 0 *)
  f_lt : F -> F -> bool;      (* a < b *)
  f_before : F -> F -> bool   (* the order of argmin: a < b, or a is NaN
                                 and b is not *)
}.
Arguments f_zero {F} a.
Arguments f_one {F} a.
Arguments f_sub {F} a.
Arguments f_mul {F} a.
Arguments f_sq {F} a.
Arguments f_recip {F} a.
Arguments f_sqrt {F} a.
Arguments f_sum {F} a.
Arguments f_nonzero {F} a.
Arguments f_lt {F} a.
Arguments f_before {F} a.

Module AnyFloat.
Section Ops.
Context {F : Type} (ar : arith F).
Variable randperm : nat -> list nat.

#[local] Instance Zero_F : Zero F := f_zero ar.

(** The element at a flat offset, and the squared difference of a point and
    a center as the code computes it. *)
Definition entry (t : tensor F) (p : nat) : F := elt t p.

Definition sq_diff (x c : F) : F := f_sq ar (f_sub ar x c).

Definition nearest (X C : tensor F) (K i : nat) : nat :=
  fold_left (fun best j =>
               if f_before ar (sq_diff (entry X i) (entry C j))
                              (sq_diff (entry X i) (entry C best))
               then j else best)
            (seq 1 (K - 1)) 0.

Definition bop (f : F -> F -> F) (a b : tensor F) : result (tensor F) :=
  match broadcast_shapes (shape a) (shape b) with
  | None => Raise BroadcastError
  | Some s =>
      Ok (tabulate s (fun p =>
            let idx := unravel s p in
            f (elt a (bidx (shape a) s idx)) (elt b (bidx (shape b) s idx))))
  end.

Definition tsub : tensor F -> tensor F -> result (tensor F) := bop (f_sub ar).
Definition tmul : tensor F -> tensor F -> result (tensor F) := bop (f_mul ar).
Definition pow2 (t : tensor F) : tensor F := tmap (f_sq ar) t.

Definition argmin_step (f : nat -> F) (best j : nat) : nat :=
  if f_before ar (f j) (f best) then j else best.

Definition argmin_fn (f : nat -> F) (n : nat) : nat :=
  fold_left (argmin_step f) (seq 1 (n - 1)) 0.

Definition argmin_dim1 (t : tensor F) : result (tensor nat) :=
  match shape t with
  | n0 :: n1 :: rest =>
      if n1 =? 0 then Raise IndexError
      else
        let r := numel rest in
        Ok (tabulate (n0 :: rest) (fun p =>
              argmin_fn (fun j => elt t (((p / r) * n1 + j) * r + p mod r)) n1))
  | _ => Raise IndexError
  end.

Definition sum_dim0 (t : tensor F) : result (tensor F) :=
  match shape t with
  | n0 :: rest =>
      let r := numel rest in
      Ok (tabulate rest (fun q =>
            f_sum ar (map (fun i => elt t (i * r + q)) (seq 0 n0))))
  | [] => Raise IndexError
  end.

Definition sum_dim1 (t : tensor F) : result (tensor F) :=
  match shape t with
  | n0 :: n1 :: rest =>
      let r := numel rest in
      Ok (tabulate (n0 :: rest) (fun p =>
            f_sum ar (map (fun j => elt t (((p / r) * n1 + j) * r + p mod r))
                          (seq 0 n1))))
  | _ => Raise IndexError
  end.

Definition sum_all (t : tensor F) : tensor F := mkT [] [f_sum ar (data t)].

Definition zeros (sizes : list Z) : result (tensor F) :=
  if forallb (fun z => (0 <=? z)%Z) sizes
  then Ok (tabulate (map Z.to_nat sizes) (fun _ => f_zero ar))
  else Raise SizeError.

Definition ones (sizes : list Z) : result (tensor F) :=
  if forallb (fun z => (0 <=? z)%Z) sizes
  then Ok (tabulate (map Z.to_nat sizes) (fun _ => f_one ar))
  else Raise SizeError.

Definition zero_ (t : tensor F) : tensor F :=
  tabulate (shape t) (fun _ => f_zero ar).

Definition index_put (t : tensor F) (idx : tensor nat) (v : tensor F)
  : result (tensor F) :=
  match shape t with
  | n0 :: rest =>
      if forallb (fun i => i <? n0) (data idx)
      then
        let target := shape idx ++ rest in
        match broadcast_shapes (shape v) target with
        | Some s =>
            if list_eq_dec Nat.eq_dec s target
            then
              let r := numel rest in
              let v' := expand v target in
              Ok (tabulate (shape t) (fun p =>
                    match find (fun q => elt idx q =? p / r)
                               (seq 0 (numel (shape idx))) with
                    | Some q => elt v' (q * r + p mod r)
                    | None => elt t p
                    end))
            else Raise BroadcastError
        | None => Raise BroadcastError
        end
      else Raise IndexError
  | [] => Raise IndexError
  end.

Definition scatter1 (self : tensor F) (index : tensor nat) (v : F)
  : result (tensor F) :=
  if numel (shape index) =? 0 then Ok self
  else
    match shape self, shape index with
    | [n0; n1], [i0; i1] =>
        if (i0 <=? n0) && forallb (fun k => k <? n1) (data index)
        then
          Ok (tabulate [n0; n1] (fun p =>
                let i := p / n1 in
                let k := p mod n1 in
                if (i <? i0)
                   && existsb (fun j => elt index (i * i1 + j) =? k) (seq 0 i1)
                then v else elt self p))
        else Raise ScatterError
    | _, _ => Raise ScatterError
    end.

Definition nonzero (t : tensor F) : tensor nat :=
  let ps := filter (fun p => f_nonzero ar (elt t p)) (seq 0 (numel (shape t))) in
  mkT [length ps; ndim t] (flat_map (unravel (shape t)) ps).

Definition choose_centers (X centers : tensor F) : result (tensor nat) :=
  _ <- py_assert ((ndim X =? 2) && (ndim centers =? 2)) ;;
  let d1 := nth 1 (shape X) 0 in
  let d2 := nth 1 (shape centers) 0 in
  _ <- py_assert (d1 =? d2) ;;
  ct <- transpose10 centers ;;
  centers <- unsqueeze 0 ct ;;
  X <- unsqueeze (-1) X ;;
  diff <- tsub X centers ;;
  let distance := squeeze (pow2 diff) in
  argmin_dim1 distance.

Definition forgy_initialization (X : tensor F) (K : Z) : result (tensor F) :=
  N <- size0 X ;;
  indices <- slice0 (torch_randperm randperm N) K ;;
  index_get X indices.

Definition m_step (X one_hot centers : tensor F)
  : result (tensor nat * tensor F) :=
  choice_cluster <- choose_centers X centers ;;
  let one_hot := zero_ one_hot in
  index <- unsqueeze 1 choice_cluster ;;
  one_hot <- scatter1 one_hot index (f_one ar) ;;
  XO <- tmul X one_hot ;;
  Xp <- sum_dim0 XO ;;
  Xsum <- sum_dim0 one_hot ;;
  let idx := nonzero Xsum in
  sel <- index_get Xsum idx ;;
  Xsum <- index_put Xsum idx (tmap (f_recip ar) sel) ;;
  prod <- tmul Xp Xsum ;;
  new <- unsqueeze 1 prod ;;
  Ok (choice_cluster, new).

Definition center_shift (centers centers_old : tensor F) : result F :=
  diff <- tsub centers centers_old ;;
  sq <- sum_dim1 (pow2 diff) ;;
  Ok (item (sum_all (tmap (f_sqrt ar) sq))).

Record locals : Type := mkLocals {
  choice_cluster : option (tensor nat);
  centers : tensor F;
  centers_old : option (tensor F)
}.

Definition iteration (step : tensor F -> result (tensor nat * tensor F))
  (st : locals) : result (locals * F) :=
  let old := centers st in
  '(choice, new) <- step old ;;
  shift <- center_shift new old ;;
  Ok (mkLocals (Some choice) new (Some old), shift).

Fixpoint iterate (step : tensor F -> result (tensor nat * tensor F))
  (tol : F) (max_iter : nat) (st : locals) : result locals :=
  match max_iter with
  | O => Ok st
  | S n =>
      '(st', shift) <- iteration step st ;;
      if f_lt ar (f_sq ar shift) tol then Ok st'
      else iterate step tol n st'
  end.

Definition return_locals (st : locals) : result (tensor nat * tensor F) :=
  match choice_cluster st with
  | Some c => Ok (c, centers st)
  | None => Raise UnboundLocalError
  end.

Definition lloyd_locals (X : tensor F) (K : Z) (tol : F) (max_iter : nat)
  : result locals :=
  centers <- forgy_initialization X K ;;
  N <- size0 X ;;
  one_hot <- zeros [Z.of_nat N; K] ;;
  _ <- ones [K] ;;
  iterate (m_step X one_hot) tol max_iter (mkLocals None centers None).

Definition lloyd (X : tensor F) (K : Z) (tol : F) (max_iter : nat)
  : result (tensor nat * tensor F) :=
  st <- lloyd_locals X K tol max_iter ;;
  return_locals st.

End Ops.
End AnyFloat.

(** The order [torch.argmin] needs of its comparison: a strict weak order
    (float32 with NaN before every number is one). *)
Definition strict_weak_order {F : Type} (lt : F -> F -> bool) : Prop :=
  (forall x, lt x x = false)
  /\ (forall x y z, lt x y = true -> lt y z = true -> lt x z = true)
  /\ (forall x y z, lt x y = false -> lt y z = false -> lt x z = false).

(** The rationals as an arithmetic. *)
Definition Q_arith (sqrt : Q -> Q) : arith Q :=
  mkArith Q 0%Q 1%Q qsub qmul (fun x => qmul x x) qrecip sqrt qsum qnonzero
          qltb qltb.

(** IEEE 754 binary32, rounding to nearest even, with reductions added from
    left to right. *)
Definition f32 : Type := spec_float.
Definition f32_of (m e : Z) : f32 := binary_normalize 24 128 m e false.
Definition f32_add : f32 -> f32 -> f32 := SFadd 24 128.
Definition f32_sub : f32 -> f32 -> f32 := SFsub 24 128.
Definition f32_mul : f32 -> f32 -> f32 := SFmul 24 128.
Definition f32_div : f32 -> f32 -> f32 := SFdiv 24 128.
Definition f32_is_nan (a : f32) : bool :=
  match a with S754_nan => true | _ => false end.
Definition f32_before (a b : f32) : bool :=
  if f32_is_nan a then negb (f32_is_nan b)
  else if f32_is_nan b then false else SFltb a b.
Definition f32_arith : arith f32 :=
  mkArith f32 (f32_of 0 0) (f32_of 1 0) f32_sub f32_mul (fun x => f32_mul x x)
          (f32_div (f32_of 1 0)) (SFsqrt 24 128)
          (fun l => fold_left f32_add l (f32_of 0 0))
          (fun a => negb (SFeqb a (f32_of 0 0))) SFltb f32_before.

Definition f32_col (l : list Z) : tensor f32 :=
  mkT [length l; 1] (map (fun z => f32_of z 0) l).

(** The order of float32 values that [argmin] follows, as a key compared
    lexicographically: NaN, then the numbers from -inf to +inf. *)
Definition f32_key (a : f32) : Z * Z * Z :=
  match a with
  | S754_nan => (-3, 0, 0)
  | S754_infinity true => (-2, 0, 0)
  | S754_finite true m e => (-1, - e, - Zpos m)
  | S754_zero _ => (0, 0, 0)
  | S754_finite false m e => (1, e, Zpos m)
  | S754_infinity false => (2, 0, 0)
  end%Z.

Definition key_lt (a b : Z * Z * Z) : Prop :=
  let '(a1, a2, a3) := a in
  let '(b1, b2, b3) := b in
  (a1 < b1 \/ (a1 = b1 /\ (a2 < b2 \/ (a2 = b2 /\ a3 < b3))))%Z.

(** The locals of the rational model, read as locals of this one. *)
Definition any_locals (st : locals) : AnyFloat.locals :=
  AnyFloat.mkLocals (choice_cluster st) (centers st) (centers_old st).

(** The default [tol=1e-4] in float32, and data beyond the range of the
    squares. *)
Definition f32_tol_default : f32 := f32_div (f32_of 1 0) (f32_of 10000 0).
Definition f32_zeros2 : tensor f32 := f32_col [0; 0]%Z.
Definition f32_huge_centers : tensor f32 := mkT [2; 1] [f32_of 1 70; f32_of 1 69].
Definition f32_huge_points : tensor f32 :=
  mkT [4; 1] [f32_of 1 70; f32_of 1 69; f32_of 0 0; f32_of 0 0].

(** ** Facts about the error monad, lists and rationals *)

Lemma bind_ok {A B} (m : result A) (k : A -> result B) b :
  bind m k = Ok b -> exists a, m = Ok a /\ k a = Ok b.
Proof. destruct m as [a|e]; simpl; [eauto | discriminate]. Qed.

Lemma seq_nth0 n p d : p < n -> nth p (seq 0 n) d = p.
Proof. intros. rewrite seq_nth; auto. Qed.

Lemma skipn_nth_ext {A} (d : A) m (l1 l2 : list A) :
  length l1 = length l2 ->
  (forall p, m <= p -> nth p l1 d = nth p l2 d) -> skipn m l1 = skipn m l2.
Proof.
  intros Hl Hn. apply nth_ext with (d := d) (d' := d).
  - rewrite !length_skipn. lia.
  - intros i _. rewrite !nth_skipn. apply Hn. lia.
Qed.

Lemma skipn_seq_0 m : forall a n, skipn m (seq a n) = seq (a + m) (n - m).
Proof.
  induction m as [|m IH]; intros a n.
  - now rewrite Nat.add_0_r, Nat.sub_0_r.
  - destruct n as [|n]; [reflexivity|]. cbn [seq skipn]. rewrite IH.
    f_equal; lia.
Qed.

Lemma firstn_seq_0 m : forall a n, firstn m (seq a n) = seq a (Nat.min m n).
Proof.
  induction m as [|m IH]; intros a n; [reflexivity|].
  destruct n as [|n]; [reflexivity|]. cbn [seq firstn Nat.min]. now rewrite IH.
Qed.

Lemma qltb_lt a b : qltb a b = true <-> (a < b)%Q.
Proof.
  unfold qltb. rewrite negb_true_iff. split; intros H.
  - apply Qnot_le_lt. intros L. apply Qle_bool_iff in L. congruence.
  - destruct (Qle_bool b a) eqn:E; auto.
    apply Qle_bool_iff in E. exfalso. now apply (Qlt_not_le a b).
Qed.

Lemma qltb_ge a b : qltb a b = false <-> (b <= a)%Q.
Proof.
  unfold qltb. rewrite negb_false_iff. apply Qle_bool_iff.
Qed.

Lemma qadd_eq a b : (qadd a b == a + b)%Q.
Proof. apply Qred_correct. Qed.

Lemma qmul_eq a b : (qmul a b == a * b)%Q.
Proof. apply Qred_correct. Qed.

Lemma qrecip_eq a : (qrecip a == / a)%Q.
Proof. apply Qred_correct. Qed.

Lemma qsum_eq l : (qsum l == Qsum l)%Q.
Proof.
  induction l as [|x l IH]; [reflexivity|].
  cbn [qsum Qsum fold_right]. rewrite qadd_eq. fold (qsum l). fold (Qsum l).
  now rewrite IH.
Qed.

Lemma qsum_canon l : qsum l = Qred (qsum l).
Proof.
  destruct l as [|x l]; [reflexivity|].
  cbn [qsum fold_right]. unfold qadd. symmetry.
  apply Qred_complete, Qred_correct.
Qed.

Lemma Qeq_0_canon q : q = Qred q -> (q == 0)%Q -> q = 0%Q.
Proof. intros C E. rewrite C. now apply (Qred_complete q 0). Qed.

Lemma qsum_ext {A} (f g : A -> Q) l :
  (forall x, In x l -> f x = g x) -> qsum (map f l) = qsum (map g l).
Proof. intros E. f_equal. now apply map_ext_in. Qed.

Lemma div_lin i j K : j < K -> (i * K + j) / K = i.
Proof. intros. rewrite Nat.div_add_l by lia. rewrite Nat.div_small by lia. lia. Qed.

Lemma mod_lin i j K : j < K -> (i * K + j) mod K = j.
Proof.
  intros. rewrite Nat.add_comm, Nat.Div0.mod_add. now apply Nat.mod_small.
Qed.

Lemma div_lt_mul p N K : p < N * K -> p / K < N.
Proof. intros. apply Nat.Div0.div_lt_upper_bound. lia. Qed.

Lemma mod_lt_mul p N K : p < N * K -> p mod K < K.
Proof. intros. apply Nat.mod_upper_bound. destruct K; lia. Qed.

(** ** Facts about the tensor operations *)

Lemma numel_1 n : numel [n] = n.
Proof. unfold numel; simpl; lia. Qed.

Lemma numel_2 n k : numel [n; k] = n * k.
Proof. unfold numel; simpl; lia. Qed.

Lemma numel_3 n d k : numel [n; d; k] = n * (d * k).
Proof. unfold numel; simpl; lia. Qed.

Lemma numel_squeeze s : numel (filter (fun n => negb (n =? 1)) s) = numel s.
Proof.
  induction s as [|n s IH]; [reflexivity|]. cbn [filter].
  destruct (Nat.eqb_spec n 1) as [->|]; cbn [negb numel fold_right];
    fold (numel s); fold (numel (filter (fun n => negb (n =? 1)) s));
    rewrite ?IH; lia.
Qed.

Lemma unravel_1 n p : unravel [n] p = [p].
Proof. unfold unravel. cbn [numel fold_right]. now rewrite Nat.div_1_r. Qed.

Lemma unravel_2 n K i k : k < K -> unravel [n; K] (i * K + k) = [i; k].
Proof.
  intros Hk. unfold unravel. rewrite numel_1. cbn [numel fold_right].
  now rewrite div_lin, mod_lin, Nat.div_1_r by lia.
Qed.

Lemma unravel_3 n K i k : k < K -> unravel [n; 1; K] (i * K + k) = [i; 0; k].
Proof.
  intros Hk. unfold unravel. rewrite numel_2, numel_1. cbn [numel fold_right].
  rewrite Nat.mul_1_l.
  rewrite div_lin, mod_lin, Nat.div_1_r by lia.
  now rewrite Nat.div_small, Nat.mod_small by lia.
Qed.

Lemma unravel_3g n d K i j q : j < d -> q < K ->
  unravel [n; d; K] ((i * d + j) * K + q) = [i; j; q].
Proof.
  intros Hj Hq. unfold unravel. rewrite numel_2, numel_1. cbn [numel fold_right].
  replace ((i * d + j) * K + q) with (i * (d * K) + (j * K + q)) by nia.
  rewrite div_lin, mod_lin by nia.
  rewrite div_lin, mod_lin, Nat.div_1_r by lia. reflexivity.
Qed.

Lemma flat_map_unravel_1 K ps : flat_map (unravel [K]) ps = ps.
Proof.
  induction ps as [|p ps IH]; [reflexivity|].
  cbn [flat_map]. now rewrite unravel_1, IH.
Qed.

Lemma elt_tabulate {A} `{Zero A} s (f : nat -> A) p :
  p < numel s -> elt (tabulate s f) p = f p.
Proof.
  intros Hp. unfold elt, tabulate; simpl.
  rewrite nth_indep with (d' := f 0) by (now rewrite length_map, length_seq).
  rewrite map_nth. now rewrite seq_nth0.
Qed.

Lemma tabulate_ext {A} s (f g : nat -> A) :
  (forall p, p < numel s -> f p = g p) -> tabulate s f = tabulate s g.
Proof.
  intros E. unfold tabulate. f_equal. apply map_ext_in.
  intros p Hp. apply in_seq in Hp. apply E. lia.
Qed.

Lemma wf_tabulate {A} s (f : nat -> A) : wf (tabulate s f).
Proof. unfold wf, tabulate; simpl. now rewrite length_map, length_seq. Qed.

Lemma elt_beyond {A} `{Zero A} (t : tensor A) p :
  wf t -> numel (shape t) <= p -> elt t p = zero.
Proof. intros W Hp. unfold elt. apply nth_overflow. red in W. lia. Qed.

Lemma elt_data {A} `{Zero A} (t : tensor A) s p : elt (mkT s (data t)) p = elt t p.
Proof. reflexivity. Qed.

Lemma elt_squeeze {A} `{Zero A} (t : tensor A) p : elt (squeeze t) p = elt t p.
Proof. reflexivity. Qed.

Lemma elt_pow2 (t : tensor Q) p : elt (pow2 t) p = qmul (elt t p) (elt t p).
Proof.
  unfold elt, pow2, tmap; simpl.
  exact (map_nth (fun x => qmul x x) (data t) 0%Q p).
Qed.

Lemma elt_tmap_qrecip (t : tensor Q) p : elt (tmap qrecip t) p = qrecip (elt t p).
Proof. exact (map_nth qrecip (data t) 0%Q p). Qed.


Lemma elt_squeeze_last {A} `{Zero A} (t : tensor A) p :
  elt (squeeze_last t) p = elt t p.
Proof.
  unfold squeeze_last. destruct (rev (shape t)) as [|[|[|n]] s']; reflexivity.
Qed.

Lemma row_tabulate {A} n0 rest (f : nat -> A) k : k < n0 ->
  row (tabulate (n0 :: rest) f) k = map f (seq (k * numel rest) (numel rest)).
Proof.
  intros Hk. unfold row, row_size. cbn [tabulate shape data tl].
  rewrite skipn_map, firstn_map, skipn_seq_0, firstn_seq_0. f_equal.
  cbn [numel fold_right]. fold (numel rest). f_equal. nia.
Qed.

Lemma row_column K (f : nat -> Q) k : k < K ->
  row (mkT [K; 1] (data (tabulate [K] f))) k = [f k].
Proof.
  intros Hk. unfold row, row_size. cbn [shape tl data tabulate].
  rewrite !numel_1, Nat.mul_1_r.
  rewrite skipn_map, firstn_map, skipn_seq_0, firstn_seq_0.
  replace (Nat.min 1 (K - k)) with 1 by lia. reflexivity.
Qed.

Lemma unsqueeze_0 {A} (t : tensor A) :
  unsqueeze 0 t = Ok (mkT (1 :: shape t) (data t)).
Proof.
  unfold unsqueeze. cbn [Z.ltb Z.compare].
  destruct (Z.leb_spec 0 (Z.of_nat (ndim t))); [reflexivity | lia].
Qed.

Lemma unsqueeze_1 {A} (t : tensor A) n rest : shape t = n :: rest ->
  unsqueeze 1 t = Ok (mkT (n :: 1 :: rest) (data t)).
Proof.
  intros Hs. unfold unsqueeze, ndim. rewrite Hs. cbn [Z.ltb Z.compare length].
  destruct (Z.leb_spec 1 (Z.of_nat (S (length rest)))); [reflexivity | lia].
Qed.

Lemma unsqueeze_m1 {A} (t : tensor A) :
  unsqueeze (-1) t = Ok (mkT (shape t ++ [1]) (data t)).
Proof.
  unfold unsqueeze, ndim. cbn [Z.ltb Z.compare].
  replace (-1 + Z.of_nat (length (shape t)) + 1)%Z
    with (Z.of_nat (length (shape t))) by lia.
  rewrite Nat2Z.id, Z.leb_refl.
  destruct (Z.leb_spec 0 (Z.of_nat (length (shape t)))); [|lia].
  cbn [andb]. now rewrite firstn_all, skipn_all.
Qed.

Lemma bshape_same s : broadcast_shapes s s = Some s.
Proof.
  unfold broadcast_shapes.
  assert (G : forall l, bshape_rev l l = Some l).
  { induction l as [|x l IH]; [reflexivity|]. simpl. now rewrite IH, Nat.eqb_refl. }
  rewrite G. simpl. now rewrite rev_involutive.
Qed.

Lemma bshape_col_row N K : broadcast_shapes [N; 1; 1] [1; 1; K] = Some [N; 1; K].
Proof.
  unfold broadcast_shapes. simpl.
  destruct K as [|[|K]], N as [|[|N]]; reflexivity.
Qed.

Lemma bshape_col_mat N K : broadcast_shapes [N; 1] [N; K] = Some [N; K].
Proof.
  unfold broadcast_shapes. simpl. rewrite Nat.eqb_refl.
  destruct K as [|[|K]]; reflexivity.
Qed.

Lemma bshape_features N d K : 2 <= d ->
  broadcast_shapes [N; d; 1] [1; d; K] = Some [N; d; K].
Proof.
  intros Hd. unfold broadcast_shapes.
  destruct K as [|[|K]], N as [|[|N]]; cbn; rewrite Nat.eqb_refl; reflexivity.
Qed.

Lemma bshape_rows_mismatch a b : a <> b -> a <> 1 -> b <> 1 ->
  broadcast_shapes [a; 1] [b; 1] = None.
Proof.
  intros H1 H2 H3. unfold broadcast_shapes. cbn.
  destruct (Nat.eqb_spec a b); [contradiction|].
  destruct (Nat.eqb_spec a 1); [contradiction|].
  destruct (Nat.eqb_spec b 1); [contradiction|]. reflexivity.
Qed.

Lemma bidx_col N K i k : i < N -> bidx [N; 1; 1] [N; 1; K] [i; 0; k] = i.
Proof.
  intros Hi. unfold bidx. cbn [length Nat.sub skipn clamp ravel Nat.eqb numel fold_right].
  destruct (Nat.eqb_spec N 1); lia.
Qed.

Lemma bidx_row N K i k : k < K -> bidx [1; 1; K] [N; 1; K] [i; 0; k] = k.
Proof.
  intros Hi. unfold bidx. cbn [length Nat.sub skipn clamp ravel Nat.eqb numel fold_right].
  destruct (Nat.eqb_spec K 1); lia.
Qed.

Lemma bidx_same_1 K p : p < K -> bidx [K] [K] [p] = p.
Proof.
  intros Hp. unfold bidx. cbn [length Nat.sub skipn clamp ravel numel fold_right].
  destruct (Nat.eqb_spec K 1); lia.
Qed.

Lemma bidx_same_2 N K i k : i < N -> k < K -> bidx [N; K] [N; K] [i; k] = i * K + k.
Proof.
  intros Hi Hk. unfold bidx. cbn [length Nat.sub skipn clamp ravel numel fold_right].
  destruct (Nat.eqb_spec K 1), (Nat.eqb_spec N 1); nia.
Qed.

Lemma bidx_col_2 N K i k : i < N -> bidx [N; 1] [N; K] [i; k] = i.
Proof.
  intros Hi. unfold bidx. cbn [length Nat.sub skipn clamp ravel numel fold_right Nat.eqb].
  destruct (Nat.eqb_spec N 1); nia.
Qed.

Lemma bidx_features_X N d K i j q : N <> 1 -> d <> 1 ->
  bidx [N; d; 1] [N; d; K] [i; j; q] = i * d + j.
Proof.
  intros HN Hd. unfold bidx.
  cbn [length Nat.sub skipn clamp ravel Nat.eqb numel fold_right].
  destruct (Nat.eqb_spec N 1), (Nat.eqb_spec d 1); try contradiction. nia.
Qed.

Lemma bidx_features_C N d K i j q : d <> 1 -> K <> 1 ->
  bidx [1; d; K] [N; d; K] [i; j; q] = j * K + q.
Proof.
  intros Hd HK. unfold bidx.
  cbn [length Nat.sub skipn clamp ravel Nat.eqb numel fold_right].
  destruct (Nat.eqb_spec K 1), (Nat.eqb_spec d 1); try contradiction. nia.
Qed.

Lemma argmin_fold (f : nat -> Q) : forall cnt a b,
  b < a ->
  (forall j, j < a -> (f b <= f j)%Q) ->
  (forall j, j < b -> (f b < f j)%Q) ->
  let r := fold_left (argmin_step f) (seq a cnt) b in
  r < a + cnt /\ (forall j, j < a + cnt -> (f r <= f j)%Q)
  /\ (forall j, j < r -> (f r < f j)%Q).
Proof.
  induction cnt as [|cnt IH]; intros a b Hb Hle Hlt; simpl.
  - rewrite Nat.add_0_r. auto.
  - remember (argmin_step f b a) as b' eqn:Hb'. unfold argmin_step in Hb'.
    destruct (qltb (f a) (f b)) eqn:E; subst b'.
    + apply qltb_lt in E.
      destruct (IH (S a) a) as (R1 & R2 & R3); try lia.
      * intros j Hj. destruct (Nat.eq_dec j a) as [->|]; [apply Qle_refl|].
        apply Qle_trans with (f b); [now apply Qlt_le_weak | apply Hle; lia].
      * intros j Hj. apply Qlt_le_trans with (f b); [easy | apply Hle; lia].
      * repeat split; [lia | intros; apply R2; lia | exact R3].
    + apply qltb_ge in E.
      destruct (IH (S a) b) as (R1 & R2 & R3); try lia.
      * intros j Hj. destruct (Nat.eq_dec j a) as [->|]; [exact E | apply Hle; lia].
      * exact Hlt.
      * repeat split; [lia | intros; apply R2; lia | exact R3].
Qed.

Lemma argmin_fn_spec (f : nat -> Q) n : 0 < n ->
  argmin_fn f n < n
  /\ (forall j, j < n -> (f (argmin_fn f n) <= f j)%Q)
  /\ (forall j, j < argmin_fn f n -> (f (argmin_fn f n) < f j)%Q).
Proof.
  intros Hn. unfold argmin_fn.
  destruct (argmin_fold f (n - 1) 1 0) as (R1 & R2 & R3); try lia.
  - intros j Hj. replace j with 0 by lia. apply Qle_refl.
  - replace (1 + (n - 1)) with n in * by lia. auto.
Qed.

Lemma argmin_fn_ext (f g : nat -> Q) n :
  (forall j, j < n -> f j = g j) -> argmin_fn f n = argmin_fn g n.
Proof.
  intros E. unfold argmin_fn.
  destruct n as [|n]; [reflexivity|]. simpl. rewrite Nat.sub_0_r.
  assert (G : forall cnt a b, b < a -> a + cnt <= S n ->
            fold_left (argmin_step f) (seq a cnt) b
            = fold_left (argmin_step g) (seq a cnt) b).
  { induction cnt as [|cnt IH]; intros a b Hb Hl; cbn [seq fold_left];
      [reflexivity|].
    assert (Es : argmin_step f b a = argmin_step g b a)
      by (unfold argmin_step; now rewrite (E a), (E b) by lia).
    rewrite Es. apply IH; [|lia].
    unfold argmin_step. destruct (qltb (g a) (g b)); lia. }
  apply G; lia.
Qed.

Lemma nearest_lt X C K i : 0 < K -> nearest X C K i < K.
Proof. intros H. apply (argmin_fn_spec _ K H). Qed.

Lemma slice_stop_bound n stop : slice_stop n stop <= n.
Proof. unfold slice_stop. destruct (Z.ltb_spec stop 0); lia. Qed.

Lemma slice_stop_le n K : (0 <= K)%Z -> slice_stop n K <= Z.to_nat K.
Proof.
  intros HK. unfold slice_stop. destruct (Z.ltb_spec K 0); lia.
Qed.

Lemma zeros_ok sizes t : zeros sizes = Ok t -> shape t = map Z.to_nat sizes.
Proof.
  unfold zeros. destruct (forallb _ sizes); [|discriminate].
  now intros H; injection H as <-.
Qed.

Lemma size0_ok {A} (t : tensor A) n : size0 t = Ok n -> exists rest, shape t = n :: rest.
Proof.
  unfold size0. destruct (shape t); [discriminate|].
  intros H; injection H as <-. eauto.
Qed.

Lemma index_get_ok {A} `{Zero A} (t : tensor A) idx r :
  index_get t idx = Ok r ->
  exists n0 rest, shape t = n0 :: rest
    /\ forallb (fun i => i <? n0) (data idx) = true
    /\ r = tabulate (shape idx ++ rest) (fun p =>
             elt t (elt idx (p / numel rest) * numel rest + p mod numel rest)).
Proof.
  unfold index_get. destruct (shape t) as [|n0 rest]; [discriminate|].
  destruct (forallb _ _) eqn:F; [|discriminate].
  intros E; injection E as <-. exists n0, rest. auto.
Qed.

Lemma forallb_filter_seq (f : nat -> bool) K :
  forallb (fun i => i <? K) (filter f (seq 0 K)) = true.
Proof.
  apply forallb_forall. intros x Hx. apply filter_In in Hx as [Hx _].
  apply in_seq in Hx. apply Nat.ltb_lt. lia.
Qed.

Lemma forallb_tabulate_1 (f : nat -> nat) (P : nat -> bool) m :
  (forall p, p < m -> P (f p) = true) ->
  forallb P (data (tabulate [m] f)) = true.
Proof.
  intros H. apply forallb_forall. intros x Hx. cbn [tabulate data] in Hx.
  apply in_map_iff in Hx as (p & <- & Hp). apply in_seq in Hp.
  rewrite numel_1 in Hp. apply H. lia.
Qed.

Lemma nonzero_1d (t : tensor Q) K : shape t = [K] ->
  nonzero t = mkT [length (filter (fun p => qnonzero (elt t p)) (seq 0 K)); 1]
                  (filter (fun p => qnonzero (elt t p)) (seq 0 K)).
Proof.
  intros Ht. unfold nonzero, ndim. rewrite Ht, numel_1, flat_map_unravel_1.
  reflexivity.
Qed.

Lemma nonzero_view_flat Xp :
  nonzero (view_flat Xp) = mkT [count_nonzero Xp; 1] (nonzero_positions Xp).
Proof. exact (nonzero_1d (view_flat Xp) _ eq_refl). Qed.

Lemma nonzero_squeeze Xp :
  nonzero (squeeze Xp)
  = mkT [count_nonzero Xp; ndim (squeeze Xp)]
        (flat_map (unravel (shape (squeeze Xp))) (nonzero_positions Xp)).
Proof.
  unfold nonzero, count_nonzero, nonzero_positions.
  cbn [squeeze shape]. rewrite numel_squeeze. reflexivity.
Qed.

Lemma nonzero_positions_lt Xp q :
  q < count_nonzero Xp -> nth q (nonzero_positions Xp) 0 < numel (shape Xp).
Proof.
  intros Hq.
  assert (I : In (nth q (nonzero_positions Xp) 0) (nonzero_positions Xp))
    by (now apply nth_In).
  apply filter_In in I as [I _]. apply in_seq in I. lia.
Qed.

Lemma count_nonzero_le Xp : count_nonzero Xp <= numel (shape Xp).
Proof.
  unfold count_nonzero, nonzero_positions.
  etransitivity; [apply filter_length_le|]. now rewrite length_seq.
Qed.

Lemma slice0_assign_keeps (t v t' : tensor Q) stop n0 rest :
  shape t = n0 :: rest ->
  slice0_assign t stop v = Ok t' ->
  t' = tabulate (shape t) (fun p => elt t' p)
  /\ shape t' = shape t
  /\ forall p, slice_stop n0 stop * numel rest <= p -> p < numel (shape t) ->
       elt t' p = elt t p.
Proof.
  intros Hs H. unfold slice0_assign in H. rewrite Hs in H.
  destruct (broadcast_shapes _ _) as [s|]; [|discriminate].
  destruct (list_eq_dec _ _ _); [|discriminate].
  injection H as <-. rewrite Hs. repeat split.
  - apply tabulate_ext. intros p Hp.
    now rewrite elt_tabulate.
  - intros p Hp Hlt. rewrite elt_tabulate by assumption.
    cbn [numel fold_right]. fold (numel rest).
    destruct (Nat.ltb_spec p (slice_stop n0 stop * numel rest)); [lia | reflexivity].
Qed.

Lemma cat_zero_row (rows c0 : tensor Q) :
  cat rows (tabulate [1; 1] (fun _ => 0%Q)) = Ok c0 ->
  wf c0 /\ exists m, shape c0 = [S m; 1] /\ row c0 m = [0%Q].
Proof.
  intros H. unfold cat in H. cbn [shape tabulate] in H.
  destruct (shape rows) as [|a0 ra] eqn:Er; [discriminate|].
  assert (Z1 : wf (tabulate [1; 1] (fun _ : nat => 0%Q))
               /\ exists m, shape (tabulate [1; 1] (fun _ : nat => 0%Q)) = [S m; 1]
                    /\ row (tabulate [1; 1] (fun _ : nat => 0%Q)) m = [0%Q]).
  { split; [apply wf_tabulate|]. exists 0. split; reflexivity. }
  destruct a0 as [|a0].
  - destruct ra as [|r1 ra].
    + injection H as <-. exact Z1.
    + destruct (list_eq_dec Nat.eq_dec (r1 :: ra) [1]) as [E|]; [|discriminate].
      injection E as -> ->. injection H as <-. exact Z1.
  - destruct (list_eq_dec Nat.eq_dec ra [1]) as [E|]; [|discriminate]. subst ra.
    injection H as <-. split; [apply wf_tabulate|].
    exists (S a0). split; [cbn [shape tabulate]; f_equal; lia|].
    replace (S a0 + 1) with (S (S a0)) by lia.
    rewrite row_tabulate by lia. rewrite !numel_1, !Nat.mul_1_r. cbn [seq map].
    rewrite Nat.ltb_irrefl, Nat.sub_diag. reflexivity.
Qed.

(** ** The assignment step *)

Lemma choose_centers_col (X C : tensor Q) N K :
  shape X = [N; 1] -> shape C = [K; 1] ->
  choose_centers X C =
    if (N =? 1) || (K <? 2) then Raise IndexError
    else Ok (tabulate [N] (nearest X C K)).
Proof.
  intros HX HC. unfold choose_centers, ndim. rewrite HX, HC.
  cbn [length Nat.eqb andb py_assert bind nth].
  unfold transpose10. rewrite HC. cbn [bind].
  rewrite unsqueeze_0, unsqueeze_m1. cbn [bind]. rewrite HX.
  unfold tsub, bop. cbn [shape app tabulate]. rewrite bshape_col_row. cbn [bind].
  unfold argmin_dim1, squeeze at 1. cbn [shape pow2 tmap tabulate filter].
  change (negb (1 =? 1)) with false. cbn iota.
  destruct (Nat.eqb_spec N 1) as [E1|E1].
  - cbn [negb orb]. destruct (negb (K =? 1)); reflexivity.
  - cbn [negb orb]. destruct (Nat.ltb_spec K 2) as [E2|E2].
    + destruct K as [|[|K]]; [reflexivity | reflexivity | lia].
    + destruct (Nat.eqb_spec K 1) as [E3|E3]; [lia|]. cbn [negb].
      destruct (Nat.eqb_spec K 0) as [E4|E4]; [lia|].
      f_equal. apply tabulate_ext. intros i Hi. rewrite numel_1 in Hi.
      unfold nearest. apply argmin_fn_ext. intros k Hk.
      cbn [numel fold_right]. rewrite Nat.div_1_r, Nat.mod_1_r, Nat.mul_1_r, Nat.add_0_r.
      rewrite elt_squeeze, elt_pow2.
      rewrite elt_tabulate by (rewrite numel_3; nia).
      rewrite Nat.mul_1_r, (unravel_3 N K i k Hk).
      rewrite bidx_col, bidx_row, !elt_data by assumption.
      rewrite elt_tabulate by (rewrite numel_2; lia).
      rewrite Nat.div_1_r, Nat.mod_1_r, !Nat.mul_1_r, Nat.add_0_r.
      rewrite Nat.mod_small, Nat.div_small, Nat.add_0_r by lia.
      reflexivity.
Qed.

Lemma choose_centers_ok_shape (X C : tensor Q) N a :
  shape X = [N; 1] -> choose_centers X C = Ok a -> exists K', shape C = [K'; 1].
Proof.
  intros HX H. unfold choose_centers, ndim in H. rewrite HX in H.
  destruct (shape C) as [|k [|d [|e r]]];
    cbn [length Nat.eqb andb py_assert bind nth] in H; try discriminate.
  destruct d as [|[|d]]; cbn [Nat.eqb py_assert bind] in H; try discriminate.
  eauto.
Qed.


Lemma choose_centers_features (X C : tensor Q) N d K' :
  shape X = [N; d] -> shape C = [K'; d] -> 2 <= N -> 2 <= d -> 2 <= K' ->
  choose_centers X C = Ok (feature_argmin X C N d K').
Proof.
  intros HX HC HN Hd HK. unfold choose_centers, ndim. rewrite HX, HC.
  cbn [length Nat.eqb andb py_assert bind nth]. rewrite Nat.eqb_refl.
  cbn [py_assert bind].
  unfold transpose10. rewrite HC. cbn [bind].
  rewrite unsqueeze_0, unsqueeze_m1. cbn [bind]. rewrite HX.
  unfold tsub, bop. cbn [shape app tabulate]. rewrite bshape_features by lia.
  cbn [bind].
  unfold argmin_dim1, squeeze at 1. cbn [shape pow2 tmap tabulate filter].
  destruct (Nat.eqb_spec N 1); [lia|]. destruct (Nat.eqb_spec d 1); [lia|].
  destruct (Nat.eqb_spec K' 1); [lia|]. cbn [negb].
  destruct (Nat.eqb_spec d 0); [lia|].
  unfold feature_argmin. f_equal. apply tabulate_ext. intros p Hp.
  rewrite numel_2 in Hp. apply argmin_fn_ext. intros j Hj.
  rewrite numel_1.
  pose proof (div_lt_mul _ _ _ Hp) as Hi.
  pose proof (mod_lt_mul _ _ _ Hp) as Hq.
  rewrite elt_squeeze, elt_pow2.
  rewrite elt_tabulate by (rewrite numel_3; nia).
  rewrite unravel_3g, bidx_features_X, bidx_features_C, !elt_data by assumption.
  rewrite elt_tabulate by (rewrite numel_2; nia).
  cbn [numel fold_right]. rewrite !Nat.mul_1_r, Nat.div_1_r, Nat.mod_1_r, Nat.add_0_r.
  rewrite div_lin, mod_lin by lia. reflexivity.
Qed.

(** ** The update step on one-feature data *)

Lemma scatter1_col (oh : tensor Q) (a : tensor nat) N K :
  shape oh = [N; K] -> shape a = [N] -> wf a ->
  scatter1 (zero_ oh) (mkT [N; 1] (data a)) 1 =
    if forallb (fun k => k <? K) (data a) then Ok (one_hot_of a N K)
    else Raise ScatterError.
Proof.
  intros Ho Ha Wa. unfold scatter1. cbn [shape zero_ tabulate].
  rewrite Ho, numel_2, Nat.mul_1_r.
  destruct (Nat.eqb_spec N 0) as [E|E].
  - subst N. red in Wa. rewrite Ha in Wa. cbn in Wa.
    destruct (data a); [|discriminate]. cbn [forallb].
    unfold zero_, one_hot_of, tabulate. rewrite Ho. reflexivity.
  - rewrite Nat.leb_refl. cbn [andb data].
    destruct (forallb (fun k => k <? K) (data a)); [|reflexivity].
    f_equal. apply tabulate_ext. intros p Hp. rewrite numel_2 in Hp.
    pose proof (div_lt_mul _ _ _ Hp) as Hi.
    destruct (Nat.ltb_spec (p / K) N); [|lia]. cbn [andb seq existsb].
    rewrite Nat.mul_1_r, Nat.add_0_r, orb_false_r.
    change (elt {| shape := [N; 1]; data := data a |} (p / K)) with (elt a (p / K)).
    destruct (elt a (p / K) =? p mod K); [reflexivity|].
    unfold zero_. rewrite elt_tabulate; [reflexivity|]. now rewrite Ho, numel_2.
Qed.

Lemma sum_dim0_one_hot a N K :
  sum_dim0 (one_hot_of a N K) = Ok (tabulate [K] (count_in a N)).
Proof.
  unfold sum_dim0, one_hot_of. cbn [shape tabulate]. f_equal.
  apply tabulate_ext. intros k Hk. rewrite numel_1 in *.
  unfold count_in. apply qsum_ext. intros i Hi. apply in_seq in Hi.
  rewrite elt_tabulate by (rewrite numel_2; nia).
  now rewrite div_lin, mod_lin.
Qed.

Lemma tmul_col_one_hot X a N K : shape X = [N; 1] ->
  exists XO, tmul X (one_hot_of a N K) = Ok XO
    /\ sum_dim0 XO = Ok (tabulate [K] (sum_in X a N)).
Proof.
  intros HX. unfold tmul, bop. rewrite HX. cbn [shape one_hot_of tabulate].
  rewrite bshape_col_mat. eexists; split; [reflexivity|].
  unfold sum_dim0. cbn [shape tabulate]. f_equal.
  apply tabulate_ext. intros k Hk. rewrite numel_1 in *.
  unfold sum_in. apply qsum_ext. intros i Hi. apply in_seq in Hi.
  rewrite elt_tabulate by (rewrite numel_2; nia).
  rewrite unravel_2, bidx_col_2, bidx_same_2 by lia.
  fold (one_hot_of a N K). unfold one_hot_of.
  rewrite elt_tabulate by (rewrite numel_2; nia).
  now rewrite div_lin, mod_lin.
Qed.

Lemma reciprocal_nonzero (t : tensor Q) K : shape t = [K] ->
  exists sel, index_get t (nonzero t) = Ok sel
    /\ index_put t (nonzero t) (tmap qrecip sel)
       = Ok (tabulate [K] (fun k => recip_guard (elt t k))).
Proof.
  intros Ht. rewrite (nonzero_1d t K Ht).
  set (ps := filter (fun p => qnonzero (elt t p)) (seq 0 K)).
  unfold index_get, index_put. rewrite Ht. cbn [shape data app].
  assert (Hps : forallb (fun i => i <? K) ps = true) by apply forallb_filter_seq.
  rewrite Hps. eexists; split; [reflexivity|].
  cbn [tmap shape tabulate]. rewrite bshape_same.
  destruct (list_eq_dec Nat.eq_dec [length ps; 1] [length ps; 1]) as [_|n]; [|congruence].
  f_equal. apply tabulate_ext. intros p Hp. rewrite numel_1 in Hp.
  cbn [numel fold_right]. rewrite !Nat.mul_1_r, Nat.div_1_r, Nat.mod_1_r.
  unfold recip_guard.
  destruct (find (fun q => _ =? p) (seq 0 (length ps))) as [q|] eqn:F.
  - apply find_some in F as [Hq F]. apply in_seq in Hq. apply Nat.eqb_eq in F.
    unfold elt at 1 in F. cbn [data] in F.
    assert (Hin : In p ps) by (rewrite <- F; apply nth_In; lia).
    apply filter_In in Hin as [_ Hnz]. rewrite Hnz.
    unfold expand. rewrite Nat.add_0_r, elt_tabulate by (rewrite numel_2; lia).
    cbn [shape tmap tabulate].
    replace (q * 1) with (q * 1 + 0) by lia.
    rewrite unravel_2, bidx_same_2 by lia.
    rewrite Nat.mul_1_r, Nat.add_0_r.
    rewrite elt_tmap_qrecip. f_equal.
    rewrite elt_tabulate by (rewrite numel_2; lia).
    rewrite Nat.div_1_r, Nat.mod_1_r, Nat.mul_1_r, Nat.add_0_r.
    unfold elt at 2. cbn [data]. now rewrite F.
  - destruct (qnonzero (elt t p)) eqn:Hnz; [exfalso | reflexivity].
    assert (Hin : In p ps) by (apply filter_In; split; [apply in_seq; lia | exact Hnz]).
    destruct (In_nth _ _ 0 Hin) as (q & Hq & Hqp).
    assert (Hf := find_none _ _ F q).
    rewrite Nat.eqb_neq in Hf. apply Hf; [apply in_seq; lia | exact Hqp].
Qed.

Lemma m_step_col (X oh C : tensor Q) N K K' :
  shape X = [N; 1] -> shape oh = [N; K] -> shape C = [K'; 1] ->
  m_step X oh C =
    if (N =? 1) || (K' <? 2) then Raise IndexError
    else
      let a := tabulate [N] (nearest X C K') in
      if forallb (fun k => k <? K) (data a)
      then Ok (a, mkT [K; 1] (data (tabulate [K] (new_center X a N))))
      else Raise ScatterError.
Proof.
  intros HX Ho HC. unfold m_step. rewrite (choose_centers_col X C N K' HX HC).
  destruct ((N =? 1) || (K' <? 2)); [reflexivity|]. cbn [bind].
  set (a := tabulate [N] (nearest X C K')).
  rewrite (unsqueeze_1 a N [] eq_refl). cbn [bind].
  rewrite (scatter1_col oh a N K Ho eq_refl (wf_tabulate _ _)).
  cbv zeta.
  destruct (forallb (fun k => k <? K) (data a)); [|reflexivity]. cbn [bind].
  destruct (tmul_col_one_hot X a N K HX) as (XO & E1 & E2).
  rewrite E1. cbn [bind]. rewrite E2. cbn [bind].
  rewrite sum_dim0_one_hot. cbn [bind].
  destruct (reciprocal_nonzero (tabulate [K] (count_in a N)) K eq_refl)
    as (sel & E3 & E4).
  rewrite E3. cbn [bind]. rewrite E4. cbn [bind].
  unfold tmul, bop. cbn [shape tabulate]. rewrite bshape_same. cbn [bind].
  match goal with |- context [unsqueeze 1 ?t] =>
    rewrite (unsqueeze_1 t K [] eq_refl) end.
  cbn [bind data]. do 3 f_equal.
  apply map_ext_in. intros k Hk. apply in_seq in Hk. rewrite numel_1 in Hk.
  rewrite unravel_1, bidx_same_1 by lia.
  unfold new_center. f_equal.
  - change (elt (tabulate [K] (sum_in X a N)) k = sum_in X a N k).
    apply elt_tabulate. rewrite numel_1; lia.
  - change (elt (tabulate [K]
                   (fun k => recip_guard (elt (tabulate [K] (count_in a N)) k))) k
            = recip_guard (count_in a N k)).
    rewrite !elt_tabulate by (rewrite numel_1; lia). reflexivity.
Qed.

Lemma m_step_col_inv (X oh C : tensor Q) N K a C' :
  shape X = [N; 1] -> shape oh = [N; K] -> m_step X oh C = Ok (a, C') ->
  exists K', shape C = [K'; 1] /\ N <> 1 /\ 2 <= K'
    /\ a = tabulate [N] (nearest X C K')
    /\ (forall i, i < N -> elt a i < K)
    /\ C' = mkT [K; 1] (data (tabulate [K] (new_center X a N))).
Proof.
  intros HX Ho H.
  assert (HC : exists K', shape C = [K'; 1]).
  { unfold m_step in H. apply bind_ok in H as (a0 & H0 & _).
    eapply choose_centers_ok_shape; eauto. }
  destruct HC as (K' & HC). exists K'. split; [exact HC|].
  rewrite (m_step_col X oh C N K K' HX Ho HC) in H.
  destruct (Nat.eqb_spec N 1) as [E1|E1]; [discriminate|].
  destruct (Nat.ltb_spec K' 2) as [E2|E2]; [discriminate|].
  cbn [orb] in H. cbv zeta in H.
  destruct (forallb _ _) eqn:F in H; [|discriminate].
  injection H as <- <-. repeat split; auto.
  intros i Hi. rewrite forallb_forall in F.
  apply Nat.ltb_lt, F. unfold elt. apply nth_In.
  cbn [data tabulate]. rewrite length_map, length_seq, numel_1. exact Hi.
Qed.

Lemma count_in_eq a N k :
  (count_in a N k == inject_Z (Z.of_nat (length (members a N k))))%Q.
Proof.
  unfold count_in, members. rewrite qsum_eq.
  induction (seq 0 N) as [|i l IH]; [reflexivity|].
  cbn [map Qsum fold_right filter].
  fold (Qsum (map (fun i => if elt a i =? k then 1%Q else 0%Q) l)).
  rewrite IH. destruct (elt a i =? k).
  - cbn [length]. rewrite Nat2Z.inj_succ, <- Z.add_1_l, inject_Z_plus. reflexivity.
  - apply Qplus_0_l.
Qed.

Lemma new_center_empty X a N k : members a N k = [] -> new_center X a N k = 0%Q.
Proof.
  intros E. unfold new_center.
  assert (C0 : count_in a N k = 0%Q).
  { apply Qeq_0_canon; [apply qsum_canon|]. rewrite count_in_eq, E. reflexivity. }
  rewrite C0. change (recip_guard 0) with 0%Q. unfold qmul.
  change 0%Q with (Qred 0) at 2. apply Qred_complete, Qmult_0_r.
Qed.

Lemma m_step_empty_cluster (X oh C : tensor Q) N K a C' k :
  shape X = [N; 1] -> shape oh = [N; K] ->
  m_step X oh C = Ok (a, C') ->
  k < K -> members a N k = [] ->
  row C' k = [0%Q].
Proof.
  intros HX Ho H Hk E.
  destruct (m_step_col_inv X oh C N K a C' HX Ho H)
    as (K' & _ & _ & _ & _ & _ & ->).
  rewrite row_column by exact Hk. f_equal. now apply new_center_empty.
Qed.

(** ** The loops *)

Section Loop.
Variable sqrt : Q -> Q.
Variable randperm : nat -> list nat.

Lemma iteration_ok step st st' sh :
  iteration sqrt step st = Ok (st', sh) ->
  exists a c, step (centers st) = Ok (a, c)
    /\ st' = mkLocals (Some a) c (Some (centers st)).
Proof.
  unfold iteration. intros H.
  apply bind_ok in H as ([a c] & Hs & H).
  apply bind_ok in H as (s & _ & H). injection H as <- _. eauto.
Qed.

Lemma iterate_inv step tol (P : locals -> Prop) :
  (forall st a c, P st -> step (centers st) = Ok (a, c) ->
     P (mkLocals (Some a) c (Some (centers st)))) ->
  forall n st st', P st -> iterate sqrt step tol n st = Ok st' -> P st'.
Proof.
  intros Hstep. induction n as [|n IH]; intros st st' HP H; cbn [iterate] in H.
  - now injection H as <-.
  - apply bind_ok in H as ([s1 sh] & H1 & H).
    apply iteration_ok in H1 as (a & c & Hs & ->).
    specialize (Hstep _ _ _ HP Hs).
    revert H. destruct (qltb (qmul sh sh) tol); intros H.
    + now injection H as <-.
    + exact (IH _ _ Hstep H).
Qed.

Lemma iterate_last_step step tol n c0 st :
  iterate sqrt step tol n (mkLocals None c0 None) = Ok st -> last_step step st.
Proof.
  apply (iterate_inv step tol (last_step step)).
  - intros s a c _ Hs. exact Hs.
  - exact I.
Qed.

Lemma return_locals_ok st a c :
  return_locals st = Ok (a, c) -> choice_cluster st = Some a /\ centers st = c.
Proof.
  unfold return_locals. destruct (choice_cluster st); [|discriminate].
  intros H. now injection H as <- <-.
Qed.

Lemma lloyd_locals_last_step X K tol max_iter st :
  lloyd_locals sqrt randperm X K tol max_iter = Ok st ->
  exists N rest oh, shape X = N :: rest /\ shape oh = [N; Z.to_nat K]
    /\ last_step (m_step X oh) st.
Proof.
  unfold lloyd_locals. intros H.
  apply bind_ok in H as (c0 & _ & H).
  apply bind_ok in H as (N & HN & H).
  apply bind_ok in H as (oh & Ho & H).
  apply bind_ok in H as (o & _ & H).
  apply size0_ok in HN as (rest & HN). apply zeros_ok in Ho.
  exists N, rest, oh. repeat split; auto.
  - rewrite Ho. cbn [map]. now rewrite Nat2Z.id.
  - eapply iterate_last_step; eauto.
Qed.

Lemma lloyd_zero_raises X K tol : raises (lloyd sqrt randperm X K tol 0).
Proof.
  unfold raises, lloyd, lloyd_locals.
  destruct (forgy_initialization randperm X K); cbn [bind]; [|eauto].
  destruct (size0 X); cbn [bind]; [|eauto].
  destruct (zeros _); cbn [bind]; [|eauto].
  destruct (ones _); cbn [bind iterate return_locals choice_cluster]; eauto.
Qed.

Lemma lloyd_zero_unbound X K tol c0 :
  forgy_initialization randperm X K = Ok c0 -> (0 <= K)%Z ->
  lloyd sqrt randperm X K tol 0 = Raise UnboundLocalError.
Proof.
  intros H0 HK. unfold lloyd, lloyd_locals. rewrite H0. cbn [bind].
  destruct (size0 X) eqn:E; cbn [bind].
  - unfold zeros, ones. cbn [forallb].
    destruct (Z.leb_spec 0 K); [|lia].
    destruct (Z.leb_spec 0 (Z.of_nat a)); [|lia]. reflexivity.
  - unfold forgy_initialization in H0. rewrite E in H0. discriminate.
Qed.

(** C4 (amended).  Calling [lloyd] with [max_iter=0] never returns: the loop
    body is not run, [choice_cluster] is never bound, and the [return]
    raises (UnboundLocalError whenever the initialization succeeded), so
    neither an assignment nor the initial centers are returned. *)
Theorem lloyd_zero_iterations_raises (X : tensor Q) (K : Z) (tol : Q) :
  raises (lloyd sqrt randperm X K tol 0)
  /\ (forall c0, forgy_initialization randperm X K = Ok c0 -> (0 <= K)%Z ->
        lloyd sqrt randperm X K tol 0 = Raise UnboundLocalError).
Proof.
  split; [apply lloyd_zero_raises | apply lloyd_zero_unbound].
Qed.

Lemma lloyd_last_pass X K tol max_iter st a N :
  shape X = [N; 1] ->
  lloyd_locals sqrt randperm X K tol max_iter = Ok st ->
  choice_cluster st = Some a ->
  exists oh old, shape oh = [N; Z.to_nat K] /\ centers_old st = Some old
    /\ m_step X oh old = Ok (a, centers st).
Proof.
  intros HX Hst Ha.
  destruct (lloyd_locals_last_step _ _ _ _ _ Hst)
    as (N' & rest & oh & HX' & Ho & L).
  rewrite HX in HX'. injection HX' as <- <-.
  unfold last_step in L. rewrite Ha in L.
  destruct (centers_old st) as [old|]; [|contradiction].
  exists oh, old. auto.
Qed.

(** C1 (amended).  In every update step of [lloyd] on one-feature data (the
    last executed pass of a run with any [max_iter]), the center of every
    cluster [k] that receives no point becomes 0, whatever its old value:
    the guard only keeps the reciprocal of the count from being taken at 0,
    so the new center is the sum 0 times the count 0. *)
Theorem empty_cluster_center_is_zero X K tol max_iter st a N k :
  shape X = [N; 1] ->
  lloyd_locals sqrt randperm X K tol max_iter = Ok st ->
  choice_cluster st = Some a ->
  k < Z.to_nat K -> members a N k = [] ->
  row (centers st) k = [0%Q].
Proof.
  intros HX Hst Ha Hk E.
  destruct (lloyd_last_pass X K tol max_iter st a N HX Hst Ha)
    as (oh & old & Ho & _ & Hm).
  exact (m_step_empty_cluster X oh old N _ a _ k HX Ho Hm Hk E).
Qed.

End Loop.

Lemma empty_cluster_center_is_zero_witness :
  lloyd_locals Qsqrt idperm points8 3 tol_default 2 = Ok points8_pass2
  /\ members (mkT [8] [0; 1; 0; 0; 1; 1; 1; 1]) 8 2 = []
  /\ row (centers points8_pass2) 2 = [0%Q].
Proof.
  split; [vm_compute; reflexivity|]. split; [reflexivity|].
  apply (empty_cluster_center_is_zero Qsqrt idperm points8 3 tol_default 2
           points8_pass2 (mkT [8] [0; 1; 0; 0; 1; 1; 1; 1]) 8 2).
  - reflexivity.
  - vm_compute; reflexivity.
  - reflexivity.
  - vm_compute; lia.
  - reflexivity.
Defined.

(** C1, as stated, fails: in its second pass [lloyd] leaves cluster 2 of
    [points8] without a point, and its center goes from 119/2 to 0.  No two
    distances are equal in this run. *)
Lemma lloyd_empty_cluster_center_not_retained :
  lloyd_locals Qsqrt idperm points8 3 tol_default 2 = Ok points8_pass2
  /\ members (mkT [8] [0; 1; 0; 0; 1; 1; 1; 1]) 8 2 = []
  /\ row (centers points8_pass2) 2
     <> row (mkT [3; 1] [32; 183 # 2; 119 # 2]%Q) 2.
Proof.
  split; [vm_compute; reflexivity|]. split; [reflexivity|].
  vm_compute. discriminate.
Qed.

(** C7.  On the two-feature data [pairs2] with one cluster, a pass of
    [lloyd] assigns both points to cluster 0, whose mean is (0, 6), and
    returns the centers as a [2 x 1] column: center 0 is the 1-vector (0).
    The docstring promises [(N, d)] data; a second pass then fails the
    module's own [assert d1==d2] on these centers. *)
Theorem lloyd_step_two_features_center_not_mean :
  lloyd Qsqrt idperm pairs2 1 tol_default 1
  = Ok (mkT [2] [0; 0], mkT [2; 1] [0; 6]%Q)
  /\ members (mkT [2] [0; 0]) 2 0 = [0; 1]
  /\ Forall2 Qeq (mean_row pairs2 [0; 1]) [0; 6]%Q
  /\ row (mkT [2; 1] [0; 6]%Q) 0 = [0%Q]
  /\ ~ Forall2 Qeq (row (mkT [2; 1] [0; 6]%Q) 0) (mean_row pairs2 [0; 1])
  /\ lloyd Qsqrt idperm pairs2 1 tol_default 2 = Raise AssertionError.
Proof.
  split; [vm_compute; reflexivity|]. split; [reflexivity|]. split.
  { repeat constructor. }
  split; [reflexivity|]. split.
  - intros H. apply Forall2_length in H. vm_compute in H. discriminate.
  - vm_compute; reflexivity.
Qed.

Lemma lloyd_zero_iterations_raises_witness :
  forgy_initialization idperm points3 2 = Ok (mkT [2; 1] [0; 1]%Q)
  /\ lloyd Qsqrt idperm points3 2 tol_default 0 = Raise UnboundLocalError.
Proof.
  split; [vm_compute; reflexivity|].
  apply (proj2 (lloyd_zero_iterations_raises Qsqrt idperm points3 2 tol_default)
               (mkT [2; 1] [0; 1]%Q)).
  - vm_compute; reflexivity.
  - lia.
Defined.

(** C4, as stated, fails: with [max_iter=0] the initialization of [lloyd]
    succeeds on [points3] and the call then raises instead of returning. *)
Lemma lloyd_zero_iterations_does_not_return :
  forgy_initialization idperm points3 2 = Ok (mkT [2; 1] [0; 1]%Q)
  /\ forall r, lloyd Qsqrt idperm points3 2 tol_default 0 <> Ok r.
Proof.
  split; [vm_compute; reflexivity|].
  intros r H. vm_compute in H. discriminate.
Qed.

(** C8, as stated, fails: [lloyd] returns the assignment computed before the
    last update together with the centers computed after it.  On [points3]
    with one pass, the point 1 is assigned to cluster 1, whose returned
    center 11/2 is farther from it than the returned center 0 of cluster 0
    (all the numbers of this run are exact in float32 too). *)
Lemma lloyd_assignment_not_nearest_to_returned_centers :
  lloyd Qsqrt idperm points3 2 tol_default 1
  = Ok (mkT [3] [0; 1; 1], mkT [2; 1] [0; 11 # 2]%Q)
  /\ elt (mkT [3] [0; 1; 1]) 1 = 1
  /\ ~ Qle (sqdist (elt points3 1) (elt (mkT [2; 1] [0; 11 # 2]%Q) 1))
           (sqdist (elt points3 1) (elt (mkT [2; 1] [0; 11 # 2]%Q) 0)).
Proof.
  split; [vm_compute; reflexivity|]. split; [reflexivity|].
  vm_compute. intros H. apply H. reflexivity.
Qed.

(** ** The pinned center of [lloyd_nnz_fixed_0_center] *)

Lemma fixed_0_step_frozen X oh K c0 c a c' :
  (0 <= K)%Z -> wf c0 ->
  frozen_from (Z.to_nat K) c0 c ->
  fixed_0_step X oh K c = Ok (a, c') ->
  frozen_from (Z.to_nat K) c0 c'.
Proof.
  intros HK W0 (W & Hs & Hf) H. unfold fixed_0_step in H.
  apply bind_ok in H as ([a1 new] & Hm & H).
  apply bind_ok in H as (rhs & _ & H).
  apply bind_ok in H as (c1 & Ha & H). injection H as <- <-.
  destruct (shape c) as [|n0 rest] eqn:Ec.
  { unfold slice0_assign in Ha. rewrite Ec in Ha. discriminate. }
  destruct (slice0_assign_keeps c rhs c1 K n0 rest Ec Ha) as (Ht & Hs1 & Hk).
  assert (W1 : wf c1) by (rewrite Ht; apply wf_tabulate).
  split; [exact W1|]. split; [congruence|].
  intros p Hp. rewrite <- Hf by exact Hp.
  destruct (Nat.lt_ge_cases p (numel (shape c))) as [Hlt|Hge].
  - rewrite Ec in Hlt. apply Hk; [|now rewrite Ec].
    unfold row_size in Hp. rewrite <- Hs in Hp. cbn [tl] in Hp.
    pose proof (slice_stop_le n0 K HK). nia.
  - rewrite !elt_beyond; auto. now rewrite Hs1.
Qed.

Lemma frozen_row (m : nat) (c0 c : tensor Q) k :
  wf c0 -> frozen_from m c0 c -> m <= k -> row c k = row c0 k.
Proof.
  intros W0 (W & Hs & Hf) Hk. unfold row, row_size. rewrite Hs. f_equal.
  apply skipn_nth_ext with (d := 0%Q).
  - red in W, W0. congruence.
  - intros p Hp. apply Hf. unfold row_size. nia.
Qed.

Section Fixed0.
Variable sqrt : Q -> Q.
Variable randperm : nat -> list nat.

Lemma forgy_initialization_nnz_zero_row X Xp K c0 :
  forgy_initialization_nnz randperm X Xp K = Ok c0 ->
  wf c0 /\ exists m, shape c0 = [S m; 1] /\ row c0 m = [0%Q].
Proof.
  unfold forgy_initialization_nnz. intros H.
  apply bind_ok in H as (n & _ & H).
  apply bind_ok in H as (indices & _ & H).
  apply bind_ok in H as (zero_el & Hz & H).
  apply bind_ok in H as (sel & _ & H).
  apply bind_ok in H as (rows & _ & H).
  injection Hz as <-. now apply cat_zero_row in H.
Qed.

Lemma lloyd_nnz_fixed_0_center_frozen X Xp K tol max_iter st :
  (0 <= K)%Z ->
  lloyd_nnz_fixed_0_center_locals sqrt randperm X Xp K tol max_iter = Ok st ->
  exists c0, forgy_initialization_nnz randperm X Xp (K + 1) = Ok c0
    /\ wf c0 /\ frozen_from (Z.to_nat K) c0 (centers st).
Proof.
  intros HK H. unfold lloyd_nnz_fixed_0_center_locals in H.
  apply bind_ok in H as (c0 & H0 & H).
  apply bind_ok in H as (N & _ & H).
  apply bind_ok in H as (oh & _ & H).
  apply bind_ok in H as (o & _ & H).
  destruct (forgy_initialization_nnz_zero_row _ _ _ _ H0) as (W0 & _).
  exists c0. split; [exact H0|]. split; [exact W0|].
  revert H.
  apply (iterate_inv sqrt _ tol
           (fun s => frozen_from (Z.to_nat K) c0 (centers s))).
  - intros s a c Hs Hstep. cbn [centers]. eapply fixed_0_step_frozen; eauto.
  - cbn [centers]. repeat split; auto.
Qed.

(** C3 (amended).  The pinned (last, (K+1)-th) center of
    [lloyd_nnz_fixed_0_center] is the all-zero row that
    [forgy_initialization_nnz] appends after the drawn rows, exactly as in
    [lloyd_nnz]; it is not a drawn data row. *)
Theorem fixed_0_center_pinned_center_is_zero X Xp K tol max_iter a c :
  (0 <= K)%Z ->
  lloyd_nnz_fixed_0_center sqrt randperm X Xp K tol max_iter = Ok (a, c) ->
  exists c0 m, forgy_initialization_nnz randperm X Xp (K + 1) = Ok c0
    /\ shape c0 = [S m; 1] /\ row c0 m = [0%Q]
    /\ shape c = [S m; 1]
    /\ (m = Z.to_nat K -> row c m = [0%Q]).
Proof.
  intros HK H. unfold lloyd_nnz_fixed_0_center in H.
  apply bind_ok in H as (st & Hst & Hr).
  apply return_locals_ok in Hr as [_ <-].
  destruct (lloyd_nnz_fixed_0_center_frozen _ _ _ _ _ _ HK Hst)
    as (c0 & H0 & W0 & F).
  destruct (forgy_initialization_nnz_zero_row _ _ _ _ H0) as (_ & m & Hs & Hz).
  exists c0, m. repeat split; auto.
  - destruct F as (_ & -> & _). exact Hs.
  - intros ->. rewrite <- Hz. apply (frozen_row (Z.to_nat K)); auto.
Qed.
End Fixed0.

Lemma fixed_0_center_pinned_center_is_zero_witness :
  exists c0 m,
    forgy_initialization_nnz idperm weights3 weights3 (2 + 1) = Ok c0
    /\ shape c0 = [S m; 1] /\ row c0 m = [0%Q]
    /\ shape (mkT [3; 1] [1; 5 # 2; 0]%Q) = [S m; 1]
    /\ (m = Z.to_nat 2 -> row (mkT [3; 1] [1; 5 # 2; 0]%Q) m = [0%Q]).
Proof.
  apply (fixed_0_center_pinned_center_is_zero Qsqrt idperm weights3 weights3 2
           tol_default 20 (mkT [3] [0; 1; 1])).
  - lia.
  - vm_compute; reflexivity.
Defined.

(** C3, as stated, fails: on [weights3], whose rows are all non-zero, the
    pinned center is the zero row, at initialization and on return, and is
    no row of the data. *)
Lemma pinned_center_is_not_a_drawn_row :
  forgy_initialization_nnz idperm weights3 weights3 (2 + 1)
  = Ok (mkT [3; 1] [1; 2; 0]%Q)
  /\ lloyd_nnz_fixed_0_center Qsqrt idperm weights3 weights3 2 tol_default 20
     = Ok (mkT [3] [0; 1; 1], mkT [3; 1] [1; 5 # 2; 0]%Q)
  /\ row (mkT [3; 1] [1; 5 # 2; 0]%Q) 2 = [0%Q]
  /\ ~ In (row (mkT [3; 1] [1; 5 # 2; 0]%Q) 2)
          [row weights3 0; row weights3 1; row weights3 2].
Proof.
  split; [vm_compute; reflexivity|]. split; [vm_compute; reflexivity|].
  split; [reflexivity|].
  vm_compute. intros [H|[H|[H|[]]]]; discriminate.
Qed.

(** ** Initialization *)

Lemma idperm_valid : valid_randperm idperm.
Proof. intros n. apply Permutation_refl. Qed.

Section Init.
Variable sqrt : Q -> Q.
Variable randperm : nat -> list nat.

Lemma randperm_nth_lt n p : valid_randperm randperm -> p < n -> nth p (randperm n) 0 < n.
Proof.
  intros V Hp. specialize (V n).
  assert (L : length (randperm n) = n)
    by (rewrite (Permutation_length V); apply length_seq).
  assert (I : In (nth p (randperm n) 0) (randperm n)) by (apply nth_In; lia).
  apply (Permutation_in _ V), in_seq in I. lia.
Qed.

Lemma slice0_randperm n stop :
  slice0 (torch_randperm randperm n) stop
  = Ok (tabulate [slice_stop n stop] (fun p => nth p (randperm n) 0)).
Proof. reflexivity. Qed.

Lemma forgy_initialization_rows X K N rest :
  valid_randperm randperm -> shape X = N :: rest ->
  exists c, forgy_initialization randperm X K = Ok c
    /\ shape c = slice_stop N K :: rest
    /\ forall p, p < numel (slice_stop N K :: rest) ->
         elt c p = elt X (nth (p / numel rest) (randperm N) 0 * numel rest
                          + p mod numel rest).
Proof.
  intros V HX. unfold forgy_initialization, size0. rewrite HX. cbn [bind].
  rewrite slice0_randperm. cbn [bind]. unfold index_get. rewrite HX.
  rewrite forallb_tabulate_1.
  - eexists; split; [reflexivity|]. split; [reflexivity|].
    intros p Hp. cbn [shape tabulate app] in *.
    rewrite elt_tabulate by exact Hp.
    rewrite (elt_tabulate [slice_stop N K]); [reflexivity|].
    rewrite numel_1. cbn [numel fold_right] in Hp. fold (numel rest) in Hp.
    now apply div_lt_mul.
  - intros p Hp. apply Nat.ltb_lt. apply randperm_nth_lt; auto.
    pose proof (slice_stop_bound N K). lia.
Qed.



End Init.

Section Nnz.
Variable sqrt : Q -> Q.
Variable randperm : nat -> list nat.


End Nnz.



(** ** Data with several features *)

Section MultiFeature.
Variable sqrt : Q -> Q.
Variable randperm : nat -> list nat.

Lemma lloyd_multi_feature_scatter X K N d tol n :
  valid_randperm randperm -> shape X = [N; d] -> 2 <= N -> 2 <= d -> (2 <= K)%Z ->
  lloyd sqrt randperm X K tol (S n) = Raise ScatterError.
Proof.
  intros V HX HN Hd HK.
  destruct (forgy_initialization_rows randperm X K N [d] V HX) as (c & Hc & Hs & _).
  assert (HK' : 2 <= slice_stop N K).
  { unfold slice_stop. destruct (Z.ltb_spec K 0); lia. }
  unfold lloyd, lloyd_locals, size0. rewrite Hc, HX. cbn [bind].
  unfold zeros, ones. cbn [forallb].
  destruct (Z.leb_spec 0 K); [|lia].
  destruct (Z.leb_spec 0 (Z.of_nat N)); [|lia]. cbn [andb bind map].
  cbn [iterate]. unfold iteration at 1. cbn [centers]. unfold m_step.
  rewrite (choose_centers_features X c N d _ HX Hs HN Hd HK'). cbn [bind].
  unfold feature_argmin.
  match goal with |- context [unsqueeze 1 ?t] =>
    rewrite (unsqueeze_1 t N [slice_stop N K] eq_refl) end.
  cbn [bind]. unfold scatter1. cbn [shape zero_ tabulate].
  rewrite numel_3.
  destruct (Nat.eqb_spec (N * (1 * slice_stop N K)) 0); [nia|].
  reflexivity.
Qed.

End MultiFeature.

(** C2.  On the two-feature inputs [pairs2] and [pair_centers],
    [choose_centers] returns a [2 x 2] matrix of feature indices, where the
    docstring promises the vector (0, 1) of nearest centers. *)
Theorem choose_centers_two_features_returns_matrix :
  choose_centers pairs2 pair_centers = Ok (mkT [2; 2] [0; 0; 0; 1])
  /\ choose_centers pairs2 pair_centers
     = Ok (feature_argmin pairs2 pair_centers 2 2 2).
Proof. split; vm_compute; reflexivity. Qed.

(** ** [lloyd_fixed_nnz] *)



Section FixedNnz.
Variable sqrt : Q -> Q.
Variable randperm : nat -> list nat.



End FixedNnz.


(** ** Totality of [lloyd] on one-feature data *)

Section Total.
Variable sqrt : Q -> Q.
Variable randperm : nat -> list nat.

Lemma center_shift_same_shape c c' k :
  shape c = [k; 1] -> shape c' = [k; 1] ->
  exists s, center_shift sqrt c c' = Ok s.
Proof.
  intros H1 H2. unfold center_shift, tsub, bop. rewrite H1, H2, bshape_same.
  cbn [bind]. unfold sum_dim1. cbn [shape pow2 tmap tabulate bind]. eauto.
Qed.

Lemma iteration_col X oh c N K :
  shape X = [N; 1] -> shape oh = [N; K] -> shape c = [K; 1] ->
  2 <= N -> 2 <= K ->
  forall st, centers st = c ->
  exists a c' sh,
    iteration sqrt (m_step X oh) st = Ok (mkLocals (Some a) c' (Some c), sh)
    /\ shape a = [N] /\ shape c' = [K; 1].
Proof.
  intros HX Ho Hc HN HK st Hst. unfold iteration. rewrite Hst.
  rewrite (m_step_col X oh c N K K HX Ho Hc).
  destruct (Nat.eqb_spec N 1); [lia|]. destruct (Nat.ltb_spec K 2); [lia|].
  cbn [orb]. cbv zeta. rewrite forallb_tabulate_1.
  2:{ intros p Hp. apply Nat.ltb_lt, nearest_lt. lia. }
  cbn [bind].
  set (a := tabulate [N] (nearest X c K)).
  destruct (center_shift_same_shape
              (mkT [K; 1] (data (tabulate [K] (new_center X a N))))
              c K eq_refl Hc) as (s & ->).
  cbn [bind]. do 3 eexists. split; [reflexivity|]. split; reflexivity.
Qed.

Lemma iterate_col X oh N K tol :
  shape X = [N; 1] -> shape oh = [N; K] -> 2 <= N -> 2 <= K ->
  forall n st, shape (centers st) = [K; 1] ->
  exists st', iterate sqrt (m_step X oh) tol (S n) st = Ok st'
    /\ shape (centers st') = [K; 1]
    /\ exists a, choice_cluster st' = Some a /\ shape a = [N].
Proof.
  intros HX Ho HN HK. induction n as [|n IH]; intros st Hc.
  - destruct (iteration_col X oh _ N K HX Ho Hc HN HK st eq_refl)
      as (a & c' & sh & E & Ha & Hc').
    cbn [iterate]. rewrite E. cbn [bind].
    destruct (qltb _ _); eexists; (split; [reflexivity|]); cbn; eauto.
  - destruct (iteration_col X oh _ N K HX Ho Hc HN HK st eq_refl)
      as (a & c' & sh & E & Ha & Hc').
    change (iterate sqrt (m_step X oh) tol (S (S n)) st)
      with ('(st', shift) <- iteration sqrt (m_step X oh) st ;;
            if qltb (qmul shift shift) tol then Ok st'
            else iterate sqrt (m_step X oh) tol (S n) st').
    rewrite E. cbn [bind]. destruct (qltb _ _).
    + eexists; (split; [reflexivity|]); cbn; eauto.
    + apply IH. exact Hc'.
Qed.

Lemma lloyd_total_col X K N tol n :
  valid_randperm randperm -> shape X = [N; 1] ->
  (2 <= K)%Z -> (K <= Z.of_nat N)%Z ->
  exists a c, lloyd sqrt randperm X K tol (S n) = Ok (a, c)
    /\ shape a = [N] /\ shape c = [Z.to_nat K; 1].
Proof.
  intros V HX HK HKN.
  destruct (forgy_initialization_rows randperm X K N [1] V HX) as (c0 & Hc & Hs & _).
  assert (Es : slice_stop N K = Z.to_nat K).
  { unfold slice_stop. destruct (Z.ltb_spec K 0); lia. }
  rewrite Es in Hs.
  unfold lloyd, lloyd_locals, size0. rewrite Hc, HX. cbn [bind].
  unfold zeros, ones. cbn [forallb].
  destruct (Z.leb_spec 0 K); [|lia].
  destruct (Z.leb_spec 0 (Z.of_nat N)); [|lia]. cbn [andb bind map].
  rewrite Nat2Z.id.
  destruct (iterate_col X (tabulate [N; Z.to_nat K] (fun _ => 0%Q)) N (Z.to_nat K)
              tol HX eq_refl ltac:(lia) ltac:(lia) n (mkLocals None c0 None) Hs)
    as (st' & -> & Hc' & a & Ha & Hsa).
  cbn [bind]. unfold return_locals. rewrite Ha. eauto.
Qed.

(** C10 (amended).  With at least two points and [K >= 2], [lloyd] returns a
    result only on one-feature data.  On [d = 1] (and [K <= N]) every call
    with [max_iter >= 1] returns an [N]-vector and a [K x 1] center matrix.
    On [d >= 2] every call raises, [K = d] included: [choose_centers] never
    sums over the features, it returns the [N x K'] matrix of per-feature
    argmins, and [scatter_] rejects that index in the first pass, before the
    product of the data with the one-hot indicator is reached. *)
Theorem lloyd_returns_only_on_single_feature_data X K N d tol :
  valid_randperm randperm -> shape X = [N; d] -> 2 <= N -> (2 <= K)%Z ->
  (d = 1 -> (K <= Z.of_nat N)%Z -> forall n,
     exists a c, lloyd sqrt randperm X K tol (S n) = Ok (a, c)
       /\ shape a = [N] /\ shape c = [Z.to_nat K; 1])
  /\ (2 <= d ->
      (forall C K', shape C = [K'; d] -> 2 <= K' ->
         choose_centers X C = Ok (feature_argmin X C N d K'))
      /\ (forall n, lloyd sqrt randperm X K tol (S n) = Raise ScatterError)
      /\ forall max_iter, raises (lloyd sqrt randperm X K tol max_iter)).
Proof.
  intros V HX HN HK. split.
  - intros -> HKN n. now apply lloyd_total_col.
  - intros Hd. split; [|split].
    + intros C K' HC HK'. now apply choose_centers_features.
    + intros n. now apply (lloyd_multi_feature_scatter sqrt randperm X K N d).
    + intros [|n]; [apply lloyd_zero_raises|].
      exists ScatterError.
      now apply (lloyd_multi_feature_scatter sqrt randperm X K N d).
Qed.
End Total.

Lemma lloyd_returns_only_on_single_feature_data_witness :
  (exists a c, lloyd Qsqrt idperm points3 2 tol_default 1 = Ok (a, c)
     /\ shape a = [3] /\ shape c = [Z.to_nat 2; 1])
  /\ choose_centers pairs3 (mkT [2; 2] [0; 5; 0; 7]%Q)
     = Ok (feature_argmin pairs3 (mkT [2; 2] [0; 5; 0; 7]%Q) 3 2 2)
  /\ lloyd Qsqrt idperm pairs3 2 tol_default 1 = Raise ScatterError.
Proof.
  split; [|split].
  - apply (proj1 (lloyd_returns_only_on_single_feature_data Qsqrt idperm
                    points3 2 3 1 tol_default idperm_valid eq_refl
                    ltac:(lia) ltac:(lia)));
      [reflexivity | lia].
  - apply (proj2 (lloyd_returns_only_on_single_feature_data Qsqrt idperm
                    pairs3 2 3 2 tol_default idperm_valid eq_refl
                    ltac:(lia) ltac:(lia)));
      [lia | reflexivity | lia].
  - apply (proj2 (lloyd_returns_only_on_single_feature_data Qsqrt idperm
                    pairs3 2 3 2 tol_default idperm_valid eq_refl
                    ltac:(lia) ltac:(lia))).
    lia.
Defined.

(** C10, as stated, fails: with one cluster on the two-feature data [pairs2]
    ([K = 1], [d = 2]) the first update step raises nothing, and [lloyd]
    with one pass returns, with its centers laid out as a [2 x 1] column. *)
Lemma lloyd_two_features_one_cluster_step_succeeds :
  shape pairs2 = [2; 2]
  /\ m_step pairs2 (tabulate [2; 1] (fun _ => 0%Q)) (mkT [1; 2] [0; 5]%Q)
     = Ok (mkT [2] [0; 0], mkT [2; 1] [0; 6]%Q)
  /\ lloyd Qsqrt idperm pairs2 1 tol_default 1
     = Ok (mkT [2] [0; 0], mkT [2; 1] [0; 6]%Q)
  /\ ~ raises (lloyd Qsqrt idperm pairs2 1 tol_default 1).
Proof.
  split; [reflexivity|]. split; [vm_compute; reflexivity|].
  split; [vm_compute; reflexivity|].
  intros [e H]. vm_compute in H. discriminate.
Qed.

(** ** The failures of [choose_centers] *)

Lemma argmin_dim1_error (t : tensor Q) e :
  argmin_dim1 t = Raise e -> e = IndexError.
Proof.
  unfold argmin_dim1. destruct (shape t) as [|n0 [|n1 r]].
  - intros H; now injection H.
  - intros H; now injection H.
  - destruct (n1 =? 0); intros H; [now injection H | discriminate].
Qed.

Lemma choose_centers_assertion (X C : tensor Q) :
  choose_centers X C = Raise AssertionError <-> shapes_accepted X C = false.
Proof.
  unfold shapes_accepted, choose_centers.
  destruct ((ndim X =? 2) && (ndim C =? 2)) eqn:E2; cbn [py_assert bind andb].
  2:{ split; reflexivity. }
  destruct (nth 1 (shape X) 0 =? nth 1 (shape C) 0) eqn:Ed; cbn [py_assert bind].
  2:{ split; reflexivity. }
  split; [|discriminate]. intros H. exfalso.
  unfold transpose10 in H. destruct (shape C) as [|a [|b rest]]; try discriminate.
  cbn [bind] in H. rewrite unsqueeze_0, unsqueeze_m1 in H. cbn [bind] in H.
  unfold tsub, bop in H. destruct (broadcast_shapes _ _); try discriminate.
  cbn [bind] in H. apply argmin_dim1_error in H. discriminate.
Qed.

Lemma bshape_dist N d K : broadcast_shapes [N; d; 1] [1; d; K] = Some [N; d; K].
Proof.
  unfold broadcast_shapes.
  destruct K as [|[|K]], N as [|[|N]]; cbn; rewrite Nat.eqb_refl; reflexivity.
Qed.

Lemma choose_centers_error_kinds (X C : tensor Q) e :
  choose_centers X C = Raise e -> e = AssertionError \/ e = IndexError.
Proof.
  unfold choose_centers, ndim. intros H.
  destruct (shape X) as [|N [|d1 [|? ?]]] eqn:HX;
    cbn [length Nat.eqb andb py_assert bind] in H;
    try (left; congruence).
  destruct (shape C) as [|K [|d2 [|? ?]]] eqn:HC;
    cbn [length Nat.eqb andb py_assert bind nth] in H;
    try (left; congruence).
  destruct (Nat.eqb_spec d1 d2) as [->|]; cbn [py_assert bind] in H;
    [|left; congruence].
  unfold transpose10 in H. rewrite HC in H. cbn [bind] in H.
  rewrite unsqueeze_0, unsqueeze_m1 in H. cbn [bind] in H. rewrite HX in H.
  unfold tsub, bop in H. cbn [shape app tabulate] in H.
  rewrite bshape_dist in H. cbn [bind] in H.
  right. now apply argmin_dim1_error in H.
Qed.

(** X1.  The ways [choose_centers] fails.  It raises AssertionError exactly
    when one of its two [assert]s rejects the shapes; once they pass, the
    subtraction always broadcasts, and the only other exception it can raise
    is the IndexError of [argmin(dim=1)] on what [squeeze()] left. *)
Theorem choose_centers_failure_modes (X C : tensor Q) :
  (choose_centers X C = Raise AssertionError <-> shapes_accepted X C = false)
  /\ (forall e, choose_centers X C = Raise e ->
        e = AssertionError \/ e = IndexError).
Proof.
  split; [apply choose_centers_assertion | apply choose_centers_error_kinds].
Qed.

(** X3.  On one-feature data [choose_centers] raises IndexError when there
    is a single point or fewer than two centers: [squeeze()] then drops the
    point or the center dimension too, and [argmin(dim=1)] has no dimension 1
    left (or, with no center at all, an empty one). *)
Theorem choose_centers_degenerate_column (X C : tensor Q) N K :
  shape X = [N; 1] -> shape C = [K; 1] -> N = 1 \/ K < 2 ->
  choose_centers X C = Raise IndexError.
Proof.
  intros HX HC H. rewrite (choose_centers_col X C N K HX HC).
  destruct H as [->|H]; [reflexivity|].
  destruct (Nat.ltb_spec K 2); [|lia]. now rewrite orb_true_r.
Qed.

Lemma choose_centers_degenerate_column_witness :
  choose_centers (col [5%Q]) (col [0; 1]%Q) = Raise IndexError
  /\ choose_centers points3 (col [4%Q]) = Raise IndexError.
Proof.
  split.
  - apply (choose_centers_degenerate_column (col [5%Q]) (col [0; 1]%Q) 1 2);
      [reflexivity | reflexivity | left; reflexivity].
  - apply (choose_centers_degenerate_column points3 (col [4%Q]) 3 1);
      [reflexivity | reflexivity | right; lia].
Defined.

Lemma row_wf {A} `{Zero A} (t : tensor A) n0 rest j :
  wf t -> shape t = n0 :: rest -> j < n0 ->
  row t j = map (elt t) (seq (j * numel rest) (numel rest)).
Proof.
  intros W Hs Hj. unfold row, row_size. rewrite Hs. cbn [tl].
  red in W. rewrite Hs in W. cbn [numel fold_right] in W. fold (numel rest) in W.
  apply nth_ext with (d := zero) (d' := elt t 0).
  - rewrite length_firstn, length_skipn, length_map, length_seq. nia.
  - intros i Hi. rewrite length_firstn, length_skipn in Hi.
    assert (Hi' : i < numel rest) by lia.
    rewrite nth_firstn. destruct (Nat.ltb_spec i (numel rest)); [|lia].
    rewrite nth_skipn.
    rewrite nth_indep with (d := elt t 0) (d' := elt t (j * numel rest))
      by (rewrite length_map, length_seq; lia).
    rewrite map_nth, seq_nth by lia. reflexivity.
Qed.

Lemma randperm_NoDup randperm n : valid_randperm randperm -> NoDup (randperm n).
Proof.
  intros V. apply (Permutation_NoDup (Permutation_sym (V n))), seq_NoDup.
Qed.

Lemma randperm_length randperm n : valid_randperm randperm -> length (randperm n) = n.
Proof. intros V. rewrite (Permutation_length (V n)). apply length_seq. Qed.

(** ** More on the initializations *)

Section InitRows.
Variable randperm : nat -> list nat.

(** X4.  [forgy_initialization] never fails on a tensor with at least one
    dimension: it returns [randperm(N)[0:K]] many rows, that is [min N K] for
    [K >= 0], each one a row of [X], taken at pairwise distinct row indices
    below [N]. *)
Theorem forgy_initialization_distinct_rows (X : tensor Q) K N rest :
  valid_randperm randperm -> wf X -> shape X = N :: rest ->
  exists c, forgy_initialization randperm X K = Ok c
    /\ shape c = slice_stop N K :: rest
    /\ slice_stop N K <= N
    /\ ((0 <= K)%Z -> slice_stop N K = Nat.min N (Z.to_nat K))
    /\ NoDup (firstn (slice_stop N K) (randperm N))
    /\ forall i, i < slice_stop N K ->
         nth i (randperm N) 0 < N
         /\ row c i = row X (nth i (randperm N) 0).
Proof.
  intros V W HX.
  destruct (forgy_initialization_rows randperm X K N rest V HX) as (c & Hc & Hs & He).
  pose proof (slice_stop_bound N K) as Hb.
  exists c. split; [exact Hc|]. split; [exact Hs|]. split; [exact Hb|].
  split; [|split].
  - intros HK. unfold slice_stop. destruct (Z.ltb_spec K 0); [lia | reflexivity].
  - apply (NoDup_app_remove_r _ (skipn (slice_stop N K) (randperm N))).
    rewrite firstn_skipn. now apply randperm_NoDup.
  - intros i Hi.
    assert (Hlt : nth i (randperm N) 0 < N)
      by (apply randperm_nth_lt; [exact V | lia]).
    split; [exact Hlt|].
    assert (Wc : wf c).
    { unfold forgy_initialization in Hc.
      apply bind_ok in Hc as (n & _ & Hc). apply bind_ok in Hc as (ix & _ & Hc).
      apply index_get_ok in Hc as (? & ? & _ & _ & ->). apply wf_tabulate. }
    rewrite (row_wf c _ rest i Wc Hs Hi), (row_wf X N rest _ W HX Hlt).
    apply nth_ext with (d := 0%Q) (d' := 0%Q); [now rewrite !length_map, !length_seq|].
    intros q Hq. rewrite length_map, length_seq in Hq.
    rewrite !(nth_indep _ 0%Q (elt c 0)) by (rewrite length_map, length_seq; lia).
    rewrite map_nth.
    rewrite (nth_indep _ (elt c 0) (elt X 0)) by (rewrite length_map, length_seq; lia).
    rewrite map_nth. rewrite !seq_nth by lia.
    rewrite He by (cbn [numel fold_right]; fold (numel rest); nia).
    replace (i * numel rest + q) with (q + i * numel rest) by lia.
    rewrite Nat.div_add, Nat.Div0.mod_add by lia.
    rewrite Nat.div_small, Nat.mod_small by lia. reflexivity.
Qed.
End InitRows.

Lemma forgy_initialization_distinct_rows_witness :
  exists c, forgy_initialization idperm weights5 2 = Ok c
    /\ shape c = slice_stop 5 2 :: [1]
    /\ slice_stop 5 2 <= 5
    /\ ((0 <= 2)%Z -> slice_stop 5 2 = Nat.min 5 (Z.to_nat 2))
    /\ NoDup (firstn (slice_stop 5 2) (idperm 5))
    /\ forall i, i < slice_stop 5 2 ->
         nth i (idperm 5) 0 < 5
         /\ row c i = row weights5 (nth i (idperm 5) 0).
Proof.
  apply (forgy_initialization_distinct_rows idperm weights5 2 5 [1] idperm_valid);
    reflexivity.
Defined.

Lemma nonzero_positions_NoDup Xp : NoDup (nonzero_positions Xp).
Proof. apply NoDup_filter, seq_NoDup. Qed.

Lemma drawn_position_nonzero randperm Xp i :
  valid_randperm randperm -> i < count_nonzero Xp ->
  drawn_position randperm Xp i < numel (shape Xp)
  /\ qnonzero (elt Xp (drawn_position randperm Xp i)) = true.
Proof.
  intros V Hi. unfold drawn_position.
  assert (Hq : nth i (randperm (count_nonzero Xp)) 0 < count_nonzero Xp)
    by (now apply randperm_nth_lt).
  split; [now apply nonzero_positions_lt|].
  assert (I : In (nth (nth i (randperm (count_nonzero Xp)) 0)
                      (nonzero_positions Xp) 0) (nonzero_positions Xp))
    by (now apply nth_In).
  now apply filter_In in I as [_ I].
Qed.

Lemma drawn_position_inj randperm Xp i j :
  valid_randperm randperm -> i < count_nonzero Xp -> j < count_nonzero Xp ->
  drawn_position randperm Xp i = drawn_position randperm Xp j -> i = j.
Proof.
  intros V Hi Hj E. unfold drawn_position in E.
  pose proof (randperm_length randperm (count_nonzero Xp) V) as L.
  apply (proj1 (NoDup_nth _ 0) (nonzero_positions_NoDup Xp)) in E;
    try (now apply randperm_nth_lt).
  apply (proj1 (NoDup_nth _ 0) (randperm_NoDup randperm _ V)) in E; lia.
Qed.

Section InitNnz.
Variable sqrt : Q -> Q.
Variable randperm : nat -> list nat.

Lemma forgy_initialization_nnz_col X Xp K N :
  valid_randperm randperm -> shape X = [N; 1] -> numel (shape Xp) = N ->
  slice_stop (count_nonzero Xp) (K - 1) <> 1 ->
  exists c, forgy_initialization_nnz randperm X Xp K = Ok c
    /\ wf c
    /\ shape c = [S (slice_stop (count_nonzero Xp) (K - 1)); 1]
    /\ (forall i, i < slice_stop (count_nonzero Xp) (K - 1) ->
          elt c i = elt X (nth (nth i (randperm (count_nonzero Xp)) 0)
                               (nonzero_positions Xp) 0))
    /\ elt c (slice_stop (count_nonzero Xp) (K - 1)) = 0%Q.
Proof.
  intros V HX HXp Hm. unfold forgy_initialization_nnz.
  rewrite nonzero_view_flat. set (M := count_nonzero Xp) in *.
  set (m := slice_stop M (K - 1)) in *.
  cbn [len shape bind]. rewrite slice0_randperm. cbn [bind].
  change (zeros [1%Z; 1%Z]) with (Ok (tabulate [1; 1] (fun _ : nat => 0%Q))).
  cbn [bind]. unfold index_get at 1. cbn [shape data].
  fold m. rewrite forallb_tabulate_1.
  2:{ intros p Hp. apply Nat.ltb_lt, randperm_nth_lt; auto.
      pose proof (slice_stop_bound M (K - 1)). fold m in H. lia. }
  cbn [bind app].
  match goal with |- context [squeeze ?s] => set (sel := s) end.
  assert (Hsq : shape (squeeze sel) = [m]).
  { unfold squeeze, sel. cbn [shape tabulate filter Nat.eqb negb app].
    destruct (Nat.eqb_spec m 1) as [E|_]; [contradiction | reflexivity]. }
  assert (Hd : forallb (fun i => i <? N) (data (squeeze sel)) = true).
  { apply forallb_forall. intros x Hx. unfold sel in Hx.
    cbn [squeeze data tabulate shape app] in Hx.
    apply in_map_iff in Hx as (p & <- & Hp). apply in_seq in Hp.
    rewrite numel_2, Nat.mul_1_r in Hp. apply Nat.ltb_lt.
    rewrite numel_1, Nat.div_1_r, Nat.mod_1_r, Nat.mul_1_r, Nat.add_0_r.
    rewrite elt_tabulate by (rewrite numel_1; lia).
    rewrite <- HXp. apply nonzero_positions_lt. fold M.
    apply randperm_nth_lt; auto.
    pose proof (slice_stop_bound M (K - 1)). fold m in H. lia. }
  unfold index_get. rewrite HX, Hd, Hsq. cbn [bind app].
  unfold cat. cbn [shape tabulate].
  destruct (list_eq_dec Nat.eq_dec [1] [1]) as [_|n]; [|congruence].
  assert (G : forall f : nat -> Q,
            match m with 0 | _ => Ok (tabulate [m + 1; 1] f) end
            = Ok (tabulate [m + 1; 1] f)) by (intros f; destruct m; reflexivity).
  rewrite G. clear G. eexists. split; [reflexivity|].
  split; [apply wf_tabulate|]. split; [cbn [shape tabulate]; f_equal; lia|].
  rewrite numel_1, Nat.mul_1_r. split.
  - intros i Hi. rewrite elt_tabulate by (rewrite numel_2; lia).
    destruct (Nat.ltb_spec i m); [|lia].
    rewrite elt_tabulate by (rewrite numel_2; lia).
    rewrite Nat.div_1_r, Nat.mod_1_r, Nat.mul_1_r, Nat.add_0_r. f_equal.
    rewrite elt_squeeze. unfold sel. cbn [shape tabulate app].
    rewrite elt_tabulate by (rewrite numel_2; lia).
    rewrite numel_1, Nat.div_1_r, Nat.mod_1_r, Nat.mul_1_r, Nat.add_0_r.
    rewrite elt_tabulate by (rewrite numel_1; lia). reflexivity.
  - rewrite elt_tabulate by (rewrite numel_2; lia).
    destruct (Nat.ltb_spec m m); [lia|]. rewrite Nat.sub_diag. reflexivity.
Qed.

Lemma forgy_initialization_nnz_cat X Xp K N d :
  valid_randperm randperm -> shape X = [N; d] -> numel (shape Xp) = N ->
  1 <= d -> d <> 1 \/ slice_stop (count_nonzero Xp) (K - 1) = 1 ->
  forgy_initialization_nnz randperm X Xp K = Raise CatError.
Proof.
  intros V HX HXp Hd1 Hm. unfold forgy_initialization_nnz.
  rewrite nonzero_view_flat. set (M := count_nonzero Xp) in *.
  set (m := slice_stop M (K - 1)) in *.
  cbn [len shape bind]. rewrite slice0_randperm. cbn [bind].
  change (zeros [1%Z; 1%Z]) with (Ok (tabulate [1; 1] (fun _ : nat => 0%Q))).
  cbn [bind]. unfold index_get at 1. cbn [shape data].
  fold m. rewrite forallb_tabulate_1.
  2:{ intros p Hp. apply Nat.ltb_lt, randperm_nth_lt; auto.
      pose proof (slice_stop_bound M (K - 1)). fold m in H. lia. }
  cbn [bind app].
  match goal with |- context [squeeze ?s] => set (sel := s) end.
  assert (Hsq : shape (squeeze sel) = if m =? 1 then [] else [m]).
  { unfold squeeze, sel. cbn [shape tabulate filter Nat.eqb negb app].
    destruct (m =? 1); reflexivity. }
  assert (Hd : forallb (fun i => i <? N) (data (squeeze sel)) = true).
  { apply forallb_forall. intros x Hx. unfold sel in Hx.
    cbn [squeeze data tabulate shape app] in Hx.
    apply in_map_iff in Hx as (p & <- & Hp). apply in_seq in Hp.
    rewrite numel_2, Nat.mul_1_r in Hp. apply Nat.ltb_lt.
    rewrite numel_1, Nat.div_1_r, Nat.mod_1_r, Nat.mul_1_r, Nat.add_0_r.
    rewrite elt_tabulate by (rewrite numel_1; lia).
    rewrite <- HXp. apply nonzero_positions_lt. fold M.
    apply randperm_nth_lt; auto.
    pose proof (slice_stop_bound M (K - 1)). fold m in H. lia. }
  unfold index_get. rewrite HX, Hd, Hsq. cbn [bind].
  unfold cat. cbn [shape tabulate].
  destruct (Nat.eqb_spec m 1) as [E|E]; cbn [app].
  - destruct d as [|d]; [lia|].
    destruct (list_eq_dec Nat.eq_dec [] [1]) as [E'|_]; [discriminate | reflexivity].
  - destruct Hm as [Hm|Hm]; [|contradiction].
    destruct (list_eq_dec Nat.eq_dec [d] [1]) as [E'|_]; [congruence|].
    destruct m; reflexivity.
Qed.

(** X5.  On one-feature data, when the number [m = min M (K-1)] of drawn
    rows is not 1 ([M] the number of non-zero entries of [Xp]),
    [forgy_initialization_nnz] returns an [(m+1) x 1] matrix: its first [m]
    entries are data points of [X] at pairwise distinct positions where [Xp]
    is non-zero, and its last entry is 0. *)
Theorem forgy_initialization_nnz_draws_nonzero_rows X Xp K N :
  valid_randperm randperm -> shape X = [N; 1] -> numel (shape Xp) = N ->
  (1 <= K)%Z -> Nat.min (count_nonzero Xp) (Z.to_nat (K - 1)) <> 1 ->
  exists c, forgy_initialization_nnz randperm X Xp K = Ok c
    /\ shape c = [S (Nat.min (count_nonzero Xp) (Z.to_nat (K - 1))); 1]
    /\ (forall i, i < Nat.min (count_nonzero Xp) (Z.to_nat (K - 1)) ->
          drawn_position randperm Xp i < N
          /\ qnonzero (elt Xp (drawn_position randperm Xp i)) = true
          /\ elt c i = elt X (drawn_position randperm Xp i)
          /\ forall j, j < i ->
               drawn_position randperm Xp j <> drawn_position randperm Xp i)
    /\ elt c (Nat.min (count_nonzero Xp) (Z.to_nat (K - 1))) = 0%Q.
Proof.
  intros V HX HXp HK Hm.
  assert (Es : slice_stop (count_nonzero Xp) (K - 1)
               = Nat.min (count_nonzero Xp) (Z.to_nat (K - 1))).
  { unfold slice_stop. destruct (Z.ltb_spec (K - 1) 0); [lia | reflexivity]. }
  rewrite <- Es in *.
  destruct (forgy_initialization_nnz_col X Xp K N V HX HXp Hm)
    as (c & Hc & _ & Hs & He & Hz).
  exists c. repeat split; auto.
  - rewrite <- HXp. apply drawn_position_nonzero; auto.
    pose proof (slice_stop_bound (count_nonzero Xp) (K - 1)). lia.
  - apply drawn_position_nonzero; auto.
    pose proof (slice_stop_bound (count_nonzero Xp) (K - 1)). lia.
  - intros j Hj E. apply drawn_position_inj in E; auto;
      pose proof (slice_stop_bound (count_nonzero Xp) (K - 1)); lia.
Qed.

(** X6.  On data with two or more features [forgy_initialization_nnz]
    always raises: the zero row it appends is the hard-coded [zeros(1, 1)],
    which [torch.cat] cannot join to rows of [d >= 2] entries.  So do
    [lloyd_nnz] and [lloyd_nnz_fixed_0_center], which call it first, for
    every [K], [tol] and [max_iter]. *)
Theorem nnz_initialization_rejects_several_features X Xp N d :
  valid_randperm randperm -> shape X = [N; d] -> numel (shape Xp) = N ->
  2 <= d ->
  forall K tol max_iter,
    forgy_initialization_nnz randperm X Xp K = Raise CatError
    /\ lloyd_nnz sqrt randperm X Xp K tol max_iter = Raise CatError
    /\ lloyd_nnz_fixed_0_center sqrt randperm X Xp K tol max_iter
       = Raise CatError.
Proof.
  intros V HX HXp Hd K tol max_iter.
  assert (G : forall K', forgy_initialization_nnz randperm X Xp K' = Raise CatError).
  { intros K'. apply (forgy_initialization_nnz_cat X Xp K' N d); auto; lia. }
  split; [apply G|]. split.
  - unfold lloyd_nnz, lloyd_nnz_locals. now rewrite G.
  - unfold lloyd_nnz_fixed_0_center, lloyd_nnz_fixed_0_center_locals.
    now rewrite G.
Qed.

(** X7.  On one-feature data, when exactly one row is drawn ([K = 2] with
    some non-zero entry, or a single non-zero entry with [K >= 2]),
    [forgy_initialization_nnz] raises: [squeeze()] turns the one index into
    a 0-d tensor, [X[idx0]] is then a vector, and [torch.cat] cannot join it
    to the [1 x 1] zero row.  So [lloyd_nnz] with [K] and
    [lloyd_nnz_fixed_0_center] with [K - 1] raise for every [max_iter]. *)
Theorem nnz_initialization_rejects_single_drawn_row X Xp K N :
  valid_randperm randperm -> shape X = [N; 1] -> numel (shape Xp) = N ->
  (2 <= K)%Z -> Nat.min (count_nonzero Xp) (Z.to_nat (K - 1)) = 1 ->
  forgy_initialization_nnz randperm X Xp K = Raise CatError
  /\ (forall tol max_iter,
        lloyd_nnz sqrt randperm X Xp K tol max_iter = Raise CatError)
  /\ (forall tol max_iter,
        lloyd_nnz_fixed_0_center sqrt randperm X Xp (K - 1) tol max_iter
        = Raise CatError).
Proof.
  intros V HX HXp HK Hm.
  assert (G : forgy_initialization_nnz randperm X Xp K = Raise CatError).
  { apply (forgy_initialization_nnz_cat X Xp K N 1); auto. right.
    unfold slice_stop. destruct (Z.ltb_spec (K - 1) 0); [lia | exact Hm]. }
  split; [exact G|]. split; intros tol max_iter.
  - unfold lloyd_nnz, lloyd_nnz_locals. now rewrite G.
  - unfold lloyd_nnz_fixed_0_center, lloyd_nnz_fixed_0_center_locals.
    replace (K - 1 + 1)%Z with K by lia. now rewrite G.
Qed.
End InitNnz.

Lemma forgy_initialization_nnz_draws_nonzero_rows_witness :
  exists c, forgy_initialization_nnz idperm weights5 mask5 3 = Ok c
    /\ shape c = [S (Nat.min (count_nonzero mask5) (Z.to_nat (3 - 1))); 1]
    /\ (forall i, i < Nat.min (count_nonzero mask5) (Z.to_nat (3 - 1)) ->
          drawn_position idperm mask5 i < 5
          /\ qnonzero (elt mask5 (drawn_position idperm mask5 i)) = true
          /\ elt c i = elt weights5 (drawn_position idperm mask5 i)
          /\ forall j, j < i ->
               drawn_position idperm mask5 j <> drawn_position idperm mask5 i)
    /\ elt c (Nat.min (count_nonzero mask5) (Z.to_nat (3 - 1))) = 0%Q.
Proof.
  apply (forgy_initialization_nnz_draws_nonzero_rows idperm weights5 mask5 3 5
           idperm_valid); [reflexivity | reflexivity | lia | vm_compute; lia].
Defined.

Lemma nnz_initialization_rejects_several_features_witness :
  forgy_initialization_nnz idperm pairs3 weights3 3 = Raise CatError
  /\ lloyd_nnz Qsqrt idperm pairs3 weights3 3 tol_default 20 = Raise CatError
  /\ lloyd_nnz_fixed_0_center Qsqrt idperm pairs3 weights3 3 tol_default 20
     = Raise CatError.
Proof.
  apply (nnz_initialization_rejects_several_features Qsqrt idperm pairs3
           weights3 3 2 idperm_valid); [reflexivity | reflexivity | lia].
Defined.

Lemma nnz_initialization_rejects_single_drawn_row_witness :
  forgy_initialization_nnz idperm weights3 weights3 2 = Raise CatError
  /\ (forall tol max_iter,
        lloyd_nnz Qsqrt idperm weights3 weights3 2 tol max_iter = Raise CatError)
  /\ (forall tol max_iter,
        lloyd_nnz_fixed_0_center Qsqrt idperm weights3 weights3 (2 - 1) tol
          max_iter = Raise CatError).
Proof.
  apply (nnz_initialization_rejects_single_drawn_row Qsqrt idperm weights3
           weights3 2 3 idperm_valid);
    [reflexivity | reflexivity | lia | vm_compute; reflexivity].
Defined.

Lemma map_elt_seq_eq (c X : tensor Q) a b r :
  (forall q, q < r -> elt c (a + q) = elt X (b + q)) ->
  map (elt c) (seq a r) = map (elt X) (seq b r).
Proof.
  revert a b. induction r as [|r IH]; intros a b E; [reflexivity|].
  cbn [seq map]. f_equal.
  - specialize (E 0 ltac:(lia)). now rewrite !Nat.add_0_r in E.
  - apply IH. intros q Hq. specialize (E (S q) ltac:(lia)).
    now rewrite <- !Nat.add_succ_comm in E.
Qed.

Section InitFixedNnz.
Variable sqrt : Q -> Q.
Variable randperm : nat -> list nat.

Lemma forgy_initialization_fixed_nnz_gen (X Xp : tensor Q) K N rest :
  valid_randperm randperm -> shape X = N :: rest -> numel (shape Xp) = N ->
  exists c, forgy_initialization_fixed_nnz randperm X Xp K = Ok c
    /\ wf c
    /\ shape c = (if slice_stop (count_nonzero Xp) (K - 1) =? 1 then []
                  else [slice_stop (count_nonzero Xp) (K - 1)]) ++ rest
    /\ forall p, p < slice_stop (count_nonzero Xp) (K - 1) * numel rest ->
         elt c p = elt X (drawn_position randperm Xp (p / numel rest) * numel rest
                          + p mod numel rest).
Proof.
  intros V HX HXp. unfold forgy_initialization_fixed_nnz.
  rewrite nonzero_view_flat. set (M := count_nonzero Xp) in *.
  set (m := slice_stop M (K - 1)) in *.
  assert (HmM : m <= M) by apply slice_stop_bound.
  cbn [len shape bind]. rewrite slice0_randperm. cbn [bind].
  unfold index_get at 1. cbn [shape data].
  fold m. rewrite forallb_tabulate_1.
  2:{ intros p Hp. apply Nat.ltb_lt, randperm_nth_lt; auto. lia. }
  cbn [bind app].
  match goal with |- context [squeeze ?s] => set (sel := s) end.
  assert (Hsq : shape (squeeze sel) = if m =? 1 then [] else [m]).
  { unfold squeeze, sel. cbn [shape tabulate filter Nat.eqb negb app].
    destruct (m =? 1); reflexivity. }
  assert (He : forall i, i < m -> elt (squeeze sel) i = drawn_position randperm Xp i).
  { intros i Hi. rewrite elt_squeeze. unfold sel. cbn [shape tabulate app].
    rewrite elt_tabulate by (rewrite numel_2; lia).
    rewrite numel_1, Nat.div_1_r, Nat.mod_1_r, Nat.mul_1_r, Nat.add_0_r.
    rewrite elt_tabulate by (rewrite numel_1; lia). reflexivity. }
  assert (Hd : forallb (fun i => i <? N) (data (squeeze sel)) = true).
  { apply forallb_forall. intros x Hx. unfold sel in Hx.
    cbn [squeeze data tabulate shape app] in Hx.
    apply in_map_iff in Hx as (p & <- & Hp). apply in_seq in Hp.
    rewrite numel_2, Nat.mul_1_r in Hp. apply Nat.ltb_lt.
    rewrite numel_1, Nat.div_1_r, Nat.mod_1_r, Nat.mul_1_r, Nat.add_0_r.
    rewrite elt_tabulate by (rewrite numel_1; lia).
    rewrite <- HXp. apply nonzero_positions_lt. fold M.
    apply randperm_nth_lt; auto. lia. }
  unfold index_get. rewrite HX, Hd, Hsq.
  eexists. split; [reflexivity|]. split; [apply wf_tabulate|].
  split; [reflexivity|].
  intros p Hp.
  assert (Hn : numel ((if m =? 1 then [] else [m]) ++ rest) = m * numel rest).
  { destruct (Nat.eqb_spec m 1) as [->|]; cbn [app numel fold_right];
      fold (numel rest); lia. }
  rewrite elt_tabulate by (now rewrite Hn).
  rewrite He; [reflexivity|]. now apply div_lt_mul.
Qed.

(** X8.  [forgy_initialization_fixed_nnz] returns the [m = min M (K-1)]
    drawn rows of [X], each at a position where [Xp] is non-zero, and no zero
    row; when exactly one row is drawn the result is that row alone, one
    dimension short (so a later [choose_centers] rejects it). *)
Theorem forgy_initialization_fixed_nnz_rows (X Xp : tensor Q) K N rest :
  valid_randperm randperm -> wf X -> shape X = N :: rest ->
  numel (shape Xp) = N -> (1 <= K)%Z ->
  exists c, forgy_initialization_fixed_nnz randperm X Xp K = Ok c
    /\ (Nat.min (count_nonzero Xp) (Z.to_nat (K - 1)) <> 1 ->
        shape c = Nat.min (count_nonzero Xp) (Z.to_nat (K - 1)) :: rest
        /\ forall i, i < Nat.min (count_nonzero Xp) (Z.to_nat (K - 1)) ->
             drawn_position randperm Xp i < N
             /\ qnonzero (elt Xp (drawn_position randperm Xp i)) = true
             /\ row c i = row X (drawn_position randperm Xp i))
    /\ (Nat.min (count_nonzero Xp) (Z.to_nat (K - 1)) = 1 ->
        shape c = rest /\ data c = row X (drawn_position randperm Xp 0)).
Proof.
  intros V W HX HXp HK.
  assert (Es : slice_stop (count_nonzero Xp) (K - 1)
               = Nat.min (count_nonzero Xp) (Z.to_nat (K - 1))).
  { unfold slice_stop. destruct (Z.ltb_spec (K - 1) 0); [lia | reflexivity]. }
  destruct (forgy_initialization_fixed_nnz_gen X Xp K N rest V HX HXp)
    as (c & Hc & Wc & Hs & He).
  rewrite Es in *. set (m := Nat.min (count_nonzero Xp) (Z.to_nat (K - 1))) in *.
  assert (Hdr : forall i, i < m ->
            drawn_position randperm Xp i < N
            /\ qnonzero (elt Xp (drawn_position randperm Xp i)) = true).
  { intros i Hi. rewrite <- HXp. apply drawn_position_nonzero; auto.
    unfold m in Hi. lia. }
  exists c. split; [exact Hc|]. split.
  - intros Hm. destruct (Nat.eqb_spec m 1); [contradiction|]. cbn [app] in Hs.
    split; [exact Hs|]. intros i Hi. destruct (Hdr i Hi) as [D1 D2].
    split; [exact D1|]. split; [exact D2|].
    rewrite (row_wf c m rest i Wc Hs Hi), (row_wf X N rest _ W HX D1).
    apply map_elt_seq_eq. intros q Hq. rewrite He by nia.
    now rewrite div_lin, mod_lin.
  - intros Hm. rewrite Hm in *. cbn [Nat.eqb app] in Hs. split; [exact Hs|].
    destruct (Hdr 0 ltac:(lia)) as [D1 _].
    rewrite (row_wf X N rest _ W HX D1).
    assert (Ed : data c = map (elt c) (seq 0 (numel rest))).
    { red in Wc. rewrite Hs in Wc.
      apply nth_ext with (d := 0%Q) (d' := elt c 0);
        [now rewrite length_map, length_seq|].
      intros q Hq. rewrite map_nth, seq_nth by lia. reflexivity. }
    rewrite Ed. apply map_elt_seq_eq. intros q Hq. cbn [Nat.add].
    rewrite He by lia. now rewrite Nat.div_small, Nat.mod_small.
Qed.

End InitFixedNnz.

Lemma forgy_initialization_fixed_nnz_rows_witness :
  exists c, forgy_initialization_fixed_nnz idperm weights5 mask5 3 = Ok c
    /\ (Nat.min (count_nonzero mask5) (Z.to_nat (3 - 1)) <> 1 ->
        shape c = Nat.min (count_nonzero mask5) (Z.to_nat (3 - 1)) :: [1]
        /\ forall i, i < Nat.min (count_nonzero mask5) (Z.to_nat (3 - 1)) ->
             drawn_position idperm mask5 i < 5
             /\ qnonzero (elt mask5 (drawn_position idperm mask5 i)) = true
             /\ row c i = row weights5 (drawn_position idperm mask5 i))
    /\ (Nat.min (count_nonzero mask5) (Z.to_nat (3 - 1)) = 1 ->
        shape c = [1] /\ data c = row weights5 (drawn_position idperm mask5 0)).
Proof.
  apply (forgy_initialization_fixed_nnz_rows idperm weights5 mask5 3 5 [1]
           idperm_valid); [reflexivity | reflexivity | reflexivity | lia].
Defined.

(** ** When the loops return *)

Lemma zeros_nonneg sizes t : zeros sizes = Ok t -> Forall (fun z => (0 <= z)%Z) sizes.
Proof.
  unfold zeros. destruct (forallb _ sizes) eqn:F; [|discriminate]. intros _.
  apply Forall_forall. intros z Hz. rewrite forallb_forall in F.
  apply Z.leb_le. now apply F.
Qed.

Lemma center_shift_ok_rows sqrt (c c' : tensor Q) a b s :
  shape c = [a; 1] -> shape c' = [b; 1] -> a <> 1 -> b <> 1 ->
  center_shift sqrt c c' = Ok s -> a = b.
Proof.
  intros H1 H2 Ha Hb H. destruct (Nat.eq_dec a b) as [E|E]; [exact E|].
  unfold center_shift, tsub, bop in H. rewrite H1, H2 in H.
  rewrite bshape_rows_mismatch in H by assumption. discriminate.
Qed.

Lemma iterate_first_pass sqrt step tol n st0 st :
  iterate sqrt step tol (S n) st0 = Ok st ->
  exists a1 c1 s, step (centers st0) = Ok (a1, c1)
    /\ center_shift sqrt c1 (centers st0) = Ok s.
Proof.
  cbn [iterate]. intros H. apply bind_ok in H as ([s1 sh] & H1 & _).
  unfold iteration in H1. apply bind_ok in H1 as ([a1 c1] & Hs & H1).
  apply bind_ok in H1 as (s & Hc & _). eauto.
Qed.

Section Domain.
Variable sqrt : Q -> Q.
Variable randperm : nat -> list nat.

(** X9.  On one-feature data [lloyd] returns a result exactly when
    [max_iter >= 1] and [2 <= K <= N]; in every other case it raises. *)
Theorem lloyd_returns_iff (X : tensor Q) K N tol max_iter :
  valid_randperm randperm -> shape X = [N; 1] ->
  (exists a c, lloyd sqrt randperm X K tol max_iter = Ok (a, c))
  <-> 1 <= max_iter /\ (2 <= K)%Z /\ (K <= Z.of_nat N)%Z.
Proof.
  intros V HX. split.
  - intros (a & c & H). unfold lloyd in H. apply bind_ok in H as (st & Hst & Hr).
    unfold lloyd_locals in Hst.
    apply bind_ok in Hst as (c0 & H0 & Hst).
    apply bind_ok in Hst as (N' & HN & Hst).
    apply bind_ok in Hst as (oh & Ho & Hst).
    apply bind_ok in Hst as (o & _ & Hst).
    unfold size0 in HN. rewrite HX in HN. injection HN as <-.
    destruct max_iter as [|n].
    { cbn [iterate] in Hst. injection Hst as <-. discriminate. }
    split; [lia|].
    pose proof (zeros_nonneg _ _ Ho) as Hz.
    apply Forall_inv_tail, Forall_inv in Hz.
    apply zeros_ok in Ho. cbn [map] in Ho. rewrite Nat2Z.id in Ho.
    destruct (forgy_initialization_rows randperm X K N [1] V HX)
      as (c0' & H0' & Hs0 & _).
    rewrite H0 in H0'. injection H0' as <-.
    apply iterate_first_pass in Hst as (a1 & c1 & s & Hm & Hcs).
    cbn [centers] in Hm, Hcs.
    destruct (m_step_col_inv X oh c0 N _ a1 c1 HX Ho Hm)
      as (K' & HK' & HN1 & HK2 & _ & _ & Hc1).
    rewrite Hs0 in HK'. injection HK' as HK'.
    assert (Es : slice_stop N K = Nat.min N (Z.to_nat K)).
    { unfold slice_stop. destruct (Z.ltb_spec K 0); [lia | reflexivity]. }
    assert (Hs1 : shape c1 = [Z.to_nat K; 1]) by (now rewrite Hc1).
    assert (E : Z.to_nat K = slice_stop N K)
      by (apply (center_shift_ok_rows sqrt c1 c0 _ _ s Hs1 Hs0); [lia | lia | exact Hcs]).
    lia.
  - intros (Hn & HK & HKN). destruct max_iter as [|n]; [lia|].
    destruct (lloyd_total_col sqrt randperm X K N tol n V HX HK HKN)
      as (a & c & H & _). eauto.
Qed.

Lemma lloyd_nnz_total_col (X Xp : tensor Q) K N tol n :
  valid_randperm randperm -> shape X = [N; 1] -> numel (shape Xp) = N ->
  (3 <= K)%Z -> (K - 1 <= Z.of_nat (count_nonzero Xp))%Z ->
  exists a c, lloyd_nnz sqrt randperm X Xp K tol (S n) = Ok (a, c)
    /\ shape a = [N] /\ shape c = [Z.to_nat K; 1].
Proof.
  intros V HX HXp HK HKM.
  pose proof (count_nonzero_le Xp) as HMN. rewrite HXp in HMN.
  assert (Es : slice_stop (count_nonzero Xp) (K - 1) = Z.to_nat (K - 1)).
  { unfold slice_stop. destruct (Z.ltb_spec (K - 1) 0); lia. }
  destruct (forgy_initialization_nnz_col randperm X Xp K N V HX HXp)
    as (c0 & Hc & _ & Hs & _); [lia|].
  rewrite Es in Hs. replace (S (Z.to_nat (K - 1))) with (Z.to_nat K) in Hs by lia.
  unfold lloyd_nnz, lloyd_nnz_locals, size0. rewrite Hc, HX. cbn [bind].
  unfold zeros, ones. cbn [forallb].
  destruct (Z.leb_spec 0 K); [|lia].
  destruct (Z.leb_spec 0 (Z.of_nat N)); [|lia]. cbn [andb bind map].
  rewrite Nat2Z.id.
  destruct (iterate_col sqrt X (tabulate [N; Z.to_nat K] (fun _ => 0%Q)) N
              (Z.to_nat K) tol HX eq_refl ltac:(lia) ltac:(lia) n
              (mkLocals None c0 None) Hs)
    as (st' & -> & Hc' & a & Ha & Hsa).
  cbn [bind]. unfold return_locals. rewrite Ha. eauto.
Qed.

(** X10.  On one-feature data [lloyd_nnz] returns a result exactly when
    [max_iter >= 1], [K >= 3] and [Xp] has at least [K - 1] non-zero entries:
    [K] counts the appended zero center, and a single drawn row is rejected
    by the initialization. *)
Theorem lloyd_nnz_returns_iff (X Xp : tensor Q) K N tol max_iter :
  valid_randperm randperm -> shape X = [N; 1] -> numel (shape Xp) = N ->
  (exists a c, lloyd_nnz sqrt randperm X Xp K tol max_iter = Ok (a, c))
  <-> 1 <= max_iter /\ (3 <= K)%Z /\ (K - 1 <= Z.of_nat (count_nonzero Xp))%Z.
Proof.
  intros V HX HXp. split.
  - intros (a & c & H). unfold lloyd_nnz in H.
    apply bind_ok in H as (st & Hst & Hr).
    unfold lloyd_nnz_locals in Hst.
    apply bind_ok in Hst as (c0 & H0 & Hst).
    apply bind_ok in Hst as (N' & HN & Hst).
    apply bind_ok in Hst as (oh & Ho & Hst).
    apply bind_ok in Hst as (o & _ & Hst).
    unfold size0 in HN. rewrite HX in HN. injection HN as <-.
    destruct max_iter as [|n].
    { cbn [iterate] in Hst. injection Hst as <-. discriminate. }
    split; [lia|].
    pose proof (zeros_nonneg _ _ Ho) as Hz.
    apply Forall_inv_tail, Forall_inv in Hz.
    apply zeros_ok in Ho. cbn [map] in Ho. rewrite Nat2Z.id in Ho.
    set (m := slice_stop (count_nonzero Xp) (K - 1)) in *.
    assert (Hm : m <> 1).
    { intros E.
      rewrite (forgy_initialization_nnz_cat randperm X Xp K N 1 V HX HXp) in H0;
        [discriminate | lia | now right]. }
    destruct (forgy_initialization_nnz_col randperm X Xp K N V HX HXp Hm)
      as (c0' & H0' & _ & Hs0 & _).
    rewrite H0 in H0'. injection H0' as <-. fold m in Hs0.
    apply iterate_first_pass in Hst as (a1 & c1 & s & Hstep & Hcs).
    cbn [centers] in Hstep, Hcs.
    destruct (m_step_col_inv X oh c0 N _ a1 c1 HX Ho Hstep)
      as (K' & HK' & HN1 & HK2 & _ & _ & Hc1).
    rewrite Hs0 in HK'. injection HK' as HK'.
    assert (Hs1 : shape c1 = [Z.to_nat K; 1]) by (now rewrite Hc1).
    assert (Hk1 : Z.to_nat K <> 1).
    { intros E1. assert (K = 1)%Z by lia. subst K.
      unfold m, slice_stop in HK'. cbn in HK'. lia. }
    assert (E : Z.to_nat K = S m)
      by (apply (center_shift_ok_rows sqrt c1 c0 _ _ s Hs1 Hs0); [lia | lia | exact Hcs]).
    unfold m, slice_stop in *. destruct (Z.ltb_spec (K - 1) 0); lia.
  - intros (Hn & HK & HKM). destruct max_iter as [|n]; [lia|].
    destruct (lloyd_nnz_total_col X Xp K N tol n V HX HXp HK HKM)
      as (a & c & H & _). eauto.
Qed.
End Domain.

Lemma lloyd_returns_iff_witness :
  (exists a c, lloyd Qsqrt idperm points3 2 tol_default 1 = Ok (a, c))
  <-> 1 <= 1 /\ (2 <= 2)%Z /\ (2 <= Z.of_nat 3)%Z.
Proof.
  apply (lloyd_returns_iff Qsqrt idperm points3 2 3 tol_default 1 idperm_valid).
  reflexivity.
Defined.

Lemma lloyd_nnz_returns_iff_witness :
  (exists a c, lloyd_nnz Qsqrt idperm weights5 mask5 3 tol_default 20 = Ok (a, c))
  <-> 1 <= 20 /\ (3 <= 3)%Z /\ (3 - 1 <= Z.of_nat (count_nonzero mask5))%Z.
Proof.
  apply (lloyd_nnz_returns_iff Qsqrt idperm weights5 mask5 3 5 tol_default 20
           idperm_valid); reflexivity.
Defined.

Lemma iterate_total sqrt step tol (P : tensor Q -> Prop) (k : nat) :
  (forall c, P c -> shape c = [k; 1]) ->
  (forall c, P c -> exists a c', step c = Ok (a, c') /\ P c') ->
  forall n st, P (centers st) ->
  exists st' a old, iterate sqrt step tol (S n) st = Ok st'
    /\ P (centers st')
    /\ choice_cluster st' = Some a /\ centers_old st' = Some old
    /\ P old /\ step old = Ok (a, centers st').
Proof.
  intros Hshape Hstep. induction n as [|n IH]; intros st HP.
  - destruct (Hstep _ HP) as (a & c' & E & HP').
    destruct (center_shift_same_shape sqrt c' (centers st) k
                (Hshape _ HP') (Hshape _ HP)) as (s & Hs).
    cbn [iterate]. unfold iteration. rewrite E. cbn [bind]. rewrite Hs.
    cbn [bind].
    exists (mkLocals (Some a) c' (Some (centers st))), a, (centers st).
    split; [now destruct (qltb _ _)|]. cbn. auto.
  - destruct (Hstep _ HP) as (a & c' & E & HP').
    destruct (center_shift_same_shape sqrt c' (centers st) k
                (Hshape _ HP') (Hshape _ HP)) as (s & Hs).
    change (iterate sqrt step tol (S (S n)) st)
      with ('(st', shift) <- iteration sqrt step st ;;
            if qltb (qmul shift shift) tol then Ok st'
            else iterate sqrt step tol (S n) st').
    unfold iteration. rewrite E. cbn [bind]. rewrite Hs. cbn [bind].
    destruct (qltb _ _).
    + exists (mkLocals (Some a) c' (Some (centers st))), a, (centers st).
      split; [reflexivity|]. cbn. auto.
    + apply IH. exact HP'.
Qed.

Lemma slice_stop_nat n k : k <= n -> slice_stop n (Z.of_nat k) = k.
Proof.
  intros H. unfold slice_stop. destruct (Z.ltb_spec (Z.of_nat k) 0); lia.
Qed.

Lemma fixed_0_step_col (X oh c : tensor Q) N k :
  shape X = [N; 1] -> shape oh = [N; S k] -> shape c = [S k; 1] ->
  2 <= N -> 1 <= k ->
  fixed_0_step X oh (Z.of_nat k) c
  = Ok (tabulate [N] (nearest X c (S k)),
        tabulate [S k; 1] (fun p =>
          if p <? k then new_center X (tabulate [N] (nearest X c (S k))) N p
          else elt c p)).
Proof.
  intros HX Ho Hc HN Hk. unfold fixed_0_step.
  rewrite (m_step_col X oh c N (S k) (S k) HX Ho Hc).
  destruct (Nat.eqb_spec N 1); [lia|]. destruct (Nat.ltb_spec (S k) 2); [lia|].
  cbn [orb]. cbv zeta. rewrite forallb_tabulate_1.
  2:{ intros p Hp. apply Nat.ltb_lt, nearest_lt. lia. }
  cbn [bind]. set (a := tabulate [N] (nearest X c (S k))).
  unfold slice0 at 1. cbn [shape bind].
  rewrite (slice_stop_nat (S k) k) by lia.
  unfold slice0_assign. rewrite Hc. rewrite (slice_stop_nat (S k) k) by lia.
  cbn [shape tabulate]. rewrite bshape_same.
  destruct (list_eq_dec Nat.eq_dec [k; 1] [k; 1]) as [_|ne]; [|congruence].
  cbn [bind]. do 2 f_equal. apply tabulate_ext. intros p Hp.
  rewrite numel_2, Nat.mul_1_r in *.
  destruct (Nat.ltb_spec p k) as [Hpk|Hpk]; [|reflexivity].
  unfold expand. rewrite elt_tabulate by (rewrite numel_2; lia).
  cbn [shape tabulate].
  replace p with (p * 1 + 0) at 1 by lia.
  rewrite unravel_2, bidx_same_2 by lia. rewrite Nat.mul_1_r, Nat.add_0_r.
  rewrite elt_tabulate by (rewrite numel_2; lia).
  change (elt (tabulate [S k] (new_center X a N)) p = new_center X a N p).
  apply elt_tabulate. rewrite numel_1. lia.
Qed.

Section Fixed0Total.
Variable sqrt : Q -> Q.
Variable randperm : nat -> list nat.

(** X12.  On one-feature data with [2 <= K <= M] ([M] non-zero entries of
    [Xp]) every call of [lloyd_nnz_fixed_0_center] with [max_iter >= 1]
    returns: an assignment of the [N] points to the clusters [0 .. K], and
    [K + 1] centers of which the last is 0, as is each of the first [K]
    whose cluster is empty. *)
Theorem lloyd_nnz_fixed_0_center_update_rule (X Xp : tensor Q) K N tol n :
  valid_randperm randperm -> shape X = [N; 1] -> numel (shape Xp) = N ->
  (2 <= K)%Z -> (K <= Z.of_nat (count_nonzero Xp))%Z ->
  exists a c,
    lloyd_nnz_fixed_0_center sqrt randperm X Xp K tol (S n) = Ok (a, c)
    /\ shape a = [N] /\ shape c = [S (Z.to_nat K); 1]
    /\ (forall i, i < N -> elt a i <= Z.to_nat K)
    /\ row c (Z.to_nat K) = [0%Q]
    /\ forall k, k < Z.to_nat K -> members a N k = [] -> row c k = [0%Q].
Proof.
  intros V HX HXp HK HKM.
  pose proof (count_nonzero_le Xp) as HMN. rewrite HXp in HMN.
  set (k := Z.to_nat K). assert (EK : K = Z.of_nat k) by lia.
  assert (Hk : 2 <= k) by lia.
  assert (Es : slice_stop (count_nonzero Xp) (K + 1 - 1) = k).
  { replace (K + 1 - 1)%Z with (Z.of_nat k) by lia. apply slice_stop_nat. lia. }
  destruct (forgy_initialization_nnz_col randperm X Xp (K + 1) N V HX HXp)
    as (c0 & Hc & _ & Hs & _ & Hz); [lia|].
  rewrite Es in Hs, Hz.
  unfold lloyd_nnz_fixed_0_center, lloyd_nnz_fixed_0_center_locals, size0.
  rewrite Hc, HX. cbn [bind]. unfold zeros, ones. cbn [forallb].
  destruct (Z.leb_spec 0 K); [|lia].
  destruct (Z.leb_spec 0 (K + 1)); [|lia].
  destruct (Z.leb_spec 0 (Z.of_nat N)); [|lia]. cbn [andb bind map].
  rewrite Nat2Z.id. replace (Z.to_nat (K + 1)) with (S k) by lia.
  set (oh := tabulate [N; S k] (fun _ => 0%Q)).
  set (P := fun c : tensor Q => shape c = [S k; 1] /\ elt c k = 0%Q).
  assert (Hstep : forall c, P c ->
            exists a c', fixed_0_step X oh K c = Ok (a, c') /\ P c').
  { intros c [Hcs Hcz]. rewrite EK.
    rewrite (fixed_0_step_col X oh c N k HX eq_refl Hcs) by lia.
    do 2 eexists. split; [reflexivity|]. split; [reflexivity|].
    rewrite elt_tabulate by (rewrite numel_2; lia).
    now rewrite Nat.ltb_irrefl. }
  destruct (iterate_total sqrt (fixed_0_step X oh K) tol P (S k)
              ltac:(intros c' [Hsh _]; exact Hsh) Hstep n (mkLocals None c0 None)
              (conj Hs Hz))
    as (st' & a & old & -> & _ & Ha & _ & [Hos Hoz] & Hlast).
  cbn [bind]. unfold return_locals. rewrite Ha.
  rewrite EK in Hlast.
  rewrite (fixed_0_step_col X oh old N k HX eq_refl Hos) in Hlast by lia.
  injection Hlast as Ea Ec. exists a, (centers st').
  split; [reflexivity|]. rewrite <- Ec, <- Ea.
  split; [reflexivity|]. split; [reflexivity|]. split; [|split].
  - intros i Hi. rewrite elt_tabulate by (now rewrite numel_1).
    pose proof (nearest_lt X old (S k) i). lia.
  - rewrite row_tabulate by lia. rewrite numel_1, Nat.mul_1_r. cbn [seq map].
    now rewrite Nat.ltb_irrefl, Hoz.
  - intros j Hj E. rewrite row_tabulate by lia.
    rewrite numel_1, Nat.mul_1_r. cbn [seq map].
    destruct (Nat.ltb_spec j k); [|lia].
    f_equal. now apply new_center_empty.
Qed.
End Fixed0Total.

Lemma lloyd_nnz_fixed_0_center_update_rule_witness :
  exists a c,
    lloyd_nnz_fixed_0_center Qsqrt idperm weights3 weights3 2 tol_default (S 19)
    = Ok (a, c)
    /\ shape a = [3] /\ shape c = [S (Z.to_nat 2); 1]
    /\ (forall i, i < 3 -> elt a i <= Z.to_nat 2)
    /\ row c (Z.to_nat 2) = [0%Q]
    /\ forall k, k < Z.to_nat 2 -> members a 3 k = [] -> row c k = [0%Q].
Proof.
  apply (lloyd_nnz_fixed_0_center_update_rule Qsqrt idperm weights3 weights3 2 3
           tol_default 19 idperm_valid);
    [reflexivity | reflexivity | lia | vm_compute; discriminate].
Defined.

Lemma forallb_nonzero_positions Xp :
  forallb (fun i => i <? numel (shape Xp)) (nonzero_positions Xp) = true.
Proof. apply forallb_filter_seq. Qed.

Section FixedNnzTotal.
Variable sqrt : Q -> Q.
Variable randperm : nat -> list nat.

Lemma lloyd_fixed_nnz_locals_col (X Xp : tensor Q) K N :
  valid_randperm randperm -> shape X = [N; 1] -> shape Xp = [N; 1] -> N <> 1 ->
  exists c0 Xnnz,
    forgy_initialization_fixed_nnz randperm X Xp K = Ok c0
    /\ shape c0 = (if slice_stop (count_nonzero Xp) (K - 1) =? 1 then []
                   else [slice_stop (count_nonzero Xp) (K - 1)]) ++ [1]
    /\ shape Xnnz = [count_nonzero Xp; 1]
    /\ (forall i, i < count_nonzero Xp ->
          elt Xnnz i = elt X (nth i (nonzero_positions Xp) 0))
    /\ forall tol max_iter,
         lloyd_fixed_nnz_locals sqrt randperm X Xp K tol max_iter
         = if (0 <=? K - 1)%Z
           then iterate sqrt
                  (m_step Xnnz (tabulate [count_nonzero Xp; Z.to_nat (K - 1)]
                                         (fun _ => 0%Q)))
                  tol max_iter (mkLocals None c0 None)
           else Raise SizeError.
Proof.
  intros V HX HXp HN.
  assert (Hnum : numel (shape Xp) = N) by (rewrite HXp, numel_2; lia).
  destruct (forgy_initialization_fixed_nnz_gen randperm X Xp K N [1] V HX Hnum)
    as (c0 & H0 & _ & Hs0 & _).
  assert (Hsq : shape (squeeze Xp) = [N]).
  { unfold squeeze. rewrite HXp. cbn [shape filter Nat.eqb negb].
    destruct (Nat.eqb_spec N 1); [contradiction | reflexivity]. }
  assert (Hnz : nonzero (squeeze Xp)
                = mkT [count_nonzero Xp; 1] (nonzero_positions Xp)).
  { rewrite nonzero_squeeze. unfold ndim. rewrite Hsq.
    now rewrite flat_map_unravel_1. }
  pose proof (forallb_nonzero_positions Xp) as Hf. rewrite Hnum in Hf.
  set (sel := tabulate ([count_nonzero Xp; 1] ++ [1]) (fun p =>
                elt X (elt (mkT [count_nonzero Xp; 1] (nonzero_positions Xp))
                           (p / numel [1]) * numel [1] + p mod numel [1]))).
  exists c0, (squeeze_last sel). split; [exact H0|]. split; [exact Hs0|].
  split; [reflexivity|]. split.
  - intros i Hi. rewrite elt_squeeze_last. unfold sel. cbn [app].
    rewrite elt_tabulate by (rewrite numel_3; lia).
    now rewrite numel_1, Nat.div_1_r, Nat.mod_1_r, Nat.mul_1_r, Nat.add_0_r.
  - intros tol max_iter. unfold lloyd_fixed_nnz_locals. rewrite H0. cbn [bind].
    rewrite Hnz. cbn [len shape bind]. unfold zeros, ones. cbn [forallb].
    destruct (Z.leb_spec 0 (Z.of_nat (count_nonzero Xp))); [|lia].
    destruct (Z.leb_spec 0 (K - 1)); cbn [andb bind map]; [|reflexivity].
    rewrite Nat2Z.id. unfold index_get. rewrite HX. cbn [data shape].
    rewrite Hf. cbn [bind]. reflexivity.
Qed.

Lemma lloyd_fixed_nnz_last_pass (X Xp : tensor Q) K N tol n :
  valid_randperm randperm -> shape X = [N; 1] -> shape Xp = [N; 1] ->
  (3 <= K)%Z -> (K - 1 <= Z.of_nat (count_nonzero Xp))%Z ->
  exists a c Xnnz oh old,
    lloyd_fixed_nnz sqrt randperm X Xp K tol (S n) = Ok (a, c)
    /\ shape Xnnz = [count_nonzero Xp; 1]
    /\ (forall i, i < count_nonzero Xp ->
          elt Xnnz i = elt X (nth i (nonzero_positions Xp) 0))
    /\ shape oh = [count_nonzero Xp; Z.to_nat (K - 1)]
    /\ shape c = [Z.to_nat (K - 1); 1]
    /\ m_step Xnnz oh old = Ok (a, c).
Proof.
  intros V HX HXp HK HKM.
  pose proof (count_nonzero_le Xp) as HMN. rewrite HXp, numel_2 in HMN.
  set (M := count_nonzero Xp) in *. set (k1 := Z.to_nat (K - 1)).
  assert (Hk1 : 2 <= k1) by lia. assert (HM : k1 <= M) by lia.
  destruct (lloyd_fixed_nnz_locals_col X Xp K N V HX HXp ltac:(lia))
    as (c0 & Xnnz & _ & Hs0 & Hsx & Hex & Hrun).
  fold M in Hs0, Hsx, Hex, Hrun.
  assert (Es : slice_stop M (K - 1) = k1).
  { unfold slice_stop. destruct (Z.ltb_spec (K - 1) 0); lia. }
  rewrite Es in Hs0. destruct (Nat.eqb_spec k1 1); [lia|]. cbn [app] in Hs0.
  unfold lloyd_fixed_nnz. rewrite Hrun.
  destruct (Z.leb_spec 0 (K - 1)); [|lia]. fold k1.
  set (oh := tabulate [M; k1] (fun _ => 0%Q)).
  assert (Hstep : forall c, shape c = [k1; 1] ->
            exists a c', m_step Xnnz oh c = Ok (a, c') /\ shape c' = [k1; 1]).
  { intros c Hc. rewrite (m_step_col Xnnz oh c M k1 k1 Hsx eq_refl Hc).
    destruct (Nat.eqb_spec M 1); [lia|]. destruct (Nat.ltb_spec k1 2); [lia|].
    cbn [orb]. cbv zeta. rewrite forallb_tabulate_1.
    2:{ intros p Hp. apply Nat.ltb_lt, nearest_lt. lia. }
    do 2 eexists. split; reflexivity. }
  destruct (iterate_total sqrt (m_step Xnnz oh) tol
              (fun c => shape c = [k1; 1]) k1 ltac:(auto) Hstep n
              (mkLocals None c0 None) Hs0)
    as (st' & a & old & -> & Hsc & Ha & _ & Hos & Hlast).
  cbn [bind]. unfold return_locals. rewrite Ha.
  exists a, (centers st'), Xnnz, oh, old. repeat split; auto.
Qed.

(** X13.  With [X] and [Xp] of shape [N x 1], [K >= 3] and at least [K - 1]
    non-zero entries of [Xp], every call of [lloyd_fixed_nnz] with
    [max_iter >= 1] returns: one cluster index below [K - 1] per non-zero
    entry of [Xp], and [K - 1] centers, of which each one whose cluster is
    empty is 0. *)
Theorem lloyd_fixed_nnz_update_rule (X Xp : tensor Q) K N tol n :
  valid_randperm randperm -> shape X = [N; 1] -> shape Xp = [N; 1] ->
  (3 <= K)%Z -> (K - 1 <= Z.of_nat (count_nonzero Xp))%Z ->
  exists a c, lloyd_fixed_nnz sqrt randperm X Xp K tol (S n) = Ok (a, c)
    /\ shape a = [count_nonzero Xp] /\ shape c = [Z.to_nat (K - 1); 1]
    /\ (forall i, i < count_nonzero Xp -> elt a i < Z.to_nat (K - 1))
    /\ forall k, k < Z.to_nat (K - 1) ->
         members a (count_nonzero Xp) k = [] -> row c k = [0%Q].
Proof.
  intros V HX HXp HK HKM.
  destruct (lloyd_fixed_nnz_last_pass X Xp K N tol n V HX HXp HK HKM)
    as (a & c & Xnnz & oh & old & H & Hsx & Hex & Ho & Hsc & Hlast).
  exists a, c. split; [exact H|].
  destruct (m_step_col_inv Xnnz oh old _ _ a c Hsx Ho Hlast)
    as (K' & _ & _ & _ & Hdef & Hlt & _).
  split; [now rewrite Hdef|]. split; [exact Hsc|]. split; [exact Hlt|].
  intros k Hk E.
  exact (m_step_empty_cluster Xnnz oh old _ _ a c k Hsx Ho Hlast Hk E).
Qed.

(** X14.  With [X] and [Xp] of shape [N x 1], [N >= 2], [lloyd_fixed_nnz]
    returns a result exactly when [max_iter >= 1], [K >= 3] and [Xp] has at
    least [K - 1] non-zero entries: it clusters into [K - 1] clusters. *)
Theorem lloyd_fixed_nnz_returns_iff (X Xp : tensor Q) K N tol max_iter :
  valid_randperm randperm -> shape X = [N; 1] -> shape Xp = [N; 1] -> 2 <= N ->
  (exists a c, lloyd_fixed_nnz sqrt randperm X Xp K tol max_iter = Ok (a, c))
  <-> 1 <= max_iter /\ (3 <= K)%Z /\ (K - 1 <= Z.of_nat (count_nonzero Xp))%Z.
Proof.
  intros V HX HXp HN. split.
  - intros (a & c & H). unfold lloyd_fixed_nnz in H.
    apply bind_ok in H as (st & Hst & Hr).
    destruct (lloyd_fixed_nnz_locals_col X Xp K N V HX HXp ltac:(lia))
      as (c0 & Xnnz & _ & Hs0 & Hsx & _ & Hrun).
    rewrite Hrun in Hst.
    destruct (Z.leb_spec 0 (K - 1)) as [HK0|]; [|discriminate].
    destruct max_iter as [|n].
    { cbn [iterate] in Hst. injection Hst as <-. discriminate. }
    split; [lia|].
    apply iterate_first_pass in Hst as (a1 & c1 & s & Hstep & Hcs).
    cbn [centers] in Hstep, Hcs.
    destruct (m_step_col_inv Xnnz
                (tabulate [count_nonzero Xp; Z.to_nat (K - 1)] (fun _ => 0%Q))
                c0 _ _ a1 c1 Hsx eq_refl Hstep)
      as (K' & HK' & _ & HK2 & _ & _ & Hc1).
    assert (Hs1 : shape c1 = [Z.to_nat (K - 1); 1]) by (now rewrite Hc1).
    assert (Es : slice_stop (count_nonzero Xp) (K - 1)
                 = Nat.min (count_nonzero Xp) (Z.to_nat (K - 1))).
    { unfold slice_stop. destruct (Z.ltb_spec (K - 1) 0); [lia | reflexivity]. }
    rewrite Es in Hs0.
    destruct (Nat.eqb_spec (Nat.min (count_nonzero Xp) (Z.to_nat (K - 1))) 1);
      cbn [app] in Hs0; rewrite Hs0 in HK'; [discriminate|].
    injection HK' as HK'.
    assert (E : Z.to_nat (K - 1) = Nat.min (count_nonzero Xp) (Z.to_nat (K - 1)))
      by (apply (center_shift_ok_rows sqrt c1 c0 _ _ s Hs1 Hs0);
          [lia | lia | exact Hcs]).
    lia.
  - intros (Hn & HK & HKM). destruct max_iter as [|n]; [lia|].
    destruct (lloyd_fixed_nnz_last_pass X Xp K N tol n V HX HXp HK HKM)
      as (a & c & _ & _ & _ & H & _). eauto.
Qed.
End FixedNnzTotal.

Lemma lloyd_fixed_nnz_update_rule_witness :
  exists a c, lloyd_fixed_nnz Qsqrt idperm weights5 mask5 3 tol_default (S 19)
              = Ok (a, c)
    /\ shape a = [count_nonzero mask5] /\ shape c = [Z.to_nat (3 - 1); 1]
    /\ (forall i, i < count_nonzero mask5 -> elt a i < Z.to_nat (3 - 1))
    /\ forall k, k < Z.to_nat (3 - 1) ->
         members a (count_nonzero mask5) k = [] -> row c k = [0%Q].
Proof.
  apply (lloyd_fixed_nnz_update_rule Qsqrt idperm weights5 mask5 3 5
           tol_default 19 idperm_valid);
    [reflexivity | reflexivity | lia | vm_compute; discriminate].
Defined.

Lemma lloyd_fixed_nnz_returns_iff_witness :
  (exists a c, lloyd_fixed_nnz Qsqrt idperm weights5 mask5 3 tol_default 20
               = Ok (a, c))
  <-> 1 <= 20 /\ (3 <= 3)%Z /\ (3 - 1 <= Z.of_nat (count_nonzero mask5))%Z.
Proof.
  apply (lloyd_fixed_nnz_returns_iff Qsqrt idperm weights5 mask5 3 5
           tol_default 20 idperm_valid); [reflexivity | reflexivity | lia].
Defined.

Section NnzUpdate.
Variable sqrt : Q -> Q.
Variable randperm : nat -> list nat.

Lemma lloyd_nnz_last_pass (X Xp : tensor Q) K tol max_iter a c N :
  shape X = [N; 1] ->
  lloyd_nnz sqrt randperm X Xp K tol max_iter = Ok (a, c) ->
  exists oh old, shape oh = [N; Z.to_nat K] /\ m_step X oh old = Ok (a, c).
Proof.
  intros HX H. unfold lloyd_nnz in H. apply bind_ok in H as (st & Hst & Hr).
  apply return_locals_ok in Hr as [Ha <-].
  unfold lloyd_nnz_locals in Hst.
  apply bind_ok in Hst as (c0 & _ & Hst).
  apply bind_ok in Hst as (N' & HN & Hst).
  apply bind_ok in Hst as (oh & Ho & Hst).
  apply bind_ok in Hst as (o & _ & Hst).
  unfold size0 in HN. rewrite HX in HN. injection HN as <-.
  apply zeros_ok in Ho. cbn [map] in Ho. rewrite Nat2Z.id in Ho.
  apply iterate_last_step in Hst. unfold last_step in Hst. rewrite Ha in Hst.
  destruct (centers_old st) as [old|]; [|contradiction].
  exists oh, old. auto.
Qed.

(** X11.  Whenever [lloyd_nnz] returns on one-feature data, the assignment
    has one cluster index below [K] per point, the centers are a [K x 1]
    matrix, and every center whose cluster is empty is 0. *)
Theorem lloyd_nnz_update_rule (X Xp : tensor Q) K tol max_iter a c N :
  shape X = [N; 1] ->
  lloyd_nnz sqrt randperm X Xp K tol max_iter = Ok (a, c) ->
  shape a = [N] /\ shape c = [Z.to_nat K; 1]
  /\ (forall i, i < N -> elt a i < Z.to_nat K)
  /\ forall k, k < Z.to_nat K -> members a N k = [] -> row c k = [0%Q].
Proof.
  intros HX H.
  destruct (lloyd_nnz_last_pass X Xp K tol max_iter a c N HX H)
    as (oh & old & Ho & Hm).
  destruct (m_step_col_inv X oh old N _ a c HX Ho Hm)
    as (K' & _ & _ & _ & Hdef & Hlt & Hc).
  split; [now rewrite Hdef|]. split; [now rewrite Hc|]. split; [exact Hlt|].
  intros k Hk E.
  exact (m_step_empty_cluster X oh old N _ a c k HX Ho Hm Hk E).
Qed.
End NnzUpdate.

Lemma lloyd_nnz_update_rule_witness :
  shape (mkT [5] [0; 0; 1; 2; 2]) = [5]
  /\ shape (mkT [3; 1] [3 # 2; 9; 0]%Q) = [Z.to_nat 3; 1]
  /\ (forall i, i < 5 -> elt (mkT [5] [0; 0; 1; 2; 2]) i < Z.to_nat 3)
  /\ forall k, k < Z.to_nat 3 ->
       members (mkT [5] [0; 0; 1; 2; 2]) 5 k = [] ->
       row (mkT [3; 1] [3 # 2; 9; 0]%Q) k = [0%Q].
Proof.
  apply (lloyd_nnz_update_rule Qsqrt idperm weights5 mask5 3 tol_default 20
           (mkT [5] [0; 0; 1; 2; 2]) (mkT [3; 1] [3 # 2; 9; 0]%Q) 5).
  - reflexivity.
  - vm_compute; reflexivity.
Defined.

Section ZeroIterations.
Variable sqrt : Q -> Q.
Variable randperm : nat -> list nat.

Lemma index_get_ok_size0 {A} `{Zero A} (t : tensor A) idx r :
  index_get t idx = Ok r -> exists n, size0 t = Ok n.
Proof.
  intros E. apply index_get_ok in E as (n0 & rest & Hs & _).
  unfold size0. rewrite Hs. eauto.
Qed.

Lemma forgy_initialization_nnz_size0 X Xp K c0 :
  forgy_initialization_nnz randperm X Xp K = Ok c0 -> exists n, size0 X = Ok n.
Proof.
  unfold forgy_initialization_nnz. intros H.
  apply bind_ok in H as (n & _ & H).
  apply bind_ok in H as (indices & _ & H).
  apply bind_ok in H as (zero_el & _ & H).
  apply bind_ok in H as (sel & _ & H).
  apply bind_ok in H as (rows & Hr & _).
  now apply index_get_ok_size0 in Hr.
Qed.

(** X15.  With [max_iter=0] none of [lloyd_nnz],
    [lloyd_nnz_fixed_0_center] and [lloyd_fixed_nnz] returns: the loop body
    never binds [choice_cluster], and the [return] raises (UnboundLocalError
    once the initialization succeeded and the sizes are non-negative). *)
Theorem nnz_variants_zero_iterations_raise (X Xp : tensor Q) (K : Z) (tol : Q) :
  raises (lloyd_nnz sqrt randperm X Xp K tol 0)
  /\ raises (lloyd_nnz_fixed_0_center sqrt randperm X Xp K tol 0)
  /\ raises (lloyd_fixed_nnz sqrt randperm X Xp K tol 0)
  /\ (forall c0, forgy_initialization_nnz randperm X Xp K = Ok c0 ->
        (0 <= K)%Z ->
        lloyd_nnz sqrt randperm X Xp K tol 0 = Raise UnboundLocalError)
  /\ (forall c0, forgy_initialization_nnz randperm X Xp (K + 1) = Ok c0 ->
        (0 <= K)%Z ->
        lloyd_nnz_fixed_0_center sqrt randperm X Xp K tol 0
        = Raise UnboundLocalError).
Proof.
  split; [|split; [|split; [|split]]].
  - unfold raises, lloyd_nnz, lloyd_nnz_locals.
    destruct (forgy_initialization_nnz randperm X Xp K); cbn [bind]; [|eauto].
    destruct (size0 X); cbn [bind]; [|eauto].
    destruct (zeros _); cbn [bind]; [|eauto].
    destruct (ones _); cbn [bind iterate return_locals choice_cluster]; eauto.
  - unfold raises, lloyd_nnz_fixed_0_center, lloyd_nnz_fixed_0_center_locals.
    destruct (forgy_initialization_nnz randperm X Xp (K + 1)); cbn [bind]; [|eauto].
    destruct (size0 X); cbn [bind]; [|eauto].
    destruct (zeros _); cbn [bind]; [|eauto].
    destruct (ones _); cbn [bind iterate return_locals choice_cluster]; eauto.
  - unfold raises, lloyd_fixed_nnz, lloyd_fixed_nnz_locals.
    destruct (forgy_initialization_fixed_nnz randperm X Xp K); cbn [bind]; [|eauto].
    destruct (len _); cbn [bind]; [|eauto].
    destruct (zeros _); cbn [bind]; [|eauto].
    destruct (ones _); cbn [bind]; [|eauto].
    destruct (index_get _ _);
      cbn [bind iterate return_locals choice_cluster]; eauto.
  - intros c0 H0 HK. destruct (forgy_initialization_nnz_size0 _ _ _ _ H0) as (n & Hn).
    unfold lloyd_nnz, lloyd_nnz_locals. rewrite H0, Hn. cbn [bind].
    unfold zeros, ones. cbn [forallb].
    destruct (Z.leb_spec 0 K); [|lia].
    destruct (Z.leb_spec 0 (Z.of_nat n)); [|lia]. reflexivity.
  - intros c0 H0 HK. destruct (forgy_initialization_nnz_size0 _ _ _ _ H0) as (n & Hn).
    unfold lloyd_nnz_fixed_0_center, lloyd_nnz_fixed_0_center_locals.
    rewrite H0, Hn. cbn [bind]. unfold zeros, ones. cbn [forallb].
    destruct (Z.leb_spec 0 K); [|lia].
    destruct (Z.leb_spec 0 (K + 1)); [|lia].
    destruct (Z.leb_spec 0 (Z.of_nat n)); [|lia]. reflexivity.
Qed.
End ZeroIterations.

Lemma nnz_variants_zero_iterations_raise_witness :
  forgy_initialization_nnz idperm weights5 mask5 3 = Ok (mkT [3; 1] [1; 2; 0]%Q)
  /\ lloyd_nnz Qsqrt idperm weights5 mask5 3 tol_default 0
     = Raise UnboundLocalError
  /\ lloyd_nnz_fixed_0_center Qsqrt idperm weights5 mask5 2 tol_default 0
     = Raise UnboundLocalError.
Proof.
  split; [vm_compute; reflexivity|]. split.
  - apply (proj1 (proj2 (proj2 (proj2
             (nnz_variants_zero_iterations_raise Qsqrt idperm weights5 mask5 3
                tol_default)))) (mkT [3; 1] [1; 2; 0]%Q));
      [vm_compute; reflexivity | lia].
  - apply (proj2 (proj2 (proj2 (proj2
             (nnz_variants_zero_iterations_raise Qsqrt idperm weights5 mask5 2
                tol_default)))) (mkT [3; 1] [1; 2; 0]%Q));
      [vm_compute; reflexivity | lia].
Defined.

(** ** The breaking condition *)

Lemma iterate_converged_stable sqrt step tol : forall n st0 st,
  iterate sqrt step tol (S n) st0 = Ok st -> converged sqrt tol st = true ->
  forall k, iterate sqrt step tol (S n + k) st0 = Ok st.
Proof.
  induction n as [|n IH]; intros st0 st H Hc k.
  - cbn [iterate] in H. apply bind_ok in H as ([st1 sh] & H1 & H).
    assert (E : st = st1) by (destruct (qltb _ _); now injection H as <-).
    subst st1. cbn [Nat.add iterate]. rewrite H1. cbn [bind].
    unfold iteration in H1. apply bind_ok in H1 as ([a c] & _ & H1).
    apply bind_ok in H1 as (s & Hs & H1). injection H1 as <- <-.
    unfold converged in Hc. cbn [centers_old centers] in Hc.
    rewrite Hs in Hc. now rewrite Hc.
  - change (iterate sqrt step tol (S (S n)) st0)
      with ('(st', shift) <- iteration sqrt step st0 ;;
            if qltb (qmul shift shift) tol then Ok st'
            else iterate sqrt step tol (S n) st') in H.
    change (iterate sqrt step tol (S (S n) + k) st0)
      with ('(st', shift) <- iteration sqrt step st0 ;;
            if qltb (qmul shift shift) tol then Ok st'
            else iterate sqrt step tol (S n + k) st').
    apply bind_ok in H as ([st1 sh] & H1 & H). rewrite H1. cbn [bind].
    destruct (qltb (qmul sh sh) tol); [exact H|]. now apply IH.
Qed.

Section Stable.
Variable sqrt : Q -> Q.
Variable randperm : nat -> list nat.

Ltac stable_loop :=
  let H := fresh "H" in
  let Hc := fresh "Hc" in
  let Hi := fresh "Hi" in
  intros [|n] st H Hc n' Hn;
  repeat (apply bind_ok in H as (? & Hi & H); rewrite Hi; cbn [bind]; clear Hi);
  [ cbn [iterate] in H; injection H as <-; discriminate Hc
  | replace n' with (S n + (n' - S n)) by lia;
    now apply iterate_converged_stable ].

(** X16.  [max_iter] is only an upper bound.  In each of the four loops,
    once a run has ended in a pass that met the breaking condition
    [center_shift ** 2 < tol], every larger [max_iter] leaves the same
    locals, hence returns the same assignment and centers. *)
Theorem converged_run_is_stable (X Xp : tensor Q) (K : Z) (tol : Q) :
  stable_run sqrt tol (lloyd_locals sqrt randperm X K tol)
  /\ stable_run sqrt tol (lloyd_nnz_locals sqrt randperm X Xp K tol)
  /\ stable_run sqrt tol (lloyd_nnz_fixed_0_center_locals sqrt randperm X Xp K tol)
  /\ stable_run sqrt tol (lloyd_fixed_nnz_locals sqrt randperm X Xp K tol).
Proof.
  split; [|split; [|split]].
  - unfold lloyd_locals. stable_loop.
  - unfold lloyd_nnz_locals. stable_loop.
  - unfold lloyd_nnz_fixed_0_center_locals. stable_loop.
  - unfold lloyd_fixed_nnz_locals. stable_loop.
Qed.
End Stable.

Lemma converged_run_is_stable_witness :
  lloyd_locals Qsqrt idperm points3 2 tol_default 20
  = Ok (mkLocals (Some (mkT [3] [0; 0; 1])) (mkT [2; 1] [1 # 2; 10]%Q)
                 (Some (mkT [2; 1] [1 # 2; 10]%Q))).
Proof.
  apply (proj1 (converged_run_is_stable Qsqrt idperm points3 points3 2
                  tol_default) 3);
    [vm_compute; reflexivity | vm_compute; reflexivity | lia].
Defined.

(** ** The last center of [lloyd_nnz_fixed_0_center] *)

Section Fixed0Last.
Variable sqrt : Q -> Q.
Variable randperm : nat -> list nat.

(** C5 (amended).  When [Xp] has at least [K] non-zero entries, so that [K]
    rows are drawn and the appended zero row is the [(K+1)]-th center, the
    centers that [lloyd_nnz_fixed_0_center] returns have [K + 1] rows and the
    last one is identical to its initial value, the zero row, whatever the
    number of passes: the loop writes rows [0 .. K-1] only. *)
Theorem fixed_0_center_last_center_frozen X Xp K N tol max_iter a c :
  valid_randperm randperm -> shape X = [N; 1] -> numel (shape Xp) = N ->
  (0 <= K)%Z -> (K <= Z.of_nat (count_nonzero Xp))%Z ->
  lloyd_nnz_fixed_0_center sqrt randperm X Xp K tol max_iter = Ok (a, c) ->
  exists c0, forgy_initialization_nnz randperm X Xp (K + 1) = Ok c0
    /\ shape c0 = [S (Z.to_nat K); 1] /\ shape c = [S (Z.to_nat K); 1]
    /\ row c (Z.to_nat K) = row c0 (Z.to_nat K)
    /\ row c0 (Z.to_nat K) = [0%Q].
Proof.
  intros V HX HXp HK HKM H. unfold lloyd_nnz_fixed_0_center in H.
  apply bind_ok in H as (st & Hst & Hr).
  apply return_locals_ok in Hr as [_ <-].
  destruct (lloyd_nnz_fixed_0_center_frozen sqrt randperm _ _ _ _ _ _ HK Hst)
    as (c0 & H0 & W0 & Fz).
  assert (Es : slice_stop (count_nonzero Xp) (K + 1 - 1) = Z.to_nat K).
  { replace (K + 1 - 1)%Z with (Z.of_nat (Z.to_nat K)) by lia.
    apply slice_stop_nat. lia. }
  assert (Hm : slice_stop (count_nonzero Xp) (K + 1 - 1) <> 1).
  { intros E.
    rewrite (forgy_initialization_nnz_cat randperm X Xp (K + 1) N 1 V HX HXp)
      in H0; [discriminate | lia | now right]. }
  destruct (forgy_initialization_nnz_col randperm X Xp (K + 1) N V HX HXp Hm)
    as (c0' & H0' & _ & Hs & _ & Hz).
  rewrite H0 in H0'. injection H0' as <-. rewrite Es in Hs, Hz.
  exists c0. split; [exact H0|]. split; [exact Hs|].
  split; [destruct Fz as (_ & -> & _); exact Hs|].
  split; [apply (frozen_row (Z.to_nat K)); auto|].
  rewrite (row_wf c0 _ [1] _ W0 Hs) by lia.
  rewrite numel_1, Nat.mul_1_r. cbn [seq map]. now rewrite Hz.
Qed.
End Fixed0Last.

Lemma fixed_0_center_last_center_frozen_witness :
  lloyd_nnz_fixed_0_center Qsqrt idperm points_near_zero points_near_zero 2
    tol_default 20
  = Ok (mkT [3] [0; 1; 2], mkT [3; 1] [5; 9; 0]%Q)
  /\ lloyd_nnz Qsqrt idperm points_near_zero points_near_zero 3 tol_default 20
     = Ok (mkT [3] [0; 1; 2], mkT [3; 1] [5; 9; 1]%Q)
  /\ exists c0,
       forgy_initialization_nnz idperm points_near_zero points_near_zero (2 + 1)
       = Ok c0
       /\ shape c0 = [S (Z.to_nat 2); 1]
       /\ shape (mkT [3; 1] [5; 9; 0]%Q) = [S (Z.to_nat 2); 1]
       /\ row (mkT [3; 1] [5; 9; 0]%Q) (Z.to_nat 2) = row c0 (Z.to_nat 2)
       /\ row c0 (Z.to_nat 2) = [0%Q].
Proof.
  split; [vm_compute; reflexivity|]. split; [vm_compute; reflexivity|].
  apply (fixed_0_center_last_center_frozen Qsqrt idperm points_near_zero
           points_near_zero 2 3 tol_default 20 (mkT [3] [0; 1; 2]) _
           idperm_valid).
  - reflexivity.
  - reflexivity.
  - lia.
  - vm_compute; discriminate.
  - vm_compute; reflexivity.
Defined.

(** C5, as stated, fails: with exactly [K - 1 = 3] non-zero entries of [Xp]
    the initialization draws three rows, the appended zero row is center 3
    of 4, and the first pass overwrites it with 1/2, the mean of the points
    0 and 1 assigned to it; no fifth center exists. *)
Lemma fixed_0_center_zero_row_overwritten :
  count_nonzero mask3of5 = 3
  /\ forgy_initialization_nnz idperm points5 mask3of5 (4 + 1)
     = Ok (mkT [4; 1] [4; 8; 16; 0]%Q)
  /\ lloyd_nnz_fixed_0_center Qsqrt idperm points5 mask3of5 4 tol_default 1
     = Ok (mkT [5] [0; 1; 2; 3; 3], mkT [4; 1] [4; 8; 16; 1 # 2]%Q)
  /\ row (mkT [4; 1] [4; 8; 16; 1 # 2]%Q) 3 = [(1 # 2)%Q]
  /\ row (mkT [4; 1] [4; 8; 16; 0]%Q) 3 = [0%Q]
  /\ row (mkT [4; 1] [4; 8; 16; 1 # 2]%Q) 3 <> row (mkT [4; 1] [4; 8; 16; 0]%Q) 3
  /\ row (mkT [4; 1] [4; 8; 16; 1 # 2]%Q) (Z.to_nat 4) = [].
Proof.
  split; [reflexivity|]. split; [vm_compute; reflexivity|].
  split; [vm_compute; reflexivity|]. split; [reflexivity|].
  split; [reflexivity|]. split; [vm_compute; discriminate | reflexivity].
Qed.

(** ** Facts that hold in every arithmetic *)

Section AnyArithmetic.
Context {F : Type} (ar : arith F).
Variable randperm : nat -> list nat.
Hypothesis order : strict_weak_order (f_before ar).

Lemma first_least_fold (f : nat -> F) : forall cnt a b,
  b < a ->
  (forall j, j < a -> f_before ar (f j) (f b) = false) ->
  (forall j, j < b -> f_before ar (f b) (f j) = true) ->
  let r := fold_left (AnyFloat.argmin_step ar f) (seq a cnt) b in
  r < a + cnt
  /\ (forall j, j < a + cnt -> f_before ar (f j) (f r) = false)
  /\ (forall j, j < r -> f_before ar (f r) (f j) = true).
Proof.
  destruct order as (Irr & Tr & NTr).
  induction cnt as [|cnt IH]; intros a b Hb Hle Hlt; simpl.
  - rewrite Nat.add_0_r. auto.
  - remember (AnyFloat.argmin_step ar f b a) as b' eqn:Hb'.
    unfold AnyFloat.argmin_step in Hb'.
    destruct (f_before ar (f a) (f b)) eqn:E; subst b'.
    + destruct (IH (S a) a) as (R1 & R2 & R3); try lia.
      * intros j Hj. destruct (Nat.eq_dec j a) as [->|]; [apply Irr|].
        destruct (f_before ar (f j) (f a)) eqn:E'; [|reflexivity].
        rewrite <- (Hle j ltac:(lia)). symmetry. now apply (Tr _ (f a)).
      * intros j Hj.
        destruct (f_before ar (f a) (f j)) eqn:E'; [reflexivity|].
        rewrite <- E. symmetry. apply (NTr _ (f j)); [exact E' | apply Hle; lia].
      * repeat split; [lia | intros; apply R2; lia | exact R3].
    + destruct (IH (S a) b) as (R1 & R2 & R3); try lia.
      * intros j Hj. destruct (Nat.eq_dec j a) as [->|]; [exact E | apply Hle; lia].
      * exact Hlt.
      * repeat split; [lia | intros; apply R2; lia | exact R3].
Qed.

Lemma first_least (f : nat -> F) n : 0 < n ->
  AnyFloat.argmin_fn ar f n < n
  /\ (forall j, j < n -> f_before ar (f j) (f (AnyFloat.argmin_fn ar f n)) = false)
  /\ (forall j, j < AnyFloat.argmin_fn ar f n ->
        f_before ar (f (AnyFloat.argmin_fn ar f n)) (f j) = true).
Proof.
  intros Hn. unfold AnyFloat.argmin_fn.
  destruct (first_least_fold f (n - 1) 1 0) as (R1 & R2 & R3); try lia.
  - intros j Hj. replace j with 0 by lia. apply order.
  - replace (1 + (n - 1)) with n in * by lia. auto.
Qed.

Lemma nearest_eq X C K i :
  AnyFloat.nearest ar X C K i
  = AnyFloat.argmin_fn ar
      (fun k => AnyFloat.sq_diff ar (AnyFloat.entry ar X i) (AnyFloat.entry ar C k)) K.
Proof. reflexivity. Qed.

Lemma any_argmin_fn_ext (f g : nat -> F) n :
  (forall j, j < n -> f j = g j) ->
  AnyFloat.argmin_fn ar f n = AnyFloat.argmin_fn ar g n.
Proof.
  intros E. unfold AnyFloat.argmin_fn.
  destruct n as [|n]; [reflexivity|]. simpl. rewrite Nat.sub_0_r.
  assert (G : forall cnt a b, b < a -> a + cnt <= S n ->
            fold_left (AnyFloat.argmin_step ar f) (seq a cnt) b
            = fold_left (AnyFloat.argmin_step ar g) (seq a cnt) b).
  { induction cnt as [|cnt IH]; intros a b Hb Hl; cbn [seq fold_left];
      [reflexivity|].
    assert (Es : AnyFloat.argmin_step ar f b a = AnyFloat.argmin_step ar g b a)
      by (unfold AnyFloat.argmin_step; now rewrite (E a), (E b) by lia).
    rewrite Es. apply IH; [|lia].
    unfold AnyFloat.argmin_step. destruct (f_before ar (g a) (g b)); lia. }
  apply G; lia.
Qed.

Lemma any_elt_tmap (g : F -> F) (t : tensor F) p :
  p < length (data t) ->
  @elt F (AnyFloat.Zero_F ar) (tmap g t) p = g (@elt F (AnyFloat.Zero_F ar) t p).
Proof.
  intros Hp. unfold elt, tmap. cbn [data].
  rewrite nth_indep with (d' := g (f_zero ar)) by (now rewrite length_map).
  exact (map_nth g (data t) (f_zero ar) p).
Qed.

Lemma any_choose_centers_col (X C : tensor F) N K :
  shape X = [N; 1] -> shape C = [K; 1] ->
  AnyFloat.choose_centers ar X C =
    if (N =? 1) || (K <? 2) then Raise IndexError
    else Ok (tabulate [N] (AnyFloat.nearest ar X C K)).
Proof.
  intros HX HC. unfold AnyFloat.choose_centers, ndim. rewrite HX, HC.
  cbn [length Nat.eqb andb py_assert bind nth].
  unfold transpose10. rewrite HC. cbn [bind].
  rewrite unsqueeze_0, unsqueeze_m1. cbn [bind]. rewrite HX.
  unfold AnyFloat.tsub, AnyFloat.bop. cbn [shape app tabulate].
  rewrite bshape_col_row. cbn [bind].
  unfold AnyFloat.argmin_dim1, squeeze at 1.
  cbn [shape AnyFloat.pow2 tmap tabulate filter].
  change (negb (1 =? 1)) with false. cbn iota.
  destruct (Nat.eqb_spec N 1) as [E1|E1].
  - cbn [negb orb]. destruct (negb (K =? 1)); reflexivity.
  - cbn [negb orb]. destruct (Nat.ltb_spec K 2) as [E2|E2].
    + destruct K as [|[|K]]; [reflexivity | reflexivity | lia].
    + destruct (Nat.eqb_spec K 1) as [E3|E3]; [lia|]. cbn [negb].
      destruct (Nat.eqb_spec K 0) as [E4|E4]; [lia|].
      f_equal. apply tabulate_ext. intros i Hi. rewrite numel_1 in Hi.
      rewrite nearest_eq. apply any_argmin_fn_ext. intros k Hk.
      cbn [numel fold_right]. rewrite Nat.div_1_r, Nat.mod_1_r, Nat.mul_1_r, Nat.add_0_r.
      rewrite elt_squeeze. unfold AnyFloat.pow2.
      rewrite any_elt_tmap
        by (cbn [tabulate data]; rewrite length_map, length_seq, numel_3; nia).
      rewrite elt_tabulate by (rewrite numel_3; nia).
      rewrite Nat.mul_1_r, (unravel_3 N K i k Hk).
      rewrite bidx_col, bidx_row, !elt_data by assumption.
      rewrite elt_tabulate by (rewrite numel_2; lia).
      rewrite Nat.div_1_r, Nat.mod_1_r, !Nat.mul_1_r, Nat.add_0_r.
      rewrite Nat.mod_small, Nat.div_small, Nat.add_0_r by lia.
      reflexivity.
Qed.

Lemma any_choose_centers_ok_shape (X C : tensor F) N a :
  shape X = [N; 1] -> AnyFloat.choose_centers ar X C = Ok a ->
  exists K', shape C = [K'; 1].
Proof.
  intros HX H. unfold AnyFloat.choose_centers, ndim in H. rewrite HX in H.
  destruct (shape C) as [|k [|d [|e r]]];
    cbn [length Nat.eqb andb py_assert bind nth] in H; try discriminate.
  destruct d as [|[|d]]; cbn [Nat.eqb py_assert bind] in H; try discriminate.
  eauto.
Qed.

Lemma any_nearest_spec (X C : tensor F) K i : 0 < K ->
  AnyFloat.nearest ar X C K i < K
  /\ (forall k, k < K ->
        f_before ar
          (AnyFloat.sq_diff ar (AnyFloat.entry ar X i) (AnyFloat.entry ar C k))
          (AnyFloat.sq_diff ar (AnyFloat.entry ar X i)
             (AnyFloat.entry ar C (AnyFloat.nearest ar X C K i))) = false)
  /\ (forall k, k < AnyFloat.nearest ar X C K i ->
        f_before ar
          (AnyFloat.sq_diff ar (AnyFloat.entry ar X i)
             (AnyFloat.entry ar C (AnyFloat.nearest ar X C K i)))
          (AnyFloat.sq_diff ar (AnyFloat.entry ar X i) (AnyFloat.entry ar C k))
        = true).
Proof.
  intros HK. rewrite nearest_eq.
  exact (first_least
           (fun k => AnyFloat.sq_diff ar (AnyFloat.entry ar X i)
                       (AnyFloat.entry ar C k)) K HK).
Qed.

Lemma any_iteration_ok step st st' sh :
  AnyFloat.iteration ar step st = Ok (st', sh) ->
  exists a c, step (AnyFloat.centers st) = Ok (a, c)
    /\ st' = AnyFloat.mkLocals (Some a) c (Some (AnyFloat.centers st)).
Proof.
  unfold AnyFloat.iteration. intros H.
  apply bind_ok in H as ([a c] & Hs & H).
  apply bind_ok in H as (s & _ & H). injection H as <- _. eauto.
Qed.

Lemma any_iterate_last_pass step tol : forall n st st',
  AnyFloat.iterate ar step tol n st = Ok st' ->
  st' = st
  \/ exists a old, AnyFloat.choice_cluster st' = Some a
       /\ AnyFloat.centers_old st' = Some old
       /\ step old = Ok (a, AnyFloat.centers st').
Proof.
  induction n as [|n IH]; intros st st' H; cbn [AnyFloat.iterate] in H.
  - left. now injection H as <-.
  - right. apply bind_ok in H as ([s1 sh] & H1 & H).
    apply any_iteration_ok in H1 as (a & c & Hs & ->).
    revert H. destruct (f_lt ar (f_sq ar sh) tol); intros H.
    + injection H as <-. exists a, (AnyFloat.centers st). auto.
    + destruct (IH _ _ H) as [->|R]; [|exact R].
      exists a, (AnyFloat.centers st). auto.
Qed.

(** X2.  Whatever the arithmetic, on one-feature data with [N <> 1] points
    and [K >= 2] centers [choose_centers] returns a vector of [N] indices
    below [K]; entry [i] is the first center whose computed squared
    difference to [X[i]] is least in the order of [argmin]: no center comes
    before it in that order, and it comes before every earlier center. *)
Theorem choose_centers_first_least_computed (X C : tensor F) N K :
  shape X = [N; 1] -> shape C = [K; 1] -> N <> 1 -> 2 <= K ->
  exists a, AnyFloat.choose_centers ar X C = Ok a /\ shape a = [N]
    /\ forall i, i < N ->
         elt a i < K
         /\ (forall k, k < K ->
               f_before ar
                 (AnyFloat.sq_diff ar (AnyFloat.entry ar X i)
                    (AnyFloat.entry ar C k))
                 (AnyFloat.sq_diff ar (AnyFloat.entry ar X i)
                    (AnyFloat.entry ar C (elt a i))) = false)
         /\ (forall k, k < elt a i ->
               f_before ar
                 (AnyFloat.sq_diff ar (AnyFloat.entry ar X i)
                    (AnyFloat.entry ar C (elt a i)))
                 (AnyFloat.sq_diff ar (AnyFloat.entry ar X i)
                    (AnyFloat.entry ar C k)) = true).
Proof.
  intros HX HC HN HK. rewrite (any_choose_centers_col X C N K HX HC).
  destruct (Nat.eqb_spec N 1); [contradiction|].
  destruct (Nat.ltb_spec K 2); [lia|]. cbn [orb].
  eexists; split; [reflexivity|]. split; [reflexivity|].
  intros i Hi. rewrite elt_tabulate by (now rewrite numel_1).
  apply any_nearest_spec. lia.
Qed.

(** C8 (amended).  Whatever the arithmetic, the assignment that [lloyd]
    returns on one-feature data is the one [choose_centers] computes from
    [centers_old], the centers the last executed pass started from: entry
    [i] is a center whose computed squared difference to [X[i]] no other
    center of [centers_old] comes before.  The returned centers are the
    update computed from that assignment afterwards, and the assignment need
    not be nearest among them. *)
Theorem lloyd_assignment_nearest_to_old_centers
  (X : tensor F) K tol max_iter a c N :
  shape X = [N; 1] ->
  AnyFloat.lloyd ar randperm X K tol max_iter = Ok (a, c) ->
  exists st old oh K',
    AnyFloat.lloyd_locals ar randperm X K tol max_iter = Ok st
    /\ AnyFloat.choice_cluster st = Some a /\ AnyFloat.centers st = c
    /\ AnyFloat.centers_old st = Some old
    /\ AnyFloat.choose_centers ar X old = Ok a
    /\ AnyFloat.m_step ar X oh old = Ok (a, c)
    /\ shape old = [K'; 1] /\ shape a = [N]
    /\ forall i, i < N ->
         elt a i < K'
         /\ forall k', k' < K' ->
              f_before ar
                (AnyFloat.sq_diff ar (AnyFloat.entry ar X i)
                   (AnyFloat.entry ar old k'))
                (AnyFloat.sq_diff ar (AnyFloat.entry ar X i)
                   (AnyFloat.entry ar old (elt a i))) = false.
Proof.
  intros HX H. unfold AnyFloat.lloyd in H.
  apply bind_ok in H as (st & Hst & Hr).
  assert (Ha : AnyFloat.choice_cluster st = Some a /\ AnyFloat.centers st = c).
  { unfold AnyFloat.return_locals in Hr.
    destruct (AnyFloat.choice_cluster st); [|discriminate].
    now injection Hr as <- <-. }
  destruct Ha as [Ha Hc].
  pose proof Hst as Hrun. unfold AnyFloat.lloyd_locals in Hrun.
  apply bind_ok in Hrun as (c0 & _ & Hrun).
  apply bind_ok in Hrun as (N' & _ & Hrun).
  apply bind_ok in Hrun as (oh & _ & Hrun).
  apply bind_ok in Hrun as (o & _ & Hrun).
  apply any_iterate_last_pass in Hrun as [->|(a' & old & Ha' & Hold & Hm)];
    [discriminate Ha|].
  rewrite Ha in Ha'. injection Ha' as <-. rewrite Hc in Hm.
  assert (Hcc : AnyFloat.choose_centers ar X old = Ok a).
  { unfold AnyFloat.m_step in Hm. apply bind_ok in Hm as (a0 & H0 & Hm).
    repeat (apply bind_ok in Hm as (? & _ & Hm)). now injection Hm as -> _. }
  destruct (any_choose_centers_ok_shape X old N a HX Hcc) as (K' & HK').
  pose proof Hcc as Heq. rewrite (any_choose_centers_col X old N K' HX HK') in Heq.
  destruct (Nat.eqb_spec N 1); [discriminate|].
  destruct (Nat.ltb_spec K' 2); [discriminate|]. cbn [orb] in Heq.
  injection Heq as Heq.
  exists st, old, oh, K'. repeat split; auto.
  - now rewrite <- Heq.
  - rewrite <- Heq, elt_tabulate by (now rewrite numel_1).
    apply any_nearest_spec. lia.
  - intros k' Hk'. rewrite <- Heq, elt_tabulate by (now rewrite numel_1).
    apply any_nearest_spec; lia.
Qed.
End AnyArithmetic.

(** ** The two arithmetics *)

Lemma Q_order sqrt : strict_weak_order (f_before (Q_arith sqrt)).
Proof.
  cbn [f_before Q_arith]. split; [|split].
  - intros x. apply qltb_ge, Qle_refl.
  - intros x y z H1 H2. apply qltb_lt in H1, H2. apply qltb_lt.
    now apply Qlt_trans with y.
  - intros x y z H1 H2. apply qltb_ge in H1, H2. apply qltb_ge.
    now apply Qle_trans with y.
Qed.

Lemma f32_before_key a b : f32_before a b = true <-> key_lt (f32_key a) (f32_key b).
Proof.
  unfold f32_before, SFltb.
  destruct a as [sa|sa| |sa ma ea], b as [sb|sb| |sb mb eb];
    try destruct sa; try destruct sb; cbn;
    try change (PosDef.Pos.compare_cont Eq ma mb) with (Pos.compare ma mb);
    try destruct (Z.compare_spec ea eb);
    try destruct (Pos.compare_spec ma mb); cbn;
    (split; intros Hk;
     [ try discriminate Hk; lia | try reflexivity; exfalso; lia ]).
Qed.

Lemma f32_before_false a b :
  f32_before a b = false <-> ~ key_lt (f32_key a) (f32_key b).
Proof.
  rewrite <- f32_before_key. destruct (f32_before a b); split; congruence.
Qed.

Lemma f32_order : strict_weak_order (f_before f32_arith).
Proof.
  cbn [f_before f32_arith]. split; [|split].
  - intros x. apply f32_before_false. unfold key_lt.
    destruct (f32_key x) as [[x1 x2] x3]. lia.
  - intros x y z. rewrite !f32_before_key. unfold key_lt.
    destruct (f32_key x) as [[x1 x2] x3], (f32_key y) as [[y1 y2] y3],
      (f32_key z) as [[z1 z2] z3]. lia.
  - intros x y z. rewrite !f32_before_false. unfold key_lt.
    destruct (f32_key x) as [[x1 x2] x3], (f32_key y) as [[y1 y2] y3],
      (f32_key z) as [[z1 z2] z3]. lia.
Qed.

(** The rational model of the module is the instance of the general one at
    the rationals. *)
Lemma choose_centers_rational_instance sqrt X C :
  choose_centers X C = AnyFloat.choose_centers (Q_arith sqrt) X C.
Proof. reflexivity. Qed.

Lemma m_step_rational_instance sqrt X oh C :
  m_step X oh C = AnyFloat.m_step (Q_arith sqrt) X oh C.
Proof. reflexivity. Qed.

Lemma iterate_rational_instance sqrt step tol : forall n st,
  (s <- iterate sqrt step tol n st ;; Ok (any_locals s))
  = AnyFloat.iterate (Q_arith sqrt) step tol n (any_locals st).
Proof.
  induction n as [|n IH]; intros st; [reflexivity|].
  cbn [iterate AnyFloat.iterate]. unfold iteration, AnyFloat.iteration.
  cbn [AnyFloat.centers any_locals].
  destruct (step (centers st)) as [[a c]|e]; [|reflexivity]. cbn [bind].
  change (AnyFloat.center_shift (Q_arith sqrt) c (centers st))
    with (center_shift sqrt c (centers st)).
  destruct (center_shift sqrt c (centers st)) as [s|e]; [|reflexivity].
  cbn [bind f_lt f_sq Q_arith].
  destruct (qltb (qmul s s) tol); [reflexivity|]. apply IH.
Qed.

Lemma lloyd_rational_instance sqrt randperm X K tol max_iter :
  lloyd sqrt randperm X K tol max_iter
  = AnyFloat.lloyd (Q_arith sqrt) randperm X K tol max_iter.
Proof.
  unfold lloyd, AnyFloat.lloyd, lloyd_locals, AnyFloat.lloyd_locals.
  change (AnyFloat.forgy_initialization (Q_arith sqrt) randperm X K)
    with (forgy_initialization randperm X K).
  destruct (forgy_initialization randperm X K) as [c0|e]; [|reflexivity].
  cbn [bind]. destruct (size0 X) as [N|e]; [|reflexivity]. cbn [bind].
  change (AnyFloat.zeros (Q_arith sqrt) [Z.of_nat N; K]) with (zeros [Z.of_nat N; K]).
  destruct (zeros [Z.of_nat N; K]) as [oh|e]; [|reflexivity]. cbn [bind].
  change (AnyFloat.ones (Q_arith sqrt) [K]) with (ones [K]).
  destruct (ones [K]) as [o|e]; [|reflexivity]. cbn [bind].
  change (AnyFloat.m_step (Q_arith sqrt) X oh) with (m_step X oh).
  change (AnyFloat.mkLocals None c0 None)
    with (any_locals (mkLocals None c0 None)).
  rewrite <- (iterate_rational_instance sqrt (m_step X oh) tol max_iter
                (mkLocals None c0 None)).
  destruct (iterate sqrt (m_step X oh) tol max_iter (mkLocals None c0 None))
    as [st|e]; [|reflexivity].
  cbn [bind]. unfold return_locals, AnyFloat.return_locals.
  cbn [AnyFloat.choice_cluster AnyFloat.centers any_locals]. reflexivity.
Qed.

Lemma choose_centers_first_least_computed_witness :
  exists a, AnyFloat.choose_centers f32_arith f32_zeros2 f32_huge_centers = Ok a
    /\ shape a = [2]
    /\ forall i, i < 2 ->
         elt a i < 2
         /\ (forall k, k < 2 ->
               f_before f32_arith
                 (AnyFloat.sq_diff f32_arith (AnyFloat.entry f32_arith f32_zeros2 i)
                    (AnyFloat.entry f32_arith f32_huge_centers k))
                 (AnyFloat.sq_diff f32_arith (AnyFloat.entry f32_arith f32_zeros2 i)
                    (AnyFloat.entry f32_arith f32_huge_centers (elt a i))) = false)
         /\ (forall k, k < elt a i ->
               f_before f32_arith
                 (AnyFloat.sq_diff f32_arith (AnyFloat.entry f32_arith f32_zeros2 i)
                    (AnyFloat.entry f32_arith f32_huge_centers (elt a i)))
                 (AnyFloat.sq_diff f32_arith (AnyFloat.entry f32_arith f32_zeros2 i)
                    (AnyFloat.entry f32_arith f32_huge_centers k)) = true).
Proof.
  apply (choose_centers_first_least_computed f32_arith f32_order f32_zeros2
           f32_huge_centers 2 2); [reflexivity | reflexivity | lia | lia].
Defined.

(** In float32 both squares overflow to infinity, the two centers tie, and
    [argmin] names the first; in the rationals the second center is nearer. *)
Lemma choose_centers_overflow_tie :
  AnyFloat.choose_centers f32_arith f32_zeros2 f32_huge_centers
  = Ok (mkT [2] [0; 0])
  /\ AnyFloat.sq_diff f32_arith (f32_of 0 0) (f32_of 1 70) = S754_infinity false
  /\ AnyFloat.sq_diff f32_arith (f32_of 0 0) (f32_of 1 69) = S754_infinity false
  /\ choose_centers (col [0; 0]%Q)
       (col [inject_Z (2 ^ 70); inject_Z (2 ^ 69)])
     = Ok (mkT [2] [1; 1]).
Proof. repeat split; vm_compute; reflexivity. Qed.

Lemma lloyd_assignment_nearest_to_old_centers_witness :
  exists st old oh K',
    AnyFloat.lloyd_locals f32_arith idperm f32_huge_points 2 f32_tol_default 1
    = Ok st
    /\ AnyFloat.choice_cluster st = Some (mkT [4] [0; 1; 0; 0])
    /\ AnyFloat.centers st
       = mkT [2; 1] [S754_finite false 11184811 45; f32_of 1 69]
    /\ AnyFloat.centers_old st = Some old
    /\ AnyFloat.choose_centers f32_arith f32_huge_points old
       = Ok (mkT [4] [0; 1; 0; 0])
    /\ AnyFloat.m_step f32_arith f32_huge_points oh old
       = Ok (mkT [4] [0; 1; 0; 0],
             mkT [2; 1] [S754_finite false 11184811 45; f32_of 1 69])
    /\ shape old = [K'; 1] /\ shape (mkT [4] [0; 1; 0; 0]) = [4]
    /\ forall i, i < 4 ->
         elt (mkT [4] [0; 1; 0; 0]) i < K'
         /\ forall k', k' < K' ->
              f_before f32_arith
                (AnyFloat.sq_diff f32_arith
                   (AnyFloat.entry f32_arith f32_huge_points i)
                   (AnyFloat.entry f32_arith old k'))
                (AnyFloat.sq_diff f32_arith
                   (AnyFloat.entry f32_arith f32_huge_points i)
                   (AnyFloat.entry f32_arith old (elt (mkT [4] [0; 1; 0; 0]) i)))
              = false.
Proof.
  apply (lloyd_assignment_nearest_to_old_centers f32_arith idperm f32_order
           f32_huge_points 2 f32_tol_default 1 (mkT [4] [0; 1; 0; 0])
           (mkT [2; 1] [S754_finite false 11184811 45; f32_of 1 69]) 4).
  - reflexivity.
  - vm_compute; reflexivity.
Defined.

(** The float32 instance rounds as the code does: after the second pass on
    [points8] center 0 is 9087659 * 2^-18 = 34.66666793823242, where the
    rational model has 104/3. *)
Lemma lloyd_float32_rounds :
  AnyFloat.lloyd f32_arith idperm
    (f32_col [30; 120; 40; 34; 79; 81; 82; 83]%Z) 3 f32_tol_default 2
  = Ok (mkT [8] [0; 1; 0; 0; 1; 1; 1; 1],
        mkT [3; 1] [S754_finite false 9087659 (-18); f32_of 89 0; f32_of 0 0])
  /\ lloyd Qsqrt idperm points8 3 tol_default 2
     = Ok (mkT [8] [0; 1; 0; 0; 1; 1; 1; 1], mkT [3; 1] [104 # 3; 89; 0]%Q).
Proof. split; vm_compute; reflexivity. Qed.
